(** * Release pipeline of ccp-releasemanager: a shallow embedding

    The development follows the TypeScript sources:
    - [src/services/azureDevOpsService.ts] (class [AzureDevOpsService]),
    - [src/utils/retryUtils.ts] ([retryAsync]),
    - [src/stores/appStore.ts] (the zustand store actions),
    - [src/components/ExportBar/ExportBar.tsx] ([calculateNewVersion],
      [processReleases] and [handleExport], in the tag-based revision of the
      component),
    - the repository selector ([loadRepositoryVersions] and its handlers)
      and the settings menu,
    - [src/utils/csvParser.ts] ([validateCsvFormat], [parseCsvToWorkItems]),
    - [stripHtmlTags].

    JavaScript strings are modelled by [string], arrays by [list], a
    [Set<string>] and a [Map<number, _>] by insertion-ordered lists (their
    iteration order is observable), [Promise]s by a state-and-exception
    monad over the state of the remote system. *)

From Stdlib Require Import List String Ascii Bool Arith NArith ZArith Lia.
From Stdlib Require Import DecimalString DecimalN DecimalPos DecimalFacts.
Import ListNotations.

Local Open Scope string_scope.
Local Open Scope list_scope.

(* ------------------------------------------------------------------ *)
(** ** JavaScript strings

    A [string] is a sequence of bytes.  The patterns of the program are made
    of ASCII characters, and a character outside ASCII is never taken for
    one of them, in the bytes of UTF-8 as in the code units of JavaScript. *)

Module Js.

(** [\d] of a JavaScript regular expression: the ASCII digits only. *)
Definition isDigit (c : ascii) : bool :=
  let n := nat_of_ascii c in (48 <=? n)%nat && (n <=? 57)%nat.

(** Canonicalisation of a character under the [i] flag, on ASCII letters. *)
Definition upper (c : ascii) : ascii :=
  let n := nat_of_ascii c in
  if (97 <=? n)%nat && (n <=? 122)%nat then ascii_of_nat (n - 32) else c.

Definition eqChar (ignoreCase : bool) (a b : ascii) : bool :=
  if ignoreCase then Ascii.eqb (upper a) (upper b) else Ascii.eqb a b.

(** [s.startsWith(p)], with the comparison of the [i] flag when asked. *)
Fixpoint startsWith (ignoreCase : bool) (p s : string) : bool :=
  match p, s with
  | EmptyString, _ => true
  | String a p', String b s' => eqChar ignoreCase a b && startsWith ignoreCase p' s'
  | String _ _, EmptyString => false
  end.

(** [s.slice(n)]. *)
Fixpoint drop (n : nat) (s : string) : string :=
  match n, s with
  | O, _ => s
  | S k, String _ s' => drop k s'
  | S _, EmptyString => EmptyString
  end.

(** The longest prefix of digits, a greedy [\d*], and what follows it. *)
Fixpoint spanDigits (s : string) : string * string :=
  match s with
  | String c s' =>
      if isDigit c then let (d, r) := spanDigits s' in (String c d, r)
      else (EmptyString, s)
  | EmptyString => (EmptyString, EmptyString)
  end.

(** [s.split(sep)] for a one-character separator. *)
Fixpoint split (sep : ascii) (s : string) : list string :=
  match s with
  | EmptyString => [EmptyString]
  | String c s' =>
      if Ascii.eqb c sep then EmptyString :: split sep s'
      else match split sep s' with
           | h :: t => String c h :: t
           | [] => [String c EmptyString]
           end
  end.

(** Truthiness of a string: every string but the empty one. *)
Definition truthy (s : string) : bool :=
  match s with EmptyString => false | _ => true end.

(** [/^\d*$/.test(s)]. *)
Fixpoint everyDigit (s : string) : bool :=
  match s with
  | EmptyString => true
  | String c s' => isDigit c && everyDigit s'
  end.

End Js.

(* ------------------------------------------------------------------ *)
(** ** JavaScript numbers, as far as versions need them

    [Number(s)] yields an IEEE double.  On a run of decimal digits whose
    value is at most [Number.MAX_SAFE_INTEGER] the double is that integer,
    [+ 1] and [-] on such values are exact and a template literal prints the
    decimal digits; the empty string converts to [0].  Every other double
    (a rounded large integer, a fraction, [NaN], ...) is [Outside]: the
    development tracks no value for it. *)

Definition MAX_SAFE_INTEGER : N := 9007199254740991.

Inductive JsNumber : Type :=
| Exact (n : N)
| Outside.

Definition digitsValue (s : string) : option N :=
  option_map N.of_uint (NilEmpty.uint_of_string s).

Definition Number (s : string) : JsNumber :=
  match digitsValue s with
  | Some n => if (n <=? MAX_SAFE_INTEGER)%N then Exact n else Outside
  | None => Outside
  end.

(** [`${n}`] for an exact integer. *)
Definition decimal (n : N) : string := NilEmpty.string_of_uint (N.to_uint n).

(* ------------------------------------------------------------------ *)
(** ** Types of [src/types/azureTypes.ts] *)

Inductive BumpType : Type := Major | Minor.

Record GitRef : Type := mkGitRef {
  ref_name : string;
  ref_objectId : string
}.

Record WorkItemReference : Type := mkWorkItemReference {
  wir_id : string;
  wir_url : string
}.

Record GitCommit : Type := mkGitCommit {
  commitId : string;
  comment : string;
  commit_workItems : option (list WorkItemReference)
}.

Record WorkItem : Type := mkWorkItem {
  wi_id : N;
  wi_type : string;
  wi_title : string;
  wi_url : string
}.

Record Repository : Type := mkRepository {
  repo_id : string;
  repo_name : string;
  currentVersion : option string;
  selected : bool;
  bumpType : option BumpType
}.

Record ReleaseProcessingResult : Type := mkResult {
  repository : string;
  success : bool;
  newVersion : option string;
  error : option string;
  res_workItems : option (list WorkItem)
}.

(* ------------------------------------------------------------------ *)
(** ** [calculateNewVersion] *)

Definition NO_RELEASES : string := "No releases".
Definition ERROR_LOADING : string := "Error loading".

(** The guard [!currentVersion || currentVersion === 'No releases' ||
    currentVersion === 'Error loading']. *)
Definition isSentinel (currentVersion : option string) : bool :=
  match currentVersion with
  | None => true
  | Some v => negb (Js.truthy v) || String.eqb v NO_RELEASES || String.eqb v ERROR_LOADING
  end.

Section VersionPolicy.

(** The text the template literals produce when a component of the version
    is [Outside]; it depends on floating-point printing and is left open. *)
Variable outsideText : string -> BumpType -> string.

Definition calculateNewVersion
    (currentVersion : option string) (bump : BumpType) : string :=
  if isSentinel currentVersion then
    match bump with Major => "1.0" | Minor => "0.1" end
  else
    let cur := match currentVersion with Some v => v | None => EmptyString end in
    (* const [major, minor] = currentVersion.split('.').map(Number) *)
    match bump, map Number (Js.split "." cur) with
    | Major, Exact major :: _ => (decimal (major + 1) ++ ".0")%string
    | Minor, Exact major :: Exact minor :: _ =>
        (decimal major ++ "." ++ decimal (minor + 1))%string
    | Minor, [Exact major] => (decimal major ++ ".NaN")%string   (* undefined + 1 *)
    | _, _ => outsideText cur bump
    end.

End VersionPolicy.

(* ------------------------------------------------------------------ *)
(** ** Promises: state and exceptions

    An [async] function is a computation over a state that either returns a
    value or throws.  What is thrown is an [Error] carrying a message, or
    some other value of which only the truthiness matters
    ([lastError || new Error(...)], [error instanceof Error]). *)

Inductive Thrown : Type :=
| JsError (message : string)
| NonError (truthy : bool).

Definition Result (A : Type) : Type := (Thrown + A)%type.

Definition Eff (S A : Type) : Type := S -> Result A * S.

Definition ret {S A} (a : A) : Eff S A := fun s => (inr a, s).

Definition throw {S A} (e : Thrown) : Eff S A := fun s => (inl e, s).

Definition bind {S A B} (c : Eff S A) (k : A -> Eff S B) : Eff S B :=
  fun s => match c s with
           | (inr a, s') => k a s'
           | (inl e, s') => (inl e, s')
           end.

(** [try { c } catch (e) { h e }]: the state reached when [c] throws is kept. *)
Definition tryCatch {S A} (c : Eff S A) (h : Thrown -> Eff S A) : Eff S A :=
  fun s => match c s with
           | (inr a, s') => (inr a, s')
           | (inl e, s') => h e s'
           end.

Declare Scope eff_scope.
Delimit Scope eff_scope with eff.
Notation "x <- c ;; k" := (bind c (fun x => k))
  (at level 61, c at next level, right associativity) : eff_scope.
Notation "c ;;; k" := (bind c (fun _ => k))
  (at level 61, right associativity) : eff_scope.
Local Open Scope eff_scope.

(** [for (const x of xs) { body x }]. *)
Fixpoint forEach {S A} (xs : list A) (body : A -> Eff S unit) : Eff S unit :=
  match xs with
  | [] => ret tt
  | x :: xs' => body x ;;; forEach xs' body
  end.

(* ------------------------------------------------------------------ *)
(** ** [retryAsync] of [src/utils/retryUtils.ts]

    The delays between the attempts are not modelled. *)

Definition maxAttempts : nat := 3.

(** The loop [for (attempt = 1; attempt <= maxAttempts; attempt++)], with the
    number of attempts that remain, and the [throw] that follows it. *)
Fixpoint retryLoop {S A} (remaining : nat) (lastError : option Thrown)
    (fn : Eff S A) : Eff S A :=
  match remaining with
  | O =>
      match lastError with
      | Some (JsError m) => throw (JsError m)
      | Some (NonError true) => throw (NonError true)
      | Some (NonError false) | None => throw (JsError "Max retry attempts reached")
      end
  | S k =>
      fun s => match fn s with
               | (inr a, s') => (inr a, s')
               | (inl e, s') => retryLoop k (Some e) fn s'
               end
  end.

Definition retryAsync {S A} (fn : Eff S A) : Eff S A :=
  retryLoop maxAttempts None fn.

(** [lastError || new Error('Max retry attempts reached')]. *)
Definition thrownAfter (lastError : option Thrown) : Thrown :=
  match lastError with
  | Some (NonError false) | None => JsError "Max retry attempts reached"
  | Some e => e
  end.

(* ------------------------------------------------------------------ *)
(** ** The remote system and [AzureDevOpsService] *)

(** The requests [this.fetch] sends, one field per URL shape, over the state
    [W] of the remote system.  A request throws when the response is not
    [ok], when the network fails or when the body is not the JSON expected. *)
Record Remote (W : Type) : Type := mkRemote {
  (* GET .../repositories/{id}/refs?filter={filter}: [response.value] *)
  httpGetRefs : string -> string -> Eff W (list GitRef);
  (* POST .../repositories/{id}/refs with name and newObjectId *)
  httpPostRefs : string -> string -> string -> Eff W (list GitRef);
  (* POST .../repositories/{id}/annotatedtags with name, objectId, message *)
  httpPostAnnotatedTag : string -> string -> string -> string -> Eff W unit;
  (* GET .../annotatedtags/{tagObjectId}: [taggedObject.objectId] *)
  httpGetAnnotatedTag : string -> string -> Eff W string;
  (* GET .../commits?searchCriteria.itemVersion.version={commit} *)
  httpGetCommits : string -> string -> Eff W (list GitCommit);
  (* GET .../commits?...itemVersion.version={compare}&...compareVersion.version={base} *)
  httpGetCommitsCompare : string -> string -> string -> Eff W (list GitCommit);
  (* GET .../commits/{commitId}/workitems: the [id]s of [response.value] *)
  httpGetCommitWorkItems : string -> string -> Eff W (list string);
  (* GET .../pullrequests/{id}/workitems: the [id]s of [response.value] *)
  httpGetPullRequestWorkItems : string -> string -> Eff W (list string);
  (* GET .../wit/workitems/{id} *)
  httpGetWorkItem : string -> Eff W WorkItem
}.

Arguments httpGetRefs {W}.
Arguments httpPostRefs {W}.
Arguments httpPostAnnotatedTag {W}.
Arguments httpGetAnnotatedTag {W}.
Arguments httpGetCommits {W}.
Arguments httpGetCommitsCompare {W}.
Arguments httpGetCommitWorkItems {W}.
Arguments httpGetPullRequestWorkItems {W}.
Arguments httpGetWorkItem {W}.

(** The methods of the service that were invoked, in order: a ghost record
    kept next to the state of the remote system. *)
Inductive Call : Type :=
| CGetRepositoryRefs (repositoryId : string)
| CGetRepositoryTags (repositoryId : string)
| CGetMainBranchCommit (repositoryId : string)
| CCreateBranch (repositoryId branchName sourceBranch : string)
| CCreateTag (repositoryId tagName commit message : string)
| CGetTagObject (repositoryId tagObjectId : string)
| CGetCommitsBetweenBranches (repositoryId baseBranch compareBranch : string)
| CGetCommitsBetweenTags (repositoryId oldTag newTag : string)
| CGetCommitWorkItems (repositoryId commit : string)
| CGetPullRequestWorkItems (repositoryId pullRequestId : string)
| CGetWorkItem (workItemId : string).

Record Net (W : Type) : Type := mkNet {
  world : W;
  calls : list Call
}.
Arguments mkNet {W}.
Arguments world {W}.
Arguments calls {W}.

(** A stable insertion sort: [Array.prototype.sort] with a comparator that is
    consistent; [cmp a b > 0] puts [a] after [b]. *)
Fixpoint sortInsert {A} (cmp : A -> A -> Z) (x : A) (l : list A) : list A :=
  match l with
  | [] => [x]
  | y :: ys => if (0 <? cmp x y)%Z then y :: sortInsert cmp x ys else x :: y :: ys
  end.

Definition sort {A} (cmp : A -> A -> Z) (l : list A) : list A :=
  fold_right (sortInsert cmp) [] l.

(** [Array.prototype.findIndex], [None] for [-1]. *)
Fixpoint findIndex {A} (p : A -> bool) (l : list A) : option nat :=
  match l with
  | [] => None
  | x :: l' => if p x then Some O else option_map S (findIndex p l')
  end.

(** [s.replace(pat, by)] for a non-empty string pattern: the first occurrence. *)
Fixpoint replaceFirst (pat by_ s : string) : string :=
  if Js.startsWith false pat s then (by_ ++ Js.drop (String.length pat) s)%string
  else match s with
       | String c s' => String c (replaceFirst pat by_ s')
       | EmptyString => EmptyString
       end.

(** [name.match(/refs\/heads\/release\/(\d+\.\d+)\.x/)] at the start of [s];
    a greedy [\d+] followed by [\.] can only end where the digits end. *)
Definition releaseVersionAt (s : string) : option string :=
  if Js.startsWith false "refs/heads/release/" s then
    let (major, r1) := Js.spanDigits (Js.drop 19 s) in
    match r1 with
    | String "." r1' =>
        let (minor, r2) := Js.spanDigits r1' in
        if Js.truthy major && Js.truthy minor && Js.startsWith false ".x" r2
        then Some (major ++ "." ++ minor)%string else None
    | _ => None
    end
  else None.

(** The same match tried at every position from the left: group 1. *)
Fixpoint releaseVersionMatch (s : string) : option string :=
  match releaseVersionAt s with
  | Some v => Some v
  | None => match s with
            | String _ s' => releaseVersionMatch s'
            | EmptyString => None
            end
  end.

Fixpoint filterMap {A B} (f : A -> option B) (l : list A) : list B :=
  match l with
  | [] => []
  | x :: l' => match f x with
               | Some y => y :: filterMap f l'
               | None => filterMap f l'
               end
  end.

Section Service.

Context {W : Type}.
Variable remote : Remote W.

(** The comparator of [getLatestReleaseVersion] where a component is
    [Outside]: it depends on rounded doubles and is left open. *)
Variable outsideCompare : string -> string -> Z.

Definition Svc (A : Type) : Type := Eff (Net W) A.

(** One request: the remote system moves, the record of calls does not. *)
Definition request {A} (op : Eff W A) : Svc A :=
  fun n => let (r, w) := op (world n) in (r, mkNet w (calls n)).

Definition invoked (c : Call) : Svc unit :=
  fun n => (inr tt, mkNet (world n) (calls n ++ [c])).

Definition getRepositoryRefs (repositoryId : string) : Svc (list GitRef) :=
  invoked (CGetRepositoryRefs repositoryId) ;;;
  retryAsync (request (httpGetRefs remote repositoryId "heads/release")).

Definition getRepositoryTags (repositoryId : string) : Svc (list GitRef) :=
  invoked (CGetRepositoryTags repositoryId) ;;;
  retryAsync (request (httpGetRefs remote repositoryId "tags")).

Definition getMainBranchCommit (repositoryId : string) : Svc string :=
  invoked (CGetMainBranchCommit repositoryId) ;;;
  retryAsync (
    value <- request (httpGetRefs remote repositoryId "heads/main") ;;
    match value with
    | [] => throw (JsError "Main branch not found")
    | r :: _ => ret (ref_objectId r)
    end).

(** [bMajor - aMajor || bMinor - aMinor] on the components of two versions. *)
Definition compareVersionsDesc (a b : string) : Z :=
  match map Number (Js.split "." a), map Number (Js.split "." b) with
  | Exact aMajor :: Exact aMinor :: _, Exact bMajor :: Exact bMinor :: _ =>
      let d := (Z.of_N bMajor - Z.of_N aMajor)%Z in
      if (d =? 0)%Z then (Z.of_N bMinor - Z.of_N aMinor)%Z else d
  | _, _ => outsideCompare a b
  end.

(** The versions of the release branches among [refs]. *)
Definition releaseBranches (refs : list GitRef) : list string :=
  filterMap (fun r => releaseVersionMatch (ref_name r))
    (filter (fun r => Js.startsWith false "refs/heads/release/" (ref_name r)) refs).

Definition getLatestReleaseVersion (repositoryId : string) : Svc (option string) :=
  tryCatch (
    refs <- getRepositoryRefs repositoryId ;;
    let versions := releaseBranches refs in
    match versions with
    | [] => ret None
    | _ => ret (hd_error (sort compareVersionsDesc versions))
    end)
    (fun _ => ret None).

Definition createBranch (repositoryId branchName sourceBranch : string)
  : Svc (option GitRef) :=
  invoked (CCreateBranch repositoryId branchName sourceBranch) ;;;
  refs <- request (httpGetRefs remote repositoryId
                     (replaceFirst "refs/heads/" "heads/" sourceBranch)) ;;
  match refs with
  | [] => throw (JsError ("Source branch " ++ sourceBranch ++ " not found")%string)
  | r :: _ =>
      let sourceCommitId := ref_objectId r in
      retryAsync (
        value <- request (httpPostRefs remote repositoryId branchName sourceCommitId) ;;
        ret (hd_error value))
  end.

Definition createTag (repositoryId tagName commit message : string) : Svc unit :=
  invoked (CCreateTag repositoryId tagName commit message) ;;;
  retryAsync (request (httpPostAnnotatedTag remote repositoryId tagName commit message)).

Definition getTagObject (repositoryId tagObjectId : string) : Svc string :=
  invoked (CGetTagObject repositoryId tagObjectId) ;;;
  retryAsync (request (httpGetAnnotatedTag remote repositoryId tagObjectId)).

Definition resolveTagCommitId (repositoryId : string) (tagRef : GitRef)
    (tagName : string) : Svc string :=
  tryCatch (getTagObject repositoryId (ref_objectId tagRef))
           (fun _ => ret (ref_objectId tagRef)).

Definition getCommitsBetweenBranches (repositoryId baseBranch compareBranch : string)
  : Svc (list GitCommit) :=
  invoked (CGetCommitsBetweenBranches repositoryId baseBranch compareBranch) ;;;
  retryAsync (request (httpGetCommitsCompare remote repositoryId baseBranch compareBranch)).

(** The filter applied to the commits fetched from the new tag. *)
Definition commitsBefore (oldCommitId : string) (value : list GitCommit)
  : list GitCommit :=
  match findIndex (fun c => String.eqb (commitId c) oldCommitId) value with
  | None => value
  | Some oldCommitIndex => firstn oldCommitIndex value
  end.

Definition getCommitsBetweenTags (repositoryId oldTag newTag : string)
  : Svc (list GitCommit) :=
  invoked (CGetCommitsBetweenTags repositoryId oldTag newTag) ;;;
  tags <- getRepositoryTags repositoryId ;;
  let oldTagRef := find (fun t => String.eqb (ref_name t) ("refs/tags/" ++ oldTag)%string) tags in
  let newTagRef := find (fun t => String.eqb (ref_name t) ("refs/tags/" ++ newTag)%string) tags in
  match oldTagRef, newTagRef with
  | Some oldTagRef, Some newTagRef =>
      oldCommitId <- resolveTagCommitId repositoryId oldTagRef oldTag ;;
      newCommitId <- resolveTagCommitId repositoryId newTagRef newTag ;;
      retryAsync (
        value <- request (httpGetCommits remote repositoryId newCommitId) ;;
        ret (commitsBefore oldCommitId value))
  | _, _ => throw (JsError ("Tags not found: " ++ oldTag ++ " or " ++ newTag)%string)
  end.

Definition getCommitWorkItems (repositoryId commit : string) : Svc (list string) :=
  invoked (CGetCommitWorkItems repositoryId commit) ;;;
  tryCatch (retryAsync (request (httpGetCommitWorkItems remote repositoryId commit)))
           (fun _ => ret []).

Definition getPullRequestWorkItems (repositoryId pullRequestId : string)
  : Svc (list string) :=
  invoked (CGetPullRequestWorkItems repositoryId pullRequestId) ;;;
  tryCatch (retryAsync (request (httpGetPullRequestWorkItems remote repositoryId pullRequestId)))
           (fun _ => ret []).

Definition getWorkItem (workItemId : string) : Svc WorkItem :=
  invoked (CGetWorkItem workItemId) ;;;
  retryAsync (request (httpGetWorkItem remote workItemId)).

End Service.

(* ------------------------------------------------------------------ *)
(** ** [Set<string>] and [Map<number, WorkItem>]

    Both iterate in insertion order; setting a key that is present replaces
    the value where the key already stands. *)

Module JsSet.

Definition has (s : list string) (x : string) : bool :=
  existsb (String.eqb x) s.

Definition add (s : list string) (x : string) : list string :=
  if has s x then s else s ++ [x].

(** [xs.forEach((x) => s.add(x))]. *)
Definition addAll (s : list string) (xs : list string) : list string :=
  fold_left add xs s.

End JsSet.

Module JsMap.

Fixpoint set {V} (m : list (N * V)) (k : N) (v : V) : list (N * V) :=
  match m with
  | [] => [(k, v)]
  | (k', v') :: m' => if (k' =? k)%N then (k', v) :: m' else (k', v') :: set m' k v
  end.

(** [m.get(k)]. *)
Fixpoint get {V} (m : list (N * V)) (k : N) : option V :=
  match m with
  | [] => None
  | (k', v') :: m' => if (k' =? k)%N then Some v' else get m' k
  end.

(** [new Map(entries)]: the entries are set one after the other. *)
Definition put {V} (m : list (N * V)) (e : N * V) : list (N * V) :=
  set m (fst e) (snd e).

Definition ofEntries {V} (entries : list (N * V)) : list (N * V) :=
  fold_left put entries [].

(** [Array.from(m.values())]. *)
Definition values {V} (m : list (N * V)) : list V := map snd m.

End JsMap.

(** [allWorkItems.map((item) => [item.id, item])]. *)
Definition entriesOf (items : list WorkItem) : list (N * WorkItem) :=
  map (fun item => (wi_id item, item)) items.

(** [Array.from(new Map(allWorkItems.map((item) => [item.id, item])).values())]. *)
Definition uniqueWorkItems (allWorkItems : list WorkItem) : list WorkItem :=
  JsMap.values (JsMap.ofEntries (entriesOf allWorkItems)).

(* ------------------------------------------------------------------ *)
(** ** The patterns applied to a commit message *)

(** A literal followed by [(\d+)], matched at the start of [s]: the digits
    captured and the length of the match. *)
Definition literalDigitsAt (ignoreCase : bool) (literal s : string)
  : option (string * nat) :=
  if Js.startsWith ignoreCase literal s then
    let (digits, _) := Js.spanDigits (Js.drop (String.length literal) s) in
    if Js.truthy digits
    then Some (digits, (String.length literal + String.length digits)%nat)
    else None
  else None.

(** [comment.match(/Merged PR (\d+)/i)]: group 1 of the leftmost match. *)
Fixpoint mergedPrMatch (s : string) : option string :=
  match literalDigitsAt true "Merged PR " s with
  | Some (pr, _) => Some pr
  | None => match s with
            | String _ s' => mergedPrMatch s'
            | EmptyString => None
            end
  end.

(** [a || b] on two capture groups, [None] for [undefined]. *)
Definition orGroup (a b : option string) : option string :=
  match a with
  | Some x => if Js.truthy x then a else b
  | None => b
  end.

(** One match of [/#(\d+)|AB#(\d+)/gi] at the start of [s]: the groups 1
    and 2 and the length of the match; the first alternative is tried first. *)
Definition workItemRefAt (s : string)
  : option (option string * option string * nat) :=
  match literalDigitsAt true "#" s with
  | Some (d, len) => Some (Some d, None, len)
  | None =>
      match literalDigitsAt true "AB#" s with
      | Some (d, len) => Some (None, Some d, len)
      | None => None
      end
  end.

(** [comment.matchAll(/#(\d+)|AB#(\d+)/gi)] with [id = match[1] || match[2]]
    and [if (id)]: the identifiers in the order of the matches.  [skip]
    counts the characters that remain of the match found last. *)
Fixpoint workItemRefsFrom (skip : nat) (s : string) : list string :=
  match s with
  | EmptyString => []
  | String _ s' =>
      match skip with
      | S k => workItemRefsFrom k s'
      | O =>
          match workItemRefAt s with
          | Some (g1, g2, len) =>
              match orGroup g1 g2 with
              | Some id => id :: workItemRefsFrom (len - 1) s'
              | None => workItemRefsFrom (len - 1) s'
              end
          | None => workItemRefsFrom 0 s'
          end
      end
  end.

Definition workItemRefs (s : string) : list string := workItemRefsFrom 0 s.

(* ------------------------------------------------------------------ *)
(** ** The store of [src/stores/appStore.ts] and the component *)

Record AppStore : Type := mkStore {
  isProcessing : bool;
  processingResults : list ReleaseProcessingResult;
  consolidatedWorkItems : list WorkItem
}.

(** The state [processReleases] runs over: the remote system with the record
    of calls, the store, and the two arrays the function pushes to
    ([allWorkItems], and [workItems] of the repository at hand). *)
Record Sys (W : Type) : Type := mkSys {
  net : Net W;
  store : AppStore;
  allWorkItems : list WorkItem;
  workItems : list WorkItem
}.
Arguments mkSys {W}.
Arguments net {W}.
Arguments store {W}.
Arguments allWorkItems {W}.
Arguments workItems {W}.

Section Component.

Context {W : Type}.
Variable remote : Remote W.
Variable outsideText : string -> BumpType -> string.

Definition M (A : Type) : Type := Eff (Sys W) A.

(** A call of a method of the service. *)
Definition svc {A} (c : Svc A) : M A :=
  fun s => let (r, n) := c (net s) in
           (r, mkSys n (store s) (allWorkItems s) (workItems s)).

Definition modifyStore (f : AppStore -> AppStore) : M unit :=
  fun s => (inr tt, mkSys (net s) (f (store s)) (allWorkItems s) (workItems s)).

Definition resetProcessing : M unit :=
  modifyStore (fun _ => mkStore false [] []).

Definition setIsProcessing (processing : bool) : M unit :=
  modifyStore (fun st => mkStore processing (processingResults st) (consolidatedWorkItems st)).

Definition addProcessingResult (result : ReleaseProcessingResult) : M unit :=
  modifyStore (fun st =>
    mkStore (isProcessing st) (processingResults st ++ [result]) (consolidatedWorkItems st)).

Definition setConsolidatedWorkItems (items : list WorkItem) : M unit :=
  modifyStore (fun st => mkStore (isProcessing st) (processingResults st) items).

(** [const allWorkItems = []] and [const workItems = []]. *)
Definition newAllWorkItems : M unit :=
  fun s => (inr tt, mkSys (net s) (store s) [] (workItems s)).

Definition newWorkItems : M unit :=
  fun s => (inr tt, mkSys (net s) (store s) (allWorkItems s) []).

(** [workItems.push(workItem); allWorkItems.push(workItem)]. *)
Definition pushWorkItem (workItem : WorkItem) : M unit :=
  fun s => (inr tt, mkSys (net s) (store s) (allWorkItems s) (workItems s ++ [workItem])).

Definition pushAllWorkItems (workItem : WorkItem) : M unit :=
  fun s => (inr tt, mkSys (net s) (store s) (allWorkItems s ++ [workItem]) (workItems s)).

Definition readWorkItems : M (list WorkItem) := fun s => (inr (workItems s), s).

Definition readAllWorkItems : M (list WorkItem) := fun s => (inr (allWorkItems s), s).

(** What one commit adds to [workItemIds] before the remote system is
    asked: its own links, the number of a merged pull request, the
    references of the message. *)
Definition commitIds (commit : GitCommit) (workItemIds : list string) : list string :=
  let ids1 :=
    match commit_workItems commit with
    | Some (wi :: wis) => JsSet.addAll workItemIds (map wir_id (wi :: wis))
    | _ => workItemIds
    end in
  let ids2 :=
    match mergedPrMatch (comment commit) with
    | Some pr => JsSet.add ids1 pr
    | None => ids1
    end in
  JsSet.addAll ids2 (workItemRefs (comment commit)).

(** The loop [for (const commit of commits)] over the set [workItemIds];
    it touches nothing but the set and the service. *)
Fixpoint collectWorkItemIds (repositoryId : string) (commits : list GitCommit)
    (workItemIds : list string) : Svc (list string) :=
  match commits with
  | [] => ret workItemIds
  | commit :: rest =>
      ids <- getCommitWorkItems remote repositoryId (commitId commit) ;;
      collectWorkItemIds repositoryId rest
        (JsSet.addAll (commitIds commit workItemIds) ids)
  end.

(** The loop [for (const id of workItemIds)]. *)
Definition fetchWorkItems (workItemIds : list string) : M unit :=
  forEach workItemIds (fun id =>
    tryCatch (
      workItem <- svc (getWorkItem remote id) ;;
      pushWorkItem workItem ;;;
      pushAllWorkItems workItem)
      (fun _ => ret tt)).

(** [repo.currentVersion && repo.currentVersion !== 'No releases'
     ? `${repo.currentVersion}` : null]. *)
Definition oldTagNameOf (repo : Repository) : option string :=
  match currentVersion repo with
  | Some v => if Js.truthy v && negb (String.eqb v NO_RELEASES) then Some v else None
  | None => None
  end.

(** [repo.bumpType!] as the function reads it: whatever is not ['major']
    takes the other branch. *)
Definition bumpOf (repo : Repository) : BumpType :=
  match bumpType repo with
  | Some Major => Major
  | _ => Minor
  end.

Definition newVersionOf (repo : Repository) : string :=
  calculateNewVersion outsideText (currentVersion repo) (bumpOf repo).

(** The body of the outer [try]. *)
Definition release (repo : Repository) : M unit :=
  let newVersion := newVersionOf repo in
  let branchName := ("refs/heads/release/" ++ newVersion ++ ".x")%string in
  let newTagName := newVersion in
  let oldTagName := oldTagNameOf repo in
  mainCommitId <- svc (getMainBranchCommit remote (repo_id repo)) ;;
  svc (createBranch remote (repo_id repo) branchName "refs/heads/main") ;;;
  svc (createTag remote (repo_id repo) newTagName mainCommitId
         ("Release " ++ newVersion)%string) ;;;
  newWorkItems ;;;
  match oldTagName with
  | Some oldTagName =>
      tryCatch (
        commits <- svc (getCommitsBetweenTags remote (repo_id repo) oldTagName newTagName) ;;
        workItemIds <- svc (collectWorkItemIds (repo_id repo) commits []) ;;
        fetchWorkItems workItemIds)
        (fun _ => ret tt)
  | None => ret tt
  end ;;;
  items <- readWorkItems ;;
  addProcessingResult
    (mkResult (repo_name repo) true (Some newVersion) None (Some items)).

(** [error instanceof Error ? error.message : 'Unknown error']. *)
Definition messageOf (e : Thrown) : string :=
  match e with
  | JsError m => m
  | NonError _ => "Unknown error"
  end.

Definition processRepo (repo : Repository) : M unit :=
  tryCatch (release repo)
    (fun e => addProcessingResult
                (mkResult (repo_name repo) false None (Some (messageOf e)) None)).

Definition selectedRepos (repositories : list Repository) : list Repository :=
  filter selected repositories.

Definition processReleases (repositories : list Repository) : M unit :=
  resetProcessing ;;;
  setIsProcessing true ;;;
  newAllWorkItems ;;;
  forEach (selectedRepos repositories) processRepo ;;;
  items <- readAllWorkItems ;;
  setConsolidatedWorkItems (uniqueWorkItems items) ;;;
  setIsProcessing false.

End Component.

(* ------------------------------------------------------------------ *)
(** ** The branch-based revision of [processReleases]

    [src/components/ExportBar/ExportBar.tsx] also exists in a revision that
    compares release branches instead of tags: the tag is created on the
    commit of the new branch as [getRepositoryRefs] lists it, the commits
    come from [getCommitsBetweenBranches], and only the work items linked to
    a commit are collected.  The store, the loop that fetches the work items
    and the consolidation are the same. *)

Module BranchBased.

Section Component.

Context {W : Type}.
Variable remote : Remote W.
Variable outsideText : string -> BumpType -> string.

Fixpoint collectWorkItemIds (repositoryId : string) (commits : list GitCommit)
    (workItemIds : list string) : Svc (list string) :=
  match commits with
  | [] => ret workItemIds
  | commit :: rest =>
      ids <- getCommitWorkItems remote repositoryId (commitId commit) ;;
      collectWorkItemIds repositoryId rest (JsSet.addAll workItemIds ids)
  end.

(** The body of the outer [try]; nothing is recorded when the new branch is
    not among the refs listed. *)
Definition release (repo : Repository) : M unit :=
  let newVersion := newVersionOf outsideText repo in
  let branchName := ("refs/heads/release/" ++ newVersion ++ ".x")%string in
  svc (createBranch remote (repo_id repo) branchName "refs/heads/main") ;;;
  refs <- svc (getRepositoryRefs remote (repo_id repo)) ;;
  match find (fun r => String.eqb (ref_name r) branchName) refs with
  | Some newBranchRef =>
      svc (createTag remote (repo_id repo) ("v" ++ newVersion)%string
             (ref_objectId newBranchRef) ("Release " ++ newVersion)%string) ;;;
      newWorkItems ;;;
      match oldTagNameOf repo with
      | Some current =>
          let oldBranchName := ("refs/heads/release/" ++ current ++ ".x")%string in
          tryCatch (
            commits <- svc (getCommitsBetweenBranches remote (repo_id repo)
                              oldBranchName branchName) ;;
            workItemIds <- svc (collectWorkItemIds (repo_id repo) commits []) ;;
            fetchWorkItems remote workItemIds)
            (fun _ => ret tt)
      | None => ret tt
      end ;;;
      items <- readWorkItems ;;
      addProcessingResult
        (mkResult (repo_name repo) true (Some newVersion) None (Some items))
  | None => ret tt
  end.

Definition processRepo (repo : Repository) : M unit :=
  tryCatch (release repo)
    (fun e => addProcessingResult
                (mkResult (repo_name repo) false None (Some (messageOf e)) None)).

Definition processReleases (repositories : list Repository) : M unit :=
  resetProcessing ;;;
  setIsProcessing true ;;;
  newAllWorkItems ;;;
  forEach (selectedRepos repositories) processRepo ;;;
  items <- readAllWorkItems ;;
  setConsolidatedWorkItems (uniqueWorkItems items) ;;;
  setIsProcessing false.

End Component.

End BranchBased.

(* ------------------------------------------------------------------ *)
(** ** Versions as pairs, and their order *)

(** The pair of components of a version string, when both are exact. *)
Definition versionOf (v : string) : option (N * N) :=
  match map Number (Js.split "." v) with
  | Exact major :: Exact minor :: _ => Some (major, minor)
  | _ => None
  end.

(** Lexicographic on major then minor, compared numerically. *)
Definition versionLe (a b : N * N) : Prop :=
  (fst a < fst b)%N \/ (fst a = fst b /\ (snd a <= snd b)%N).

(** Every component of the version is in the range where doubles are exact. *)
Definition safeVersion (v : string) : Prop :=
  forall part n,
    In part (Js.split "." v) -> digitsValue part = Some n ->
    (n <= MAX_SAFE_INTEGER)%N.

(** The text of a real version [(major, minor)]. *)
Definition versionText (major minor : N) : string :=
  (decimal major ++ "." ++ decimal minor)%string.

(* ------------------------------------------------------------------ *)
(** ** Reading a run

    Functions and predicates in which the properties are stated: they
    describe runs of the code above and are related to it by the lemmas of
    the second part. *)

(** The identifiers [getWorkItem] was invoked with, in order. *)
Definition fetchedIds (cs : list Call) : list string :=
  filterMap (fun c => match c with CGetWorkItem id => Some id | _ => None end) cs.

(** The pull requests [getPullRequestWorkItems] was invoked with. *)
Definition pullRequestsAsked (cs : list Call) : list string :=
  filterMap (fun c => match c with
                      | CGetPullRequestWorkItems _ pr => Some pr
                      | _ => None
                      end) cs.

(** What "first seen wins" asks of the consolidated list [kept] of the work
    items [all]: the first record of every identifier is kept. *)
Definition keepsFirstSeen (all kept : list WorkItem) : Prop :=
  forall pre w post,
    all = pre ++ w :: post -> ~ In (wi_id w) (map wi_id pre) -> In w kept.

(** What the [Map] does instead: the last record of every identifier is
    kept, and no other. *)
Definition keepsLastSeen (all kept : list WorkItem) : Prop :=
  forall w,
    In w kept <->
    exists pre post, all = pre ++ w :: post /\ ~ In (wi_id w) (map wi_id post).

(** The store after [addProcessingResult(r)]. *)
Definition withResult (st : AppStore) (r : ReleaseProcessingResult) : AppStore :=
  mkStore (isProcessing st) (processingResults st ++ [r]) (consolidatedWorkItems st).

(** The work items a recorded result contributes to the batch. *)
Definition itemsOf (r : ReleaseProcessingResult) : list WorkItem :=
  match res_workItems r with
  | Some items => items
  | None => []
  end.

Section Runs.

Context {W : Type}.
Variable remote : Remote W.
Variable outsideText : string -> BumpType -> string.

(** The work items that the loop over [workItemIds] collects, and the state
    in which it leaves the service: an identifier whose fetch throws adds
    nothing. *)
Fixpoint fetchRun (workItemIds : list string) (n : Net W) : list WorkItem * Net W :=
  match workItemIds with
  | [] => ([], n)
  | id :: rest =>
      match getWorkItem remote id n with
      | (inr workItem, n1) =>
          let (items, n2) := fetchRun rest n1 in (workItem :: items, n2)
      | (inl _, n1) => fetchRun rest n1
      end
  end.

(** The three stages that create the release: the commit of [main], the
    branch, the tag. *)
Definition creation (repo : Repository) : Svc unit :=
  let newVersion := newVersionOf outsideText repo in
  mainCommitId <- getMainBranchCommit remote (repo_id repo) ;;
  createBranch remote (repo_id repo)
    ("refs/heads/release/" ++ newVersion ++ ".x")%string "refs/heads/main" ;;;
  createTag remote (repo_id repo) newVersion mainCommitId
    ("Release " ++ newVersion)%string.

(** The branch or the tag cannot be created, with an [Error] of message
    [msg]; the stages before the one that fails have succeeded. *)
Definition creationFails (repo : Repository) (n : Net W) (msg : string) : Prop :=
  let newVersion := newVersionOf outsideText repo in
  let branchName := ("refs/heads/release/" ++ newVersion ++ ".x")%string in
  exists mainCommitId n1,
    getMainBranchCommit remote (repo_id repo) n = (inr mainCommitId, n1)
    /\ ((exists n2,
            createBranch remote (repo_id repo) branchName "refs/heads/main" n1
            = (inl (JsError msg), n2))
        \/ (exists b n2 n3,
              createBranch remote (repo_id repo) branchName "refs/heads/main" n1
              = (inr b, n2)
              /\ createTag remote (repo_id repo) newVersion mainCommitId
                   ("Release " ++ newVersion)%string n2
                 = (inl (JsError msg), n3))).

(** The three stages succeed. *)
Definition creationSucceeds (repo : Repository) (n : Net W) : Prop :=
  exists n', creation repo n = (inr tt, n').

(** The stages after the tag, for a repository with an old tag: the work
    items recorded and the state of the service. *)
Definition harvest (repositoryId oldTagName newTagName : string) (n : Net W)
  : list WorkItem * Net W :=
  match getCommitsBetweenTags remote repositoryId oldTagName newTagName n with
  | (inl _, n1) => ([], n1)
  | (inr commits, n1) =>
      match collectWorkItemIds remote repositoryId commits [] n1 with
      | (inr workItemIds, n2) => fetchRun workItemIds n2
      | (inl _, n2) => ([], n2)
      end
  end.

Definition harvested (repo : Repository) (n : Net W) : list WorkItem * Net W :=
  match oldTagNameOf repo with
  | Some oldTagName =>
      harvest (repo_id repo) oldTagName (newVersionOf outsideText repo) n
  | None => ([], n)
  end.

(** The result recorded for one repository and the state of the service
    after it. *)
Definition outcome (repo : Repository) (n : Net W)
  : ReleaseProcessingResult * Net W :=
  match creation repo n with
  | (inl e, n1) =>
      (mkResult (repo_name repo) false None (Some (messageOf e)) None, n1)
  | (inr _, n1) =>
      let (items, n2) := harvested repo n1 in
      (mkResult (repo_name repo) true (Some (newVersionOf outsideText repo)) None
         (Some items), n2)
  end.

Fixpoint outcomes (repos : list Repository) (n : Net W)
  : list ReleaseProcessingResult * Net W :=
  match repos with
  | [] => ([], n)
  | repo :: rest =>
      let (r, n1) := outcome repo n in
      let (rs, n2) := outcomes rest n1 in
      (r :: rs, n2)
  end.

(** The state in which the loop over the repositories starts. *)
Definition started (s : Sys W) : Sys W :=
  mkSys (net s) (mkStore true [] []) [] (workItems s).

End Runs.

(** Every call a computation adds to the record of calls satisfies [P], and
    it removes none. *)
Definition emits {S A} (log : S -> list Call) (P : Call -> Prop) (c : Eff S A) : Prop :=
  forall s r s', c s = (r, s') ->
    exists delta, log s' = log s ++ delta /\ Forall P delta.

Definition sysCalls {W} (s : Sys W) : list Call := calls (net s).

(** The calls [processReleases] can make. *)
Definition releaseCall (c : Call) : Prop :=
  match c with
  | CGetRepositoryRefs _ | CGetCommitsBetweenBranches _ _ _
  | CGetPullRequestWorkItems _ _ => False
  | _ => True
  end.

(** The calls that do not fetch a work item. *)
Definition notFetch (c : Call) : Prop :=
  match c with
  | CGetWorkItem _ => False
  | _ => True
  end.

(** The repository a call is about; a work item belongs to none. *)
Definition callRepository (c : Call) : option string :=
  match c with
  | CGetRepositoryRefs r | CGetRepositoryTags r | CGetMainBranchCommit r
  | CCreateBranch r _ _ | CCreateTag r _ _ _ | CGetTagObject r _
  | CGetCommitsBetweenBranches r _ _ | CGetCommitsBetweenTags r _ _
  | CGetCommitWorkItems r _ | CGetPullRequestWorkItems r _ => Some r
  | CGetWorkItem _ => None
  end.

(** The calls that create neither a branch nor a tag. *)
Definition notCreate (c : Call) : Prop :=
  match c with
  | CCreateBranch _ _ _ | CCreateTag _ _ _ _ => False
  | _ => True
  end.

(** Distinct requests for a work item are never answered with records of the
    same identifier. *)
Definition answersDistinct {W} (remote : Remote W) : Prop :=
  forall id1 id2 w1 w2 item1 item2 w1' w2',
    httpGetWorkItem remote id1 w1 = (inr item1, w1') ->
    httpGetWorkItem remote id2 w2 = (inr item2, w2') ->
    wi_id item1 = wi_id item2 -> id1 = id2.

(* ------------------------------------------------------------------ *)
(** ** Concrete remote systems and batches, used by the examples below *)

(** A request that is refused. *)
Definition refused {W A} (message : string) : Eff W A := throw (JsError message).

(** A repository with three release branches and a branch that is not one. *)
Definition branchRefs : list GitRef :=
  [ mkGitRef "refs/heads/release/1.2.x" "b12";
    mkGitRef "refs/heads/release/1.10.x" "b110";
    mkGitRef "refs/heads/release/next" "bn";
    mkGitRef "refs/heads/release/0.9.x" "b09" ].

Definition branchesRemote : Remote unit :=
  mkRemote unit
    (fun _ _ => ret branchRefs)
    (fun _ _ _ => refused "403")
    (fun _ _ _ _ => refused "403")
    (fun _ _ => refused "404")
    (fun _ _ => refused "404")
    (fun _ _ _ => refused "404")
    (fun _ _ => refused "404")
    (fun _ _ => refused "404")
    (fun _ => refused "404").

(** A remote system for the examples: the branch [main] stands at the commit
    [c9], tags are lightweight, branches can always be created, and the state
    counts the requests for work items that were received. *)
Record Scenario : Type := mkScenario {
  sc_tags : list GitRef;
  sc_history : list GitCommit;
  (* the repositories in which the tag cannot be created *)
  sc_tagRefused : string -> bool;
  (* the work items linked to a pull request *)
  sc_prLinks : string -> list string;
  (* the answer to a request for a work item, after [n] earlier requests *)
  sc_workItem : string -> nat -> Result WorkItem
}.

Definition scenarioRemote (sc : Scenario) : Remote nat :=
  mkRemote nat
    (fun _ filter =>
       if String.eqb filter "heads/main" then ret [mkGitRef "refs/heads/main" "c9"]
       else if String.eqb filter "tags" then ret (sc_tags sc)
       else ret [])
    (fun _ name commit => ret [mkGitRef name commit])
    (fun repositoryId _ _ _ =>
       if sc_tagRefused sc repositoryId then refused "TF401173: tag already exists"
       else ret tt)
    (fun _ _ => refused "404")
    (fun _ _ => ret (sc_history sc))
    (fun _ _ _ => ret [])
    (fun _ _ => ret [])
    (fun _ pr => ret (sc_prLinks sc pr))
    (fun id sent => (sc_workItem sc id sent, S sent)).

Definition noOutsideText : string -> BumpType -> string := fun _ _ => "NaN.NaN".

Definition tags_1_0_1_1 : list GitRef :=
  [mkGitRef "refs/tags/1.0" "c2"; mkGitRef "refs/tags/1.1" "c9"].

Definition repoAt (name version : string) : Repository :=
  mkRepository name name (Some version) true (Some Minor).

Definition freshSys : Sys nat := mkSys (mkNet 0%nat []) (mkStore false [] []) [] [].

Definition snapshot100 (title : string) : WorkItem :=
  mkWorkItem 100 "Bug" title "https://dev.azure.com/_workitems/100".

(** Two repositories whose histories both mention work item 100, which is
    edited between the two fetches. *)
Definition editedScenario : Scenario :=
  mkScenario tags_1_0_1_1
    [mkGitCommit "c9" "Fix crash #100" None; mkGitCommit "c2" "Release 1.0" None]
    (fun _ => false) (fun _ => [])
    (fun _ sent => inr (snapshot100 (if (sent =? 0)%nat then "Crash" else "Crash (reopened)"))).

Definition twoRepos : list Repository := [repoAt "A" "1.0"; repoAt "B" "1.0"].

Definition item (id : N) : WorkItem := mkWorkItem id "Task" "t" "u".

(** Three repositories, the tag of the second cannot be created. *)
Definition refusedScenario : Scenario :=
  mkScenario tags_1_0_1_1
    [mkGitCommit "c9" "Work on #7" None; mkGitCommit "c2" "Release 1.0" None]
    (fun repositoryId => String.eqb repositoryId "B") (fun _ => [])
    (fun _ _ => inr (item 7)).

Definition threeRepos : list Repository :=
  [repoAt "A" "1.0"; repoAt "B" "1.0"; repoAt "C" "1.0"].

(** Three identifiers to fetch, the second of which the remote system does
    not know. *)
Definition missingScenario : Scenario :=
  mkScenario [] [] (fun _ => false) (fun _ => [])
    (fun id _ =>
       if String.eqb id "2" then inl (JsError "API Error: 404 - not found")
       else match digitsValue id with
            | Some n => inr (item n)
            | None => inl (JsError "API Error: 400 - bad identifier")
            end).

(** A remote system that looks a work item up by the number its identifier
    denotes: [0100] and [100] are the same work item. *)
Definition byNumber (id : string) : Result WorkItem :=
  match digitsValue id with
  | Some n => inr (item n)
  | None => inl (JsError "API Error: 400 - bad identifier")
  end.

Definition leadingZeroScenario : Scenario :=
  mkScenario tags_1_0_1_1
    [mkGitCommit "c9" "Fix #100, see also #0100 and #7" None;
     mkGitCommit "c2" "Release 1.0" None]
    (fun _ => false) (fun _ => []) (fun id _ => byNumber id).

(** A remote system that knows a work item under the decimal text of its
    number only. *)
Definition byDecimalText (id : string) : Result WorkItem :=
  match digitsValue id with
  | Some n => if String.eqb (decimal n) id then inr (item n)
              else inl (JsError "API Error: 404 - not found")
  | None => inl (JsError "API Error: 400 - bad identifier")
  end.

Definition strictScenario : Scenario :=
  mkScenario tags_1_0_1_1
    [mkGitCommit "c9" "Fix #100, see also #0100 and #7" None;
     mkGitCommit "c2" "Release 1.0" None]
    (fun _ => false) (fun _ => []) (fun id _ => byDecimalText id).

(** The example of the specification: the merge commit of pull request 42,
    which mentions 100 and 200, is linked to 300; the pull request is linked
    to 400. *)
Definition mergedPrScenario : Scenario :=
  mkScenario tags_1_0_1_1
    [mkGitCommit "c9" "Merged PR 42: fixes AB#100 and #200"
       (Some [mkWorkItemReference "300" "https://dev.azure.com/_workitems/300"]);
     mkGitCommit "c2" "Release 1.0" None]
    (fun _ => false)
    (fun pr => if String.eqb pr "42" then ["400"] else [])
    (fun id _ => byNumber id).

(** A repository whose version could not be loaded, one that was never
    released. *)
Definition errorLoadingRepo : Repository :=
  mkRepository "A" "A" (Some ERROR_LOADING) true (Some Major).

Definition noReleasesRepo : Repository :=
  mkRepository "A" "A" (Some NO_RELEASES) true (Some Major).

(** A remote system on which release branches are created and listed:
    [heads/release] answers with the branch of version 1.1. *)
Definition listingRemote (listed : bool) : Remote nat :=
  mkRemote nat
    (fun _ filter =>
       if String.eqb filter "heads/main" then ret [mkGitRef "refs/heads/main" "c9"]
       else if String.eqb filter "heads/release" && listed
            then ret [mkGitRef "refs/heads/release/1.1.x" "c9"]
       else ret [])
    (fun _ name commit => ret [mkGitRef name commit])
    (fun _ _ _ _ => ret tt)
    (fun _ _ => refused "404")
    (fun _ _ => ret [])
    (fun _ _ _ => ret [mkGitCommit "c9" "Work" None])
    (fun _ _ => ret ["7"])
    (fun _ _ => ret [])
    (fun id sent => (byNumber id, S sent)).

(** The identifiers one commit names by itself, in the order in which the
    loop adds them: its links, the number of a merged pull request, the
    references of its message. *)
Definition mentionedIds (commit : GitCommit) : list string :=
  match commit_workItems commit with
  | Some links => map wir_id links
  | None => []
  end
  ++ match mergedPrMatch (comment commit) with
     | Some pr => [pr]
     | None => []
     end
  ++ workItemRefs (comment commit).


(** A remote system of repositories that have no ref at all; the state
    counts the requests received. *)
Definition bareRemote : Remote nat :=
  mkRemote nat
    (fun _ _ sent => (inr [], S sent))
    (fun _ _ _ sent => (inl (JsError "API Error: 400 - Bad Request"), S sent))
    (fun _ _ _ _ sent => (inl (JsError "API Error: 400 - Bad Request"), S sent))
    (fun _ _ sent => (inl (JsError "API Error: 404 - Not Found"), S sent))
    (fun _ _ sent => (inl (JsError "API Error: 404 - Not Found"), S sent))
    (fun _ _ _ sent => (inl (JsError "API Error: 404 - Not Found"), S sent))
    (fun _ _ sent => (inl (JsError "API Error: 404 - Not Found"), S sent))
    (fun _ _ sent => (inl (JsError "API Error: 404 - Not Found"), S sent))
    (fun _ sent => (inl (JsError "API Error: 404 - Not Found"), S sent)).

(** A remote system that cannot be reached; the state counts the requests
    that were tried. *)
Definition offlineRemote : Remote nat :=
  mkRemote nat
    (fun _ _ sent => (inl (JsError "Failed to fetch"), S sent))
    (fun _ _ _ sent => (inl (JsError "Failed to fetch"), S sent))
    (fun _ _ _ _ sent => (inl (JsError "Failed to fetch"), S sent))
    (fun _ _ sent => (inl (JsError "Failed to fetch"), S sent))
    (fun _ _ sent => (inl (JsError "Failed to fetch"), S sent))
    (fun _ _ _ sent => (inl (JsError "Failed to fetch"), S sent))
    (fun _ _ sent => (inl (JsError "Failed to fetch"), S sent))
    (fun _ _ sent => (inl (JsError "Failed to fetch"), S sent))
    (fun _ sent => (inl (JsError "Failed to fetch"), S sent)).

(** A request that fails [failures] times before it answers; the state counts
    the attempts. *)
Definition flaky (failures : nat) : Eff nat nat :=
  fun sent =>
    (if (sent <? failures)%nat then inl (JsError "API Error: 503 - Service Unavailable")
     else inr sent,
     S sent).

(* ------------------------------------------------------------------ *)
(** ** [updateWorkItem] and [handleExport]

    [handleExport] of the component stamps the consolidated work items with
    the integration build and hands the release notes to [exportToCSV].  The
    file itself is built by a library and downloaded by the browser; what is
    kept of it here is the call, with its two arguments. *)

Record ReleaseNote : Type := mkReleaseNote {
  rn_type : string;
  rn_id : N;
  rn_title : string;
  rn_url : string
}.

(** What [handleExport] asks for, in order. *)
Inductive ExportEvent : Type :=
| EUpdateWorkItem (workItemId : N) (build : string)
| EExportToCSV (releaseNotes : list ReleaseNote) (version : string).

Record Desk (W : Type) : Type := mkDesk {
  desk_world : W;
  desk_events : list ExportEvent
}.
Arguments mkDesk {W}.
Arguments desk_world {W}.
Arguments desk_events {W}.

Definition MAIN_REPOSITORY : string := "CareConnect.Pharmacy".

(** [a || b] where [a] is a string or [undefined]. *)
Definition orText (a : option string) (b : string) : string :=
  match a with
  | Some v => if Js.truthy v then v else b
  | None => b
  end.

(** [mainRepo?.currentVersion || '1.0']. *)
Definition mainVersion (repositories : list Repository) : string :=
  orText
    match find (fun r => String.eqb (repo_name r) MAIN_REPOSITORY) repositories with
    | Some mainRepo => currentVersion mainRepo
    | None => None
    end
    "1.0".

(** [mainRepoResult?.newVersion || mainVersion]. *)
Definition integrationBuild (repositories : list Repository)
    (results : list ReleaseProcessingResult) : string :=
  orText
    match find (fun r => String.eqb (repository r) MAIN_REPOSITORY) results with
    | Some mainRepoResult => newVersion mainRepoResult
    | None => None
    end
    (mainVersion repositories).

Definition releaseNoteOf (item : WorkItem) : ReleaseNote :=
  mkReleaseNote (wi_type item) (wi_id item) (wi_title item) (wi_url item).

Section Exporting.

Context {W : Type}.

(** PATCH .../wit/workitems/{id} with the operation that adds
    [/fields/Custom.IntegrationBuild]. *)
Variable httpPatchWorkItem : N -> string -> Eff W unit.

Definition deskRequest {A} (op : Eff W A) : Eff (Desk W) A :=
  fun d => let (r, w) := op (desk_world d) in (r, mkDesk w (desk_events d)).

Definition recorded (e : ExportEvent) : Eff (Desk W) unit :=
  fun d => (inr tt, mkDesk (desk_world d) (desk_events d ++ [e])).

Definition updateWorkItem (workItemId : N) (build : string) : Eff (Desk W) unit :=
  recorded (EUpdateWorkItem workItemId build) ;;;
  retryAsync (deskRequest (httpPatchWorkItem workItemId build)).

Definition exportToCSV (releaseNotes : list ReleaseNote) (version : string)
  : Eff (Desk W) unit :=
  recorded (EExportToCSV releaseNotes version).

(** [handleExport] over the repositories and the store the component was
    rendered with. *)
Definition handleExport (repositories : list Repository) (st : AppStore)
  : Eff (Desk W) unit :=
  match consolidatedWorkItems st with
  | [] => ret tt
  | _ :: _ =>
      let releaseNotes := map releaseNoteOf (consolidatedWorkItems st) in
      let build := integrationBuild repositories (processingResults st) in
      forEach (consolidatedWorkItems st) (fun item =>
        tryCatch (updateWorkItem (wi_id item) build) (fun _ => ret tt)) ;;;
      exportToCSV releaseNotes build
  end.

End Exporting.

(* ------------------------------------------------------------------ *)
(** ** [loadRepositoryVersions] of the repository selector *)

Definition DEFAULT_REPOSITORY : string := "TestPipelines".

(** What the function leaves in the component: the repositories handed to
    [setRepositories], or the message handed to [setError]. *)
Inductive Loading : Type :=
| Loaded (repos : list Repository)
| LoadError (message : string).

Section Selector.

Context {W : Type}.
Variable remote : Remote W.
Variable outsideCompare : string -> string -> Z.

(** The loop [for (const repoName of repoList)] over the array [repos]. *)
Fixpoint loadVersions (repoList : list string) (repos : list Repository)
  : Svc (list Repository) :=
  match repoList with
  | [] => ret repos
  | repoName :: rest =>
      repos' <- tryCatch (
                  version <- getLatestReleaseVersion remote outsideCompare repoName ;;
                  ret (repos ++ [mkRepository repoName repoName
                                   (Some (orText version NO_RELEASES)) false None]))
                  (fun _ =>
                     ret (repos ++ [mkRepository repoName repoName
                                      (Some ERROR_LOADING) false None])) ;;
      loadVersions rest repos'
  end.

Definition loadRepositoryVersions (selectedRepositoryNames : list string)
  : Svc Loading :=
  tryCatch (
    let repoList :=
      match selectedRepositoryNames with
      | [] => [DEFAULT_REPOSITORY]
      | _ :: _ => selectedRepositoryNames
      end in
    repos <- loadVersions repoList [] ;;
    ret (Loaded repos))
    (fun err =>
       ret (LoadError match err with
                      | JsError message => message
                      | NonError _ => "Failed to load repositories"
                      end)).

End Selector.

(** What holds of a repository as the loop pushes it. *)
Definition asLoaded (r : Repository) : Prop :=
  repo_id r = repo_name r /\ selected r = false /\ bumpType r = None
  /\ currentVersion r <> Some ERROR_LOADING
  /\ (currentVersion r = Some NO_RELEASES
      \/ exists major minor,
           currentVersion r = Some (major ++ String "." minor)%string
           /\ Js.everyDigit major = true /\ Js.everyDigit minor = true).

(* ------------------------------------------------------------------ *)
(** ** [updateRepository] of the store and the handlers of the selector *)

(** A [Partial<Repository>]: the fields that are given. *)
Record RepositoryUpdates : Type := mkUpdates {
  upd_id : option string;
  upd_name : option string;
  upd_currentVersion : option (option string);
  upd_selected : option bool;
  upd_bumpType : option (option BumpType)
}.

Definition given {A} (update : option A) (old : A) : A :=
  match update with
  | Some v => v
  | None => old
  end.

(** [{ ...repo, ...updates }]. *)
Definition mergeRepository (repo : Repository) (updates : RepositoryUpdates) : Repository :=
  mkRepository
    (given (upd_id updates) (repo_id repo))
    (given (upd_name updates) (repo_name repo))
    (given (upd_currentVersion updates) (currentVersion repo))
    (given (upd_selected updates) (selected repo))
    (given (upd_bumpType updates) (bumpType repo)).

Definition updateRepository (name : string) (updates : RepositoryUpdates)
    (repositories : list Repository) : list Repository :=
  map (fun repo =>
         if String.eqb (repo_name repo) name then mergeRepository repo updates else repo)
      repositories.

(** [{ selected }] and [{ bumpType }]. *)
Definition selectedUpdate (value : bool) : RepositoryUpdates :=
  mkUpdates None None None (Some value) None.

Definition bumpTypeUpdate (bump : BumpType) : RepositoryUpdates :=
  mkUpdates None None None None (Some (Some bump)).

(** The repository [r] with the field [selected], or [bumpType], replaced. *)
Definition withSelected (value : bool) (r : Repository) : Repository :=
  mkRepository (repo_id r) (repo_name r) (currentVersion r) value (bumpType r).

Definition withBumpType (bump : BumpType) (r : Repository) : Repository :=
  mkRepository (repo_id r) (repo_name r) (currentVersion r) (selected r) (Some bump).

(** Some repository of [others] has the name of [r]. *)
Definition namedAmong (others : list Repository) (r : Repository) : bool :=
  existsb (fun x => String.eqb (repo_name r) (repo_name x)) others.

(** [canProcess] of the export bar. *)
Definition canProcess (repositories : list Repository) : bool :=
  negb (Nat.eqb (List.length (selectedRepos repositories)) 0)
  && forallb (fun r => match bumpType r with Some _ => true | None => false end)
       (selectedRepos repositories).

(** The handlers run over the repositories of the store, which are those the
    component was rendered with, and over the flag [selectAll] of the
    component; a handler that loops over the rendered repositories updates
    the store once for each of them. *)
Definition handleSelectAll (selectAll : bool) (repositories : list Repository)
  : bool * list Repository :=
  let newSelectAll := negb selectAll in
  (newSelectAll,
   fold_left (fun stored repo =>
                updateRepository (repo_name repo) (selectedUpdate newSelectAll) stored)
     repositories repositories).

Definition handleRepoToggle (repoName : string) (selectAll : bool)
    (repositories : list Repository) : bool * list Repository :=
  match find (fun r => String.eqb (repo_name r) repoName) repositories with
  | Some repo =>
      (forallb (fun r => if String.eqb (repo_name r) repoName
                         then negb (selected repo) else selected r) repositories,
       updateRepository repoName (selectedUpdate (negb (selected repo))) repositories)
  | None => (selectAll, repositories)
  end.

Definition handleBumpTypeChange (repoName : string) (bump : BumpType)
    (repositories : list Repository) : list Repository :=
  updateRepository repoName (bumpTypeUpdate bump) repositories.

(** [handleBulkMajor] and [handleBulkMinor]. *)
Definition handleBulk (bump : BumpType) (repositories : list Repository)
  : list Repository :=
  fold_left (fun stored repo =>
               updateRepository (repo_name repo) (bumpTypeUpdate bump) stored)
    (selectedRepos repositories) repositories.

Definition handleBulkMajor : list Repository -> list Repository := handleBulk Major.

Definition handleBulkMinor : list Repository -> list Repository := handleBulk Minor.

(** A batch in which the tag of [CareConnect.Pharmacy], at version 2.4,
    cannot be created. *)
Definition pharmacyRepos : list Repository :=
  [repoAt "A" "1.0";
   mkRepository "B" "CareConnect.Pharmacy" (Some "2.4") true (Some Major)].

(* ------------------------------------------------------------------ *)
(** ** [stripHtmlTags] *)

(** A [>] occurs in [s]. *)
Fixpoint hasGt (s : string) : bool :=
  match s with
  | EmptyString => false
  | String c s' => Ascii.eqb c ">" || hasGt s'
  end.

(** [s.replace(/<[^>]*>/g, '')].  A [<] opens a match when a [>] follows it
    somewhere, and the match ends with the first [>] that follows; [inside]
    says that the scan is within a match. *)
Fixpoint removeTagsFrom (inside : bool) (s : string) : string :=
  match s with
  | EmptyString => EmptyString
  | String c s' =>
      if inside then
        if Ascii.eqb c ">" then removeTagsFrom false s' else removeTagsFrom true s'
      else if Ascii.eqb c "<" && hasGt s' then removeTagsFrom true s'
      else String c (removeTagsFrom false s')
  end.

Definition removeTags (s : string) : string := removeTagsFrom false s.

(** The loop [while (result !== previousResult)], with the number of tests
    of its condition that remain; [None] when they are used up. *)
Fixpoint stripLoop (fuel : nat) (result previousResult : string) : option string :=
  match fuel with
  | O => None
  | S k =>
      if String.eqb result previousResult then Some result
      else stripLoop k (removeTags result) result
  end.

(** [s.replace(/pat/g, by)] for a pattern that is a literal and not empty;
    [skip] counts the characters that remain of the match found last. *)
Fixpoint replaceAllFrom (skip : nat) (pat by_ s : string) : string :=
  match s with
  | EmptyString => EmptyString
  | String c s' =>
      match skip with
      | S k => replaceAllFrom k pat by_ s'
      | O =>
          if Js.startsWith false pat s
          then (by_ ++ replaceAllFrom (String.length pat - 1) pat by_ s')%string
          else String c (replaceAllFrom 0 pat by_ s')
      end
  end.

Definition replaceAll (pat by_ s : string) : string := replaceAllFrom 0 pat by_ s.

Definition doubleQuote : string := String (ascii_of_nat 34) EmptyString.

(** The six replacements of entities, [&amp;] last. *)
Definition decodeEntities (s : string) : string :=
  replaceAll "&amp;" "&"
    (replaceAll "&#39;" "'"
       (replaceAll "&quot;" doubleQuote
          (replaceAll "&gt;" ">"
             (replaceAll "&lt;" "<"
                (replaceAll "&nbsp;" " " s))))).

(** The white space and the line terminators of JavaScript, in the bytes of
    UTF-8: U+0009 to U+000D and U+0020 on one byte, U+00A0 on two, U+1680,
    U+2000 to U+200A, U+2028, U+2029, U+202F, U+205F, U+3000 and U+FEFF on
    three. *)
Definition isSpace1 (c : ascii) : bool :=
  let n := nat_of_ascii c in
  ((9 <=? n)%nat && (n <=? 13)%nat) || (n =? 32)%nat.

Definition isSpace2 (c1 c2 : ascii) : bool :=
  (nat_of_ascii c1 =? 194)%nat && (nat_of_ascii c2 =? 160)%nat.

Definition isSpace3 (c1 c2 c3 : ascii) : bool :=
  let n1 := nat_of_ascii c1 in
  let n2 := nat_of_ascii c2 in
  let n3 := nat_of_ascii c3 in
  ((n1 =? 225) && (n2 =? 154) && (n3 =? 128))%nat
  || ((n1 =? 226) && (n2 =? 128)
      && (((128 <=? n3) && (n3 <=? 138)) || (n3 =? 168) || (n3 =? 169) || (n3 =? 175)))%nat
  || ((n1 =? 226) && (n2 =? 129) && (n3 =? 159))%nat
  || ((n1 =? 227) && (n2 =? 128) && (n3 =? 128))%nat
  || ((n1 =? 239) && (n2 =? 187) && (n3 =? 191))%nat.

(** [s.trimStart()]. *)
Fixpoint trimStart (s : string) : string :=
  match s with
  | EmptyString => s
  | String c1 r1 =>
      if isSpace1 c1 then trimStart r1
      else match r1 with
           | EmptyString => s
           | String c2 r2 =>
               if isSpace2 c1 c2 then trimStart r2
               else match r2 with
                    | EmptyString => s
                    | String c3 r3 => if isSpace3 c1 c2 c3 then trimStart r3 else s
                    end
           end
  end.

(** [s.trimEnd()]: [s] up to the first position from which all is white. *)
Fixpoint trimEnd (s : string) : string :=
  match s with
  | EmptyString => s
  | String c s' =>
      match trimStart s with
      | EmptyString => EmptyString
      | _ => String c (trimEnd s')
      end
  end.

Definition trim (s : string) : string := trimEnd (trimStart s).

(** The loop is given two tests of its condition more than [html] has
    characters. *)
Definition stripHtmlTags (html : string) : option string :=
  if negb (Js.truthy html) then Some EmptyString
  else
    match stripLoop (String.length html + 2) html EmptyString with
    | Some result => Some (trim (decodeEntities result))
    | None => None
    end.

(** No [<] of [s] is followed by a [>]: the pattern matches nowhere. *)
Fixpoint tagFree (s : string) : bool :=
  match s with
  | EmptyString => true
  | String c s' => negb (Ascii.eqb c "<" && hasGt s') && tagFree s'
  end.

(** None of [<], [>] and [&] occurs in [s]. *)
Fixpoint plainText (s : string) : bool :=
  match s with
  | EmptyString => true
  | String c s' =>
      negb (Ascii.eqb c "<" || Ascii.eqb c ">" || Ascii.eqb c "&") && plainText s'
  end.

(* ------------------------------------------------------------------ *)
(** ** The CSV of work items: [src/utils/csvParser.ts]

    The functions are those of the revision that reads the columns
    [Prefix], [Id], [Content], [Url] and [Description].  [Papa.parse] belongs
    to a library: what it answers for a text is a parameter. *)

Record PapaError : Type := mkPapaError {
  pe_row : option nat;
  pe_message : string
}.

(** A row of [result.data]: the keys of the object, in the order of
    [Object.keys], with their values. *)
Definition CsvRow : Type := list (string * string).

Record PapaResult : Type := mkPapaResult {
  pp_errors : list PapaError;
  pp_fields : option (list string);
  pp_data : list CsvRow
}.

(** [s.toLowerCase()] as far as a comparison with an ASCII text can tell:
    the ASCII letters, and the Kelvin sign U+212A, the one character
    outside ASCII whose lower case is an ASCII letter. *)
Definition lowerChar (c : ascii) : ascii :=
  let n := nat_of_ascii c in
  if (65 <=? n)%nat && (n <=? 90)%nat then ascii_of_nat (n + 32) else c.

Fixpoint toLowerCase (s : string) : string :=
  match s with
  | EmptyString => EmptyString
  | String c1 t =>
      match t with
      | String c2 (String c3 r) =>
          if ((nat_of_ascii c1 =? 226) && (nat_of_ascii c2 =? 132)
              && (nat_of_ascii c3 =? 170))%nat
          then String "k" (toLowerCase r)
          else String (lowerChar c1) (toLowerCase t)
      | _ => String (lowerChar c1) (toLowerCase t)
      end
  end.

Definition sameIgnoringCase (a b : string) : bool :=
  String.eqb (toLowerCase a) (toLowerCase b).

(** [parseInt(s, 10)]: [None] for [NaN], otherwise the sign and the value of
    the digits that follow the white space and the sign. *)
Definition parseInt10 (s : string) : option (bool * JsNumber) :=
  let t := trimStart s in
  let (negative, rest) :=
    match t with
    | String "-" r => (true, r)
    | String "+" r => (false, r)
    | _ => (false, t)
    end in
  let (digits, _) := Js.spanDigits rest in
  if Js.truthy digits then Some (negative, Number digits) else None.

Record WorkItemFromCsv : Type := mkWorkItemFromCsv {
  csv_type : string;
  csv_id : bool * JsNumber;
  csv_title : string;
  csv_url : string;
  csv_description : option string
}.

Record CsvValidationResult : Type := mkValidation {
  isValid : bool;
  val_errors : list string;
  val_warnings : list string
}.

Record CsvParseResult : Type := mkParse {
  parse_success : bool;
  parse_workItems : list WorkItemFromCsv;
  parse_errors : list string;
  parse_warnings : list string
}.

Definition REQUIRED_COLUMNS : list string := ["Prefix"; "Id"; "Content"; "Url"].

Definition VALID_WORK_ITEM_TYPES : list string :=
  ["UserStory"; "User Story"; "Bug"; "Task"; "Feature"; "Epic"; "Issue";
   "Product Backlog Item"].

Definition getFieldValue (row : CsvRow) (fieldName : string) : string :=
  match find (fun kv => sameIgnoringCase (fst kv) fieldName) row with
  | Some (key, value) => if Js.truthy key then value else EmptyString
  | None => EmptyString
  end.

(** [`Row ${e.row !== undefined ? e.row + 1 : '?'}: ${e.message}`]. *)
Definition parseErrorText (e : PapaError) : string :=
  ("Row " ++ match pe_row e with
             | Some row => decimal (N.of_nat (row + 1))
             | None => "?"
             end ++ ": " ++ pe_message e)%string.

(** What the body of [data.forEach] pushes for the row at [index]. *)
Definition rowErrors (index : nat) (row : CsvRow) : list string :=
  let rowNum := decimal (N.of_nat (index + 2)) in
  let type := getFieldValue row "Prefix" in
  let id := getFieldValue row "Id" in
  let title := getFieldValue row "Content" in
  (if Js.truthy type then [] else [("Row " ++ rowNum ++ ": Missing Prefix")%string])
  ++ (if Js.truthy id then
        match parseInt10 id with
        | None => [("Row " ++ rowNum ++ ": Invalid Id " ++ doubleQuote ++ id ++ doubleQuote
                    ++ " (must be a number)")%string]
        | Some _ => []
        end
      else [("Row " ++ rowNum ++ ": Missing Id")%string])
  ++ (if Js.truthy title then [] else [("Row " ++ rowNum ++ ": Missing Content")%string]).

Definition rowWarnings (index : nat) (row : CsvRow) : list string :=
  let rowNum := decimal (N.of_nat (index + 2)) in
  let type := getFieldValue row "Prefix" in
  if Js.truthy type
     && negb (existsb (fun t => sameIgnoringCase t type) VALID_WORK_ITEM_TYPES)
  then [("Row " ++ rowNum ++ ": Unknown work item type " ++ doubleQuote ++ type
         ++ doubleQuote)%string]
  else [].

(** The loop over the rows, from the row at [index] on. *)
Fixpoint rowsErrors (index : nat) (data : list CsvRow) : list string :=
  match data with
  | [] => []
  | row :: rest => rowErrors index row ++ rowsErrors (S index) rest
  end.

Fixpoint rowsWarnings (index : nat) (data : list CsvRow) : list string :=
  match data with
  | [] => []
  | row :: rest => rowWarnings index row ++ rowsWarnings (S index) rest
  end.

(** The body of the loop of [parseCsvToWorkItems]: the work item pushed for
    a row, if one is. *)
Definition itemOfRow (row : CsvRow) : option WorkItemFromCsv :=
  let type := getFieldValue row "Prefix" in
  let idStr := getFieldValue row "Id" in
  let title := getFieldValue row "Content" in
  let url := getFieldValue row "Url" in
  let description := getFieldValue row "Description" in
  match parseInt10 idStr with
  | Some id =>
      if Js.truthy type && Js.truthy title
      then Some (mkWorkItemFromCsv type id title url
                   (if Js.truthy description then Some description else None))
      else None
  | None => None
  end.

(** The row has a type, an identifier that reads as a number and a title. *)
Definition rowComplete (row : CsvRow) : bool :=
  Js.truthy (getFieldValue row "Prefix")
  && match parseInt10 (getFieldValue row "Id") with Some _ => true | None => false end
  && Js.truthy (getFieldValue row "Content").

(** Every required column is among the headers, whatever the case. *)
Definition columnsPresent (headers : list string) : bool :=
  forallb (fun col => existsb (fun h => sameIgnoringCase h col) headers) REQUIRED_COLUMNS.

Section Csv.

Variable papaParse : string -> PapaResult.

Definition validateCsvFormat (csvContent : string) : CsvValidationResult :=
  if negb (Js.truthy csvContent) || Nat.eqb (String.length (trim csvContent)) 0
  then mkValidation false ["CSV content is empty"] []
  else
    let result := papaParse csvContent in
    let headers := match pp_fields result with Some fields => fields | None => [] end in
    let missingColumns :=
      filter (fun col => negb (existsb (fun h => sameIgnoringCase h col) headers))
        REQUIRED_COLUMNS in
    let errors :=
      map parseErrorText (pp_errors result)
      ++ match missingColumns with
         | [] => []
         | _ :: _ =>
             [("Missing required columns: " ++ String.concat ", " missingColumns)%string]
         end
      ++ match pp_data result with
         | [] => ["CSV contains no data rows"]
         | _ :: _ => []
         end
      ++ rowsErrors 0 (pp_data result) in
    let warnings :=
      (if existsb (fun h => String.eqb (toLowerCase h) "description") headers then []
       else ["Description column not found. Descriptions will be fetched from Azure DevOps if authenticated."])
      ++ rowsWarnings 0 (pp_data result) in
    mkValidation (Nat.eqb (List.length errors) 0) errors warnings.

Definition parseCsvToWorkItems (csvContent : string) : CsvParseResult :=
  let validation := validateCsvFormat csvContent in
  if negb (isValid validation)
  then mkParse false [] (val_errors validation) (val_warnings validation)
  else
    let result := papaParse csvContent in
    mkParse true (filterMap itemOfRow (pp_data result)) [] (val_warnings validation).

End Csv.

(** A file of two work items as [Papa.parse] reads it, the second with an
    identifier that is not a number when [broken]. *)
Definition twoRows (broken : bool) : PapaResult :=
  mkPapaResult [] (Some ["Prefix"; "ID"; "Content"; "Url"])
    [[("Prefix", "Bug"); ("ID", "  12"); ("Content", "Crash"); ("Url", "")];
     [("Prefix", "Chore"); ("ID", if broken then "n/a" else "7");
      ("Content", "Tidy"); ("Url", "u")]].

(* ------------------------------------------------------------------ *)
(** ** The selection of the settings menu

    [SettingsMenu] keeps the names that are ticked in [localSelection] and
    the flag [selectAll]; [allRepositories] holds the identifier and the
    name of every repository of the project. *)

Module SettingsMenu.

Definition handleSelectAll (allRepositories : list (string * string)) (selectAll : bool)
  : bool * list string :=
  let newSelectAll := negb selectAll in
  (newSelectAll, if newSelectAll then map snd allRepositories else []).

(** The flag and the selection after the name [repoName] is toggled. *)
Definition handleRepoToggle (allRepositories : list (string * string))
    (repoName : string) (prev : list string) : bool * list string :=
  let newSelection :=
    if existsb (String.eqb repoName) prev
    then filter (fun name => negb (String.eqb name repoName)) prev
    else prev ++ [repoName] in
  (Nat.eqb (List.length newSelection) (List.length allRepositories), newSelection).

(** [handleSave]: the names handed to [setSelectedRepositoryNames], or the
    error shown. *)
Definition handleSave (localSelection : list string) : string + list string :=
  match localSelection with
  | [] => inl "Please select at least one repository"
  | _ :: _ => inr localSelection
  end.

End SettingsMenu.

(* ------------------------------------------------------------------ *)
(** ** Doubles just beyond the safe integers

    A run of digits of value [v] converts to the double nearest to [v], the
    tie going to the even significand; the sum and the difference of two
    doubles are the exact ones, rounded in the same way.  A double that is
    an integer of at most 10^16 prints as the decimal digits of that
    integer.  These are the rules the components of a version follow once
    they pass [Number.MAX_SAFE_INTEGER]; they are modelled for components
    below 10^16, and what lies beyond stays a parameter. *)

Definition roundToDouble (v : N) : N :=
  let e := (N.log2 v + 1 - 53)%N in
  if (e =? 0)%N then v
  else
    let q := (v / 2 ^ e)%N in
    let r := (v mod 2 ^ e)%N in
    let half := (2 ^ (e - 1))%N in
    if (half <? r)%N || ((r =? half)%N && N.odd q)
    then ((q + 1) * 2 ^ e)%N else (q * 2 ^ e)%N.

(** [Number(s)] for a run of digits of value below 10^16. *)
Definition roundedNumber (s : string) : option N :=
  match digitsValue s with
  | Some v => if (v <? 10 ^ 16)%N then Some (roundToDouble v) else None
  | None => None
  end.

(** [b - a] on two such doubles. *)
Definition roundedDifference (b a : N) : Z :=
  if (a <=? b)%N then Z.of_N (roundToDouble (b - a))
  else (- Z.of_N (roundToDouble (a - b)))%Z.

(** The text of the two template literals of [calculateNewVersion] on
    components below 10^16. *)
Definition roundedText (beyond : string -> BumpType -> string)
    (cur : string) (bump : BumpType) : string :=
  match bump, map roundedNumber (Js.split "." cur) with
  | Major, Some major :: _ => (decimal (roundToDouble (major + 1)) ++ ".0")%string
  | Minor, Some major :: Some minor :: _ =>
      (decimal major ++ "." ++ decimal (roundToDouble (minor + 1)))%string
  | _, _ => beyond cur bump
  end.

(** The comparator [bMajor - aMajor || bMinor - aMinor] on components below
    10^16. *)
Definition roundedCompare (beyond : string -> string -> Z) (a b : string) : Z :=
  match map roundedNumber (Js.split "." a), map roundedNumber (Js.split "." b) with
  | Some aMajor :: Some aMinor :: _, Some bMajor :: Some bMinor :: _ =>
      let d := roundedDifference bMajor aMajor in
      if (d =? 0)%Z then roundedDifference bMinor aMinor else d
  | _, _ => beyond a b
  end.

(** The two components of a version as integers, whatever their size. *)
Definition integerVersionOf (v : string) : option (N * N) :=
  match map digitsValue (Js.split "." v) with
  | Some major :: Some minor :: _ => Some (major, minor)
  | _ => None
  end.

(** A repository with two release branches whose major versions are 2^53
    and 2^53 + 1. *)
Definition hugeRefs : list GitRef :=
  [ mkGitRef "refs/heads/release/9007199254740992.1.x" "b1";
    mkGitRef "refs/heads/release/9007199254740993.0.x" "b2" ].

Definition hugeRemote : Remote unit :=
  mkRemote unit
    (fun _ _ => ret hugeRefs)
    (fun _ _ _ => refused "403")
    (fun _ _ _ _ => refused "403")
    (fun _ _ => refused "404")
    (fun _ _ => refused "404")
    (fun _ _ _ => refused "404")
    (fun _ _ => refused "404")
    (fun _ _ => refused "404")
    (fun _ => refused "404").

(** A history of four commits between which the tags 1.0 and 1.1 of
    [tags_1_0_1_1] stand. *)
Definition rangeScenario : Scenario :=
  mkScenario tags_1_0_1_1
    [mkGitCommit "c9" "Add export" None; mkGitCommit "c5" "Fix crash" None;
     mkGitCommit "c2" "Release 1.0" None; mkGitCommit "c1" "Initial commit" None]
    (fun _ => false) (fun _ => []) (fun id _ => byNumber id).

(* ================================================================== *)
(** * Properties *)

(* ------------------------------------------------------------------ *)
(** ** Strings and numbers *)

Lemma isDigit_not_dot c : Js.isDigit c = true -> Ascii.eqb c "." = false.
Proof.
  destruct c as [[] [] [] [] [] [] [] []]; vm_compute; congruence.
Qed.

Lemma string_of_uint_everyDigit d :
  Js.everyDigit (NilEmpty.string_of_uint d) = true.
Proof.
  induction d; simpl; auto.
Qed.

Lemma decimal_everyDigit n : Js.everyDigit (decimal n) = true.
Proof. apply string_of_uint_everyDigit. Qed.

Lemma decimal_nonempty n : decimal n <> EmptyString.
Proof.
  unfold decimal. destruct n as [|p]; simpl; [discriminate|].
  pose proof (DecimalPos.Unsigned.to_uint_nonnil p) as Hp.
  destruct (Pos.to_uint p); simpl; congruence.
Qed.

Lemma digitsValue_decimal n : digitsValue (decimal n) = Some n.
Proof.
  unfold digitsValue, decimal.
  rewrite NilEmpty.usu. simpl. now rewrite DecimalN.Unsigned.of_to.
Qed.

Lemma Number_decimal n :
  (n <= MAX_SAFE_INTEGER)%N -> Number (decimal n) = Exact n.
Proof.
  intros Hn. unfold Number. rewrite digitsValue_decimal.
  apply N.leb_le in Hn. now rewrite Hn.
Qed.

Lemma split_no_sep s :
  Js.everyDigit s = true -> Js.split "." s = [s].
Proof.
  induction s as [|c s IH]; simpl; [reflexivity|].
  intros H. apply andb_prop in H. destruct H as [Hc Hs].
  rewrite (isDigit_not_dot c Hc), (IH Hs). reflexivity.
Qed.

Lemma split_digits_dot a b :
  Js.everyDigit a = true ->
  Js.split "." (a ++ String "." b) = a :: Js.split "." b.
Proof.
  induction a as [|c a IH]; simpl; [reflexivity|].
  intros H. apply andb_prop in H. destruct H as [Hc Ha].
  rewrite (isDigit_not_dot c Hc), (IH Ha). reflexivity.
Qed.

Lemma split_versionText major minor :
  Js.split "." (versionText major minor) = [decimal major; decimal minor].
Proof.
  unfold versionText. simpl.
  rewrite split_digits_dot by apply decimal_everyDigit.
  rewrite split_no_sep by apply decimal_everyDigit. reflexivity.
Qed.

Lemma digit_first_not_sentinel c s :
  Js.isDigit c = true -> isSentinel (Some (String c s)) = false.
Proof.
  intros Hc. unfold isSentinel, NO_RELEASES, ERROR_LOADING. simpl.
  destruct c as [[] [] [] [] [] [] [] []]; vm_compute in Hc; try discriminate Hc;
    reflexivity.
Qed.

Lemma versionText_not_sentinel major minor :
  isSentinel (Some (versionText major minor)) = false.
Proof.
  unfold versionText.
  pose proof (decimal_nonempty major) as Hne.
  pose proof (decimal_everyDigit major) as Hd.
  destruct (decimal major) as [|c s]; [congruence|].
  simpl in Hd. apply andb_prop in Hd. destruct Hd as [Hc _].
  simpl. now apply digit_first_not_sentinel.
Qed.

Lemma versionOf_versionText major minor :
  (major <= MAX_SAFE_INTEGER)%N -> (minor <= MAX_SAFE_INTEGER)%N ->
  versionOf (versionText major minor) = Some (major, minor).
Proof.
  intros HM Hm. unfold versionOf. rewrite split_versionText. simpl.
  now rewrite !Number_decimal.
Qed.

(* ------------------------------------------------------------------ *)
(** ** The version policy *)

Lemma versionOf_not_sentinel cur p :
  versionOf cur = Some p -> isSentinel (Some cur) = false.
Proof.
  intros H. unfold isSentinel.
  destruct cur as [|c cur]; [discriminate H|]. cbn [Js.truthy negb orb].
  destruct (String.eqb (String c cur) NO_RELEASES) eqn:E1.
  { apply String.eqb_eq in E1. rewrite E1 in H. discriminate H. }
  destruct (String.eqb (String c cur) ERROR_LOADING) eqn:E2.
  { apply String.eqb_eq in E2. rewrite E2 in H. discriminate H. }
  reflexivity.
Qed.

(** C4 (as the code has it). [calculateNewVersion] is a function of its two
    arguments alone.  On
    a current version that reads as the pair [(M, m)] - both components at
    most [Number.MAX_SAFE_INTEGER], as for the text [M.m] itself - a major
    bump gives the text of [(M + 1, 0)] and a minor bump the text of
    [(M, m + 1)].  On every sentinel - no version at all, the empty text,
    ['No releases'] or ['Error loading'] - a major bump gives ["1.0"] and a
    minor bump ["0.1"], whatever the sentinel is. *)
Theorem calculateNewVersion_policy (outsideText : string -> BumpType -> string) :
  (forall (cur : string) (M m : N),
      versionOf cur = Some (M, m) ->
      calculateNewVersion outsideText (Some cur) Major = versionText (M + 1) 0
      /\ calculateNewVersion outsideText (Some cur) Minor = versionText M (m + 1))
  /\ (forall M m : N,
        (M <= MAX_SAFE_INTEGER)%N -> (m <= MAX_SAFE_INTEGER)%N ->
        versionOf (versionText M m) = Some (M, m))
  /\ (forall sentinel : option string,
        isSentinel sentinel = true ->
        calculateNewVersion outsideText sentinel Major = "1.0"
        /\ calculateNewVersion outsideText sentinel Minor = "0.1")
  /\ isSentinel None = true
  /\ isSentinel (Some NO_RELEASES) = true
  /\ isSentinel (Some ERROR_LOADING) = true.
Proof.
  split; [|split; [|split; [|repeat split]]].
  - intros cur M m Hv. unfold calculateNewVersion.
    rewrite (versionOf_not_sentinel _ _ Hv).
    unfold versionOf in Hv.
    destruct (map Number (Js.split "." cur)) as [|[x|] [|[y|] rest]];
      try discriminate Hv.
    injection Hv as -> ->. split; reflexivity.
  - apply versionOf_versionText.
  - intros sentinel Hs. unfold calculateNewVersion. rewrite Hs. split; reflexivity.
Qed.

(** The policy at the versions 2.7 and 01.09 and at the two named sentinels. *)
Lemma calculateNewVersion_policy_witness :
  (calculateNewVersion noOutsideText (Some "2.7") Major = "3.0"
   /\ calculateNewVersion noOutsideText (Some "2.7") Minor = "2.8")
  /\ (calculateNewVersion noOutsideText (Some "01.09") Major = "2.0"
      /\ calculateNewVersion noOutsideText (Some "01.09") Minor = "1.10")
  /\ versionOf (versionText 2 7) = Some (2%N, 7%N)
  /\ (calculateNewVersion noOutsideText (Some "Error loading") Major = "1.0"
      /\ calculateNewVersion noOutsideText (Some "Error loading") Minor = "0.1").
Proof.
  destruct (calculateNewVersion_policy noOutsideText) as [Hreal [Htext [Hsent _]]].
  split; [|split; [|split]].
  - apply (Hreal "2.7" 2%N 7%N). reflexivity.
  - apply (Hreal "01.09" 1%N 9%N). reflexivity.
  - apply Htext; vm_compute; discriminate.
  - apply (Hsent (Some "Error loading")). reflexivity.
Defined.

(* ------------------------------------------------------------------ *)
(** ** Computations *)

Section EffFacts.

Context {S : Type}.

Lemma bind_inr {A B} (c : Eff S A) (k : A -> Eff S B) s a s' :
  c s = (inr a, s') -> bind c k s = k a s'.
Proof. intros H. unfold bind. now rewrite H. Qed.

Lemma bind_inl {A B} (c : Eff S A) (k : A -> Eff S B) s e s' :
  c s = (inl e, s') -> bind c k s = (inl e, s').
Proof. intros H. unfold bind. now rewrite H. Qed.

Lemma tryCatch_inr {A} (c : Eff S A) h s a s' :
  c s = (inr a, s') -> tryCatch c h s = (inr a, s').
Proof. intros H. unfold tryCatch. now rewrite H. Qed.

Lemma tryCatch_inl {A} (c : Eff S A) h s e s' :
  c s = (inl e, s') -> tryCatch c h s = h e s'.
Proof. intros H. unfold tryCatch. now rewrite H. Qed.

Lemma forEach_app {A} (xs ys : list A) (body : A -> Eff S unit) s :
  forEach (xs ++ ys) body s =
  match forEach xs body s with
  | (inr _, s') => forEach ys body s'
  | (inl e, s') => (inl e, s')
  end.
Proof.
  revert s. induction xs as [|x xs IH]; intros s; simpl; [reflexivity|].
  unfold bind. destruct (body x s) as [[e|[]] s1]; [reflexivity|]. apply IH.
Qed.

(** A loop whose body never throws never throws. *)
Lemma forEach_returns {A} (xs : list A) (body : A -> Eff S unit) :
  (forall x s, exists s', body x s = (inr tt, s')) ->
  forall s, exists s', forEach xs body s = (inr tt, s').
Proof.
  intros Hbody. induction xs as [|x xs IH]; intros s; simpl.
  - now exists s.
  - destruct (Hbody x s) as [s1 H1]. destruct (IH s1) as [s2 H2].
    exists s2. now rewrite (bind_inr _ _ _ _ _ H1).
Qed.

(** What [retryAsync] returns was returned by one of the attempts, and
    what it throws when all attempts threw is an [Error]. *)
Lemma retryLoop_inr {A} (fn : Eff S A) k last s a s' :
  retryLoop k last fn s = (inr a, s') -> exists s0, fn s0 = (inr a, s').
Proof.
  revert last s. induction k as [|k IH]; intros last s; simpl.
  - destruct last as [[m|[]]|]; discriminate.
  - destruct (fn s) as [[e|a0] s1] eqn:Hfn.
    + apply IH.
    + intros [= <- <-]. now exists s.
Qed.

Lemma retryAsync_first {A} (fn : Eff S A) s a s' :
  fn s = (inr a, s') -> retryAsync fn s = (inr a, s').
Proof. intros H. unfold retryAsync. simpl. now rewrite H. Qed.

Lemma retryAsync_steady {A} (fn : Eff S A) s e :
  fn s = (inl (JsError e), s) -> retryAsync fn s = (inl (JsError e), s).
Proof. intros H. unfold retryAsync. simpl. now rewrite !H. Qed.

End EffFacts.

(* ------------------------------------------------------------------ *)
(** ** The range between two tags *)

Lemma findIndex_absent {A} (p : A -> bool) l :
  (forall x, In x l -> p x = false) -> findIndex p l = None.
Proof.
  induction l as [|x l IH]; intros H; simpl; [reflexivity|].
  rewrite (H x (or_introl eq_refl)), IH; [reflexivity|].
  intros y Hy. apply H. now right.
Qed.

Lemma findIndex_first {A} (p : A -> bool) newer c older :
  (forall x, In x newer -> p x = false) -> p c = true ->
  findIndex p (newer ++ c :: older) = Some (List.length newer).
Proof.
  induction newer as [|x l IH]; intros H Hc; simpl.
  - now rewrite Hc.
  - rewrite (H x (or_introl eq_refl)), IH; [reflexivity| |assumption].
    intros y Hy. apply H. now right.
Qed.

(** The filter alone, over a list fetched from the new tag, newest first:
    when the commit of the old tag stands in the list, after the commits
    [newer] that come before its first occurrence, what it keeps is exactly
    [newer], the old commit excluded; when no commit of the list is the old
    one, it keeps the whole list. *)
Theorem commitsBefore_range (oldCommitId : string) (fetched : list GitCommit) :
  (forall newer c older,
      fetched = newer ++ c :: older ->
      commitId c = oldCommitId ->
      (forall x, In x newer -> commitId x <> oldCommitId) ->
      commitsBefore oldCommitId fetched = newer)
  /\ ((forall x, In x fetched -> commitId x <> oldCommitId) ->
      commitsBefore oldCommitId fetched = fetched).
Proof.
  split.
  - intros newer c older -> Hc Hnewer. unfold commitsBefore.
    rewrite findIndex_first.
    + rewrite firstn_app, Nat.sub_diag, firstn_all. simpl. apply List.app_nil_r.
    + intros x Hx. apply String.eqb_neq. now apply Hnewer.
    + now apply String.eqb_eq.
  - intros Habsent. unfold commitsBefore.
    rewrite findIndex_absent; [reflexivity|].
    intros x Hx. apply String.eqb_neq. now apply Habsent.
Qed.

(** The example of the specification: [c5, c4, c3, c2, c1] with [c2] old,
    and the same list with an old commit that is not in it. *)
Lemma commitsBefore_range_witness :
  commitsBefore "c2" (map (fun i => mkGitCommit i "" None) ["c5"; "c4"; "c3"; "c2"; "c1"])
    = map (fun i => mkGitCommit i "" None) ["c5"; "c4"; "c3"]
  /\ commitsBefore "c0" (map (fun i => mkGitCommit i "" None) ["c5"; "c4"; "c3"; "c2"; "c1"])
    = map (fun i => mkGitCommit i "" None) ["c5"; "c4"; "c3"; "c2"; "c1"].
Proof.
  split.
  - apply (proj1 (commitsBefore_range "c2" _) _ (mkGitCommit "c2" "" None)
             (map (fun i => mkGitCommit i "" None) ["c1"])).
    + reflexivity.
    + reflexivity.
    + simpl. intros x [<-|[<-|[<-|[]]]]; discriminate.
  - apply (proj2 (commitsBefore_range "c0" _)).
    simpl. intros x [<-|[<-|[<-|[<-|[<-|[]]]]]]; discriminate.
Defined.

(** [getCommitsBetweenTags] returns what [commitsBefore] keeps of a list the
    remote system sent for the commit of the new tag. *)
Lemma getCommitsBetweenTags_filters {W} (remote : Remote W)
    repositoryId oldTag newTag n commits n' :
  getCommitsBetweenTags remote repositoryId oldTag newTag n = (inr commits, n') ->
  exists oldCommitId newCommitId fetched w w',
    httpGetCommits remote repositoryId newCommitId w = (inr fetched, w')
    /\ commits = commitsBefore oldCommitId fetched.
Proof.
  unfold getCommitsBetweenTags. unfold bind at 1. simpl.
  unfold bind at 1.
  destruct (getRepositoryTags _ _ _) as [[e|tags] n1]; [discriminate|].
  destruct (find _ tags) as [oldTagRef|]; [|discriminate].
  destruct (find _ tags) as [newTagRef|]; [|discriminate].
  unfold bind at 1.
  destruct (resolveTagCommitId _ _ oldTagRef _ n1) as [[e|oldCommitId] n2]; [discriminate|].
  unfold bind at 1.
  destruct (resolveTagCommitId _ _ newTagRef _ n2) as [[e|newCommitId] n3]; [discriminate|].
  intros H. apply retryLoop_inr in H. destruct H as [n0 H].
  unfold bind, request, ret in H.
  destruct (httpGetCommits remote repositoryId newCommitId (world n0))
    as [[e|fetched] w'] eqn:Hget; [discriminate|].
  injection H as <- <-.
  now exists oldCommitId, newCommitId, fetched, (world n0), w'.
Qed.

(* ------------------------------------------------------------------ *)
(** ** Dereferencing a tag *)

(** C7. [resolveTagCommitId] always returns: the target of the tag object
    when [getTagObject] returns it, and the object identifier of the tag ref
    itself, unchanged, when [getTagObject] throws, whatever it throws. *)
Theorem resolveTagCommitId_total {W} (remote : Remote W)
    (repositoryId : string) (tagRef : GitRef) (tagName : string) (n : Net W) :
  exists commit n',
    resolveTagCommitId remote repositoryId tagRef tagName n = (inr commit, n')
    /\ match getTagObject remote repositoryId (ref_objectId tagRef) n with
       | (inr target, n1) => commit = target /\ n' = n1
       | (inl _, n1) => commit = ref_objectId tagRef /\ n' = n1
       end.
Proof.
  unfold resolveTagCommitId, tryCatch.
  destruct (getTagObject remote repositoryId (ref_objectId tagRef) n) as [[e|target] n1].
  - exists (ref_objectId tagRef), n1. now split.
  - exists target, n1. now split.
Qed.

(* ------------------------------------------------------------------ *)
(** ** The latest release version *)

Lemma spanDigits_everyDigit s : Js.everyDigit (fst (Js.spanDigits s)) = true.
Proof.
  induction s as [|c s IH]; simpl; [reflexivity|].
  destruct (Js.isDigit c) eqn:Hc; [|reflexivity].
  destruct (Js.spanDigits s) as [d r]. simpl in *. now rewrite Hc.
Qed.

Lemma releaseVersionAt_shape s v :
  releaseVersionAt s = Some v ->
  exists major minor,
    v = (major ++ String "." minor)%string
    /\ Js.everyDigit major = true /\ Js.everyDigit minor = true.
Proof.
  unfold releaseVersionAt.
  destruct (Js.startsWith false "refs/heads/release/" s); [|discriminate].
  pose proof (spanDigits_everyDigit (Js.drop 19 s)) as Hmajor.
  destruct (Js.spanDigits (Js.drop 19 s)) as [major r1].
  destruct r1 as [|[[] [] [] [] [] [] [] []] r1']; try discriminate.
  pose proof (spanDigits_everyDigit r1') as Hminor.
  destruct (Js.spanDigits r1') as [minor r2].
  destruct (Js.truthy major && Js.truthy minor && Js.startsWith false ".x" r2);
    [|discriminate].
  intros [= <-]. now exists major, minor.
Qed.

Lemma releaseVersionMatch_shape s v :
  releaseVersionMatch s = Some v ->
  exists major minor,
    v = (major ++ String "." minor)%string
    /\ Js.everyDigit major = true /\ Js.everyDigit minor = true.
Proof.
  induction s as [|c s IH]; cbn [releaseVersionMatch].
  - destruct (releaseVersionAt "") eqn:H; [|discriminate].
    intros [= <-]. now apply releaseVersionAt_shape in H.
  - destruct (releaseVersionAt (String c s)) eqn:H.
    + intros [= <-]. now apply releaseVersionAt_shape in H.
    + apply IH.
Qed.

Lemma uint_of_char_digit c d :
  Js.isDigit c = true -> exists d', uint_of_char c (Some d) = Some d'.
Proof.
  destruct c as [[] [] [] [] [] [] [] []]; vm_compute; intros H;
    try discriminate H; eexists; reflexivity.
Qed.

Lemma digitsValue_everyDigit s :
  Js.everyDigit s = true -> exists n, digitsValue s = Some n.
Proof.
  intros H. unfold digitsValue.
  assert (exists d, NilEmpty.uint_of_string s = Some d) as [d ->].
  { induction s as [|c s IH]; simpl; [now eexists|].
    simpl in H. apply andb_prop in H. destruct H as [Hc Hs].
    destruct (IH Hs) as [d ->]. now apply uint_of_char_digit. }
  now eexists.
Qed.

Lemma versionOf_release s v :
  releaseVersionMatch s = Some v -> safeVersion v ->
  exists major minor, versionOf v = Some (major, minor).
Proof.
  intros Hm Hsafe. apply releaseVersionMatch_shape in Hm.
  destruct Hm as (a & b & -> & Ha & Hb).
  assert (Hsplit : Js.split "." (a ++ String "." b) = [a; b]).
  { rewrite split_digits_dot by assumption. now rewrite split_no_sep. }
  unfold safeVersion in Hsafe. rewrite Hsplit in Hsafe.
  destruct (digitsValue_everyDigit a Ha) as [major HM].
  destruct (digitsValue_everyDigit b Hb) as [minor Hmi].
  exists major, minor. unfold versionOf. rewrite Hsplit. simpl. unfold Number.
  rewrite HM, Hmi.
  assert (major <= MAX_SAFE_INTEGER)%N as H1 by (apply (Hsafe a); simpl; auto).
  assert (minor <= MAX_SAFE_INTEGER)%N as H2 by (apply (Hsafe b); simpl; auto).
  apply N.leb_le in H1, H2. now rewrite H1, H2.
Qed.

Lemma compareVersionsDesc_exact outsideCompare a b aMajor aMinor bMajor bMinor :
  versionOf a = Some (aMajor, aMinor) -> versionOf b = Some (bMajor, bMinor) ->
  compareVersionsDesc outsideCompare a b =
  (if (Z.of_N bMajor - Z.of_N aMajor =? 0)%Z
   then Z.of_N bMinor - Z.of_N aMinor
   else Z.of_N bMajor - Z.of_N aMajor)%Z.
Proof.
  unfold versionOf, compareVersionsDesc.
  destruct (map Number (Js.split "." a)) as [|[x|] [|[y|] ?]]; try discriminate.
  destruct (map Number (Js.split "." b)) as [|[x'|] [|[y'|] ?]]; try discriminate.
  now intros [= -> ->] [= -> ->].
Qed.

Lemma versionLe_refl p : versionLe p p.
Proof. right. split; [reflexivity | apply N.le_refl]. Qed.

Lemma versionLe_trans p q r : versionLe p q -> versionLe q r -> versionLe p r.
Proof. unfold versionLe. intros [H|[H H']] [K|[K K']]; lia. Qed.

(** The head of the sorted array is a greatest element of the array. *)
Lemma sort_head_greatest outsideCompare (l : list string) :
  (forall c, In c l -> exists p, versionOf c = Some p) ->
  l <> [] ->
  exists v pv,
    hd_error (sort (compareVersionsDesc outsideCompare) l) = Some v
    /\ In v l /\ versionOf v = Some pv
    /\ forall c, In c l -> exists pc, versionOf c = Some pc /\ versionLe pc pv.
Proof.
  induction l as [|x l IH]; intros Hall Hne; [congruence|].
  destruct (Hall x (or_introl eq_refl)) as [[xM xm] Hx].
  destruct l as [|x' l'].
  - exists x, (xM, xm). simpl. repeat split; auto.
    intros c [<-|[]]. exists (xM, xm). split; [assumption | apply versionLe_refl].
  - destruct IH as (y & [yM ym] & Hhd & Hin & Hy & Hmax).
    { intros c Hc. apply Hall. now right. }
    { discriminate. }
    change (sort (compareVersionsDesc outsideCompare) (x :: x' :: l'))
      with (sortInsert (compareVersionsDesc outsideCompare) x
              (sort (compareVersionsDesc outsideCompare) (x' :: l'))).
    destruct (sort (compareVersionsDesc outsideCompare) (x' :: l')) as [|y0 ys];
      [discriminate|].
    injection Hhd as ->. simpl.
    rewrite (compareVersionsDesc_exact _ _ _ _ _ _ _ Hx Hy).
    destruct (0 <? _)%Z eqn:Hcmp.
    + exists y, (yM, ym). simpl. repeat split; auto.
      intros c [<-|Hc]; [|now apply Hmax].
      exists (xM, xm). split; [assumption|].
      apply Z.ltb_lt in Hcmp. unfold versionLe. simpl.
      destruct (Z.of_N yM - Z.of_N xM =? 0)%Z eqn:Hd; [apply Z.eqb_eq in Hd|]; lia.
    + exists x, (xM, xm). simpl. repeat split; auto.
      assert (Hyx : versionLe (yM, ym) (xM, xm)).
      { apply Z.ltb_ge in Hcmp. unfold versionLe. simpl.
        destruct (Z.of_N yM - Z.of_N xM =? 0)%Z eqn:Hd;
          [apply Z.eqb_eq in Hd | apply Z.eqb_neq in Hd]; lia. }
      intros c [<-|Hc].
      * exists (xM, xm). split; [assumption | apply versionLe_refl].
      * destruct (Hmax c Hc) as (pc & Hpc & Hle).
        exists pc. split; [assumption|]. eapply versionLe_trans; eassumption.
Qed.

Lemma in_filterMap {A B} (f : A -> option B) l y :
  In y (filterMap f l) <-> exists x, In x l /\ f x = Some y.
Proof.
  induction l as [|x l IH]; simpl.
  - split; [intros [] | intros (x & [] & _)].
  - destruct (f x) as [y'|] eqn:Hfx; simpl; rewrite IH; split.
    + intros [<-|(x0 & Hin & Hf)]; [exists x; auto | exists x0; auto].
    + intros (x0 & [<-|Hin] & Hf); [left; congruence | right; exists x0; auto].
    + intros (x0 & Hin & Hf). exists x0; auto.
    + intros (x0 & [<-|Hin] & Hf); [congruence | exists x0; auto].
Qed.

Lemma in_releaseBranches refs v :
  In v (releaseBranches refs) <->
  exists r, In r refs
            /\ Js.startsWith false "refs/heads/release/" (ref_name r) = true
            /\ releaseVersionMatch (ref_name r) = Some v.
Proof.
  unfold releaseBranches. rewrite in_filterMap. split.
  - intros (r & Hin & Hm). apply filter_In in Hin. exists r. tauto.
  - intros (r & Hin & Hp & Hm). exists r. split; [|assumption].
    apply filter_In. tauto.
Qed.

(** C8 (as the code has it). [getLatestReleaseVersion] always returns.  When
    the refs are listed,
    the versions considered are exactly those the pattern extracts from the
    names of the refs that start with [refs/heads/release/]; the other refs
    are left out and nothing is thrown for them.  With no such version the
    result is [null]; otherwise the result is one of them, and when their
    components are at most [Number.MAX_SAFE_INTEGER] it is a greatest one
    for the order on (major, minor), compared as numbers. *)
Theorem getLatestReleaseVersion_greatest {W} (remote : Remote W)
    (outsideCompare : string -> string -> Z) (repositoryId : string) (n : Net W) :
  exists result n',
    getLatestReleaseVersion remote outsideCompare repositoryId n = (inr result, n')
    /\ forall refs n1,
        getRepositoryRefs remote repositoryId n = (inr refs, n1) ->
        (forall v, In v (releaseBranches refs) <->
                   exists r, In r refs
                     /\ Js.startsWith false "refs/heads/release/" (ref_name r) = true
                     /\ releaseVersionMatch (ref_name r) = Some v)
        /\ (releaseBranches refs = [] -> result = None)
        /\ (releaseBranches refs <> [] ->
            exists v, result = Some v /\ In v (releaseBranches refs)
              /\ ((forall c, In c (releaseBranches refs) -> safeVersion c) ->
                  forall c, In c (releaseBranches refs) ->
                    exists pc pv, versionOf c = Some pc /\ versionOf v = Some pv
                                  /\ versionLe pc pv)).
Proof.
  unfold getLatestReleaseVersion, tryCatch, bind.
  destruct (getRepositoryRefs remote repositoryId n) as [[e|refs] n1].
  - exists None, n1. split; [reflexivity|]. intros refs n2 [=].
  - destruct (releaseBranches refs) as [|v0 vs] eqn:Hvs.
    + exists None, n1. split; [reflexivity|].
      intros refs' n2 [= <- <-]. split; [apply in_releaseBranches|].
      rewrite Hvs. split; [reflexivity | congruence].
    + exists (hd_error (sort (compareVersionsDesc outsideCompare) (v0 :: vs))), n1.
      split; [reflexivity|].
      intros refs' n2 [= <- <-]. split; [apply in_releaseBranches|].
      rewrite Hvs. split; [discriminate|]. intros _.
      assert (Hhd : exists v,
                 hd_error (sort (compareVersionsDesc outsideCompare) (v0 :: vs)) = Some v
                 /\ In v (v0 :: vs)).
      { clear Hvs. revert v0. induction vs as [|v1 vs IH]; intros v0.
        - exists v0. simpl. auto.
        - destruct (IH v1) as (y & Hy & Hin).
          change (sort (compareVersionsDesc outsideCompare) (v0 :: v1 :: vs))
            with (sortInsert (compareVersionsDesc outsideCompare) v0
                    (sort (compareVersionsDesc outsideCompare) (v1 :: vs))).
          destruct (sort (compareVersionsDesc outsideCompare) (v1 :: vs)) as [|y0 ys];
            [discriminate|].
          injection Hy as ->. simpl.
          destruct (0 <? _)%Z; [exists y | exists v0]; simpl; auto. }
      destruct Hhd as (v & Hv & Hin). exists v. repeat split; try assumption.
      intros Hsafe c Hc.
      destruct (sort_head_greatest outsideCompare (v0 :: vs)) as (v' & pv & Hv' & _ & Hpv & Hmax).
      { intros c' Hc'. pose proof Hc' as Hc2. rewrite <- Hvs in Hc2.
        apply in_releaseBranches in Hc2. destruct Hc2 as (r & _ & _ & Hm).
        destruct (versionOf_release _ _ Hm (Hsafe c' Hc')) as (a & b & Hab).
        now exists (a, b). }
      { discriminate. }
      rewrite Hv in Hv'. injection Hv' as <-.
      destruct (Hmax c Hc) as (pc & Hpc & Hle). now exists pc, pv.
Qed.

(** Three release branches 1.2, 1.10 and 0.9 next to a branch [release/next]:
    the latest version is 1.10. *)
Lemma getLatestReleaseVersion_greatest_witness :
  fst (getLatestReleaseVersion branchesRemote (fun _ _ => 0%Z) "repo" (mkNet tt []))
    = inr (Some "1.10")
  /\ forall c, In c ["1.2"; "1.10"; "0.9"] ->
       exists pc, versionOf c = Some pc /\ versionLe pc (1%N, 10%N).
Proof.
  destruct (getLatestReleaseVersion_greatest branchesRemote (fun _ _ => 0%Z) "repo"
              (mkNet tt [])) as (result & n' & Hrun & Hspec).
  vm_compute in Hrun. injection Hrun as <- <-.
  split; [reflexivity|].
  destruct (Hspec branchRefs (mkNet tt [CGetRepositoryRefs "repo"]) eq_refl)
    as (_ & _ & Hmax).
  destruct Hmax as (v & Hv & _ & Hmax); [discriminate|].
  injection Hv as <-.
  intros c Hc.
  destruct (Hmax) with (c := c) as (pc & pv & Hpc & Hpv & Hle).
  - intros c' Hc' part k Hpart Hk.
    vm_compute in Hc'.
    destruct Hc' as [<-|[<-|[<-|[]]]];
      vm_compute in Hpart; destruct Hpart as [<-|[<-|[]]];
      vm_compute in Hk; injection Hk as <-; vm_compute; discriminate.
  - exact Hc.
  - exists pc. split; [assumption|].
    vm_compute in Hpv. injection Hpv as <-. assumption.
Defined.

(* ------------------------------------------------------------------ *)
(** ** The record of calls *)

Section EmitsFacts.

Context {S : Type} (log : S -> list Call) (P : Call -> Prop).

Lemma emits_same {A} (c : Eff S A) :
  (forall s, log (snd (c s)) = log s) -> emits log P c.
Proof.
  intros H s r s' Hc. exists []. rewrite List.app_nil_r.
  specialize (H s). rewrite Hc in H. auto.
Qed.

Lemma emits_ret {A} (a : A) : emits log P (ret a).
Proof. apply emits_same. reflexivity. Qed.

Lemma emits_throw {A} e : emits log P (@throw S A e).
Proof. apply emits_same. reflexivity. Qed.

Lemma emits_bind {A B} (c : Eff S A) (k : A -> Eff S B) :
  emits log P c -> (forall a, emits log P (k a)) -> emits log P (bind c k).
Proof.
  intros Hc Hk s r s'. unfold bind.
  destruct (c s) as [[e|a] s1] eqn:H1.
  - intros [= <- <-]. eapply Hc. eassumption.
  - intros H2. destruct (Hc _ _ _ H1) as (d1 & E1 & F1).
    destruct (Hk a _ _ _ H2) as (d2 & E2 & F2).
    exists (d1 ++ d2). rewrite E2, E1, <- List.app_assoc. split; [reflexivity|].
    apply Forall_app. auto.
Qed.

Lemma emits_tryCatch {A} (c : Eff S A) h :
  emits log P c -> (forall e, emits log P (h e)) -> emits log P (tryCatch c h).
Proof.
  intros Hc Hh s r s'. unfold tryCatch.
  destruct (c s) as [[e|a] s1] eqn:H1.
  - intros H2. destruct (Hc _ _ _ H1) as (d1 & E1 & F1).
    destruct (Hh e _ _ _ H2) as (d2 & E2 & F2).
    exists (d1 ++ d2). rewrite E2, E1, <- List.app_assoc. split; [reflexivity|].
    apply Forall_app. auto.
  - intros [= <- <-]. eapply Hc. eassumption.
Qed.

Lemma emits_retryLoop {A} (fn : Eff S A) k last :
  emits log P fn -> emits log P (retryLoop k last fn).
Proof.
  intros Hfn. revert last. induction k as [|k IH]; intros last; simpl.
  - destruct last as [[m|[]]|]; apply emits_throw.
  - intros s r s'. destruct (fn s) as [[e|a] s1] eqn:H1.
    + intros H2. destruct (Hfn _ _ _ H1) as (d1 & E1 & F1).
      destruct (IH _ _ _ _ H2) as (d2 & E2 & F2).
      exists (d1 ++ d2). rewrite E2, E1, <- List.app_assoc. split; [reflexivity|].
      apply Forall_app. auto.
    + intros [= <- <-]. eapply Hfn. eassumption.
Qed.

Lemma emits_retryAsync {A} (fn : Eff S A) :
  emits log P fn -> emits log P (retryAsync fn).
Proof. apply emits_retryLoop. Qed.

Lemma emits_forEach {A} (xs : list A) (body : A -> Eff S unit) :
  (forall x, emits log P (body x)) -> emits log P (forEach xs body).
Proof.
  intros Hbody. induction xs as [|x xs IH]; simpl.
  - apply emits_ret.
  - apply emits_bind; auto.
Qed.

End EmitsFacts.

Lemma emits_weaken {S A} (log : S -> list Call) (P Q : Call -> Prop) (c : Eff S A) :
  (forall x, P x -> Q x) -> emits log P c -> emits log Q c.
Proof.
  intros HPQ Hc s r s' H. destruct (Hc _ _ _ H) as (d & E & F).
  exists d. split; [assumption|]. eapply Forall_impl; eassumption.
Qed.

Section ServiceCalls.

Context {W : Type}.
Variable remote : Remote W.
Variable P : Call -> Prop.

Lemma emits_request {A} (op : Eff W A) : emits calls P (request op).
Proof.
  apply emits_same. intros n. unfold request. now destruct (op (world n)).
Qed.

Lemma emits_invoked c : P c -> emits calls P (invoked (W := W) c).
Proof.
  intros Hc n r n'. unfold invoked. intros [= <- <-]. exists [c]. simpl. auto.
Qed.

Ltac emits_step :=
  lazymatch goal with
  | |- emits _ _ (bind _ _) => apply emits_bind; [|intros ?]
  | |- emits _ _ (tryCatch _ _) => apply emits_tryCatch; [|intros ?]
  | |- emits _ _ (retryAsync _) => apply emits_retryAsync
  | |- emits _ _ (ret _) => apply emits_ret
  | |- emits _ _ (throw _) => apply emits_throw
  | |- emits _ _ (request _) => apply emits_request
  | |- emits _ _ (invoked _) => apply emits_invoked; assumption
  end.

Lemma emits_getRepositoryTags id :
  P (CGetRepositoryTags id) -> emits calls P (getRepositoryTags remote id).
Proof. intros H. unfold getRepositoryTags. repeat emits_step. Qed.

Lemma emits_getMainBranchCommit id :
  P (CGetMainBranchCommit id) -> emits calls P (getMainBranchCommit remote id).
Proof.
  intros H. unfold getMainBranchCommit. repeat emits_step.
  destruct a0; repeat emits_step.
Qed.

Lemma emits_createBranch id b src :
  P (CCreateBranch id b src) -> emits calls P (createBranch remote id b src).
Proof.
  intros H. unfold createBranch. repeat emits_step.
  destruct a0; repeat emits_step.
Qed.

Lemma emits_createTag id t c m :
  P (CCreateTag id t c m) -> emits calls P (createTag remote id t c m).
Proof. intros H. unfold createTag. repeat emits_step. Qed.

Lemma emits_getTagObject id o :
  P (CGetTagObject id o) -> emits calls P (getTagObject remote id o).
Proof. intros H. unfold getTagObject. repeat emits_step. Qed.

Lemma emits_resolveTagCommitId id r name :
  P (CGetTagObject id (ref_objectId r)) ->
  emits calls P (resolveTagCommitId remote id r name).
Proof.
  intros H. unfold resolveTagCommitId. apply emits_tryCatch.
  - now apply emits_getTagObject.
  - intros e. apply emits_ret.
Qed.

Lemma emits_getCommitsBetweenTags id old new :
  P (CGetCommitsBetweenTags id old new) -> P (CGetRepositoryTags id) ->
  (forall o, P (CGetTagObject id o)) ->
  emits calls P (getCommitsBetweenTags remote id old new).
Proof.
  intros H1 H2 H3. unfold getCommitsBetweenTags.
  apply emits_bind; [now apply emits_invoked|]. intros _.
  apply emits_bind; [now apply emits_getRepositoryTags|]. intros tags.
  destruct (find _ tags) as [oldRef|]; [|apply emits_throw].
  destruct (find _ tags) as [newRef|]; [|apply emits_throw].
  apply emits_bind; [now apply emits_resolveTagCommitId|]. intros oldId.
  apply emits_bind; [now apply emits_resolveTagCommitId|]. intros newId.
  repeat emits_step.
Qed.

Lemma emits_getCommitWorkItems id c :
  P (CGetCommitWorkItems id c) -> emits calls P (getCommitWorkItems remote id c).
Proof. intros H. unfold getCommitWorkItems. repeat emits_step. Qed.

Lemma emits_getWorkItem id :
  P (CGetWorkItem id) -> emits calls P (getWorkItem remote id).
Proof. intros H. unfold getWorkItem. repeat emits_step. Qed.

Lemma emits_collectWorkItemIds id commits ids :
  (forall c, P (CGetCommitWorkItems id c)) ->
  emits calls P (collectWorkItemIds remote id commits ids).
Proof.
  intros H. revert ids. induction commits as [|c commits IH]; intros ids; simpl.
  - apply emits_ret.
  - apply emits_bind; [now apply emits_getCommitWorkItems|]. intros apiIds. apply IH.
Qed.

End ServiceCalls.

(* ------------------------------------------------------------------ *)
(** ** The loop that fetches the work items *)

Lemma Forall_False_nil {A} (l : list A) : Forall (fun _ => False) l -> l = [].
Proof. destruct l; [reflexivity|]. intros H. inversion H. contradiction. Qed.

Section FetchFacts.

Context {W : Type}.
Variable remote : Remote W.

Lemma svc_run {A} (c : Svc A) (s : Sys W) r n' :
  c (net s) = (r, n') ->
  svc c s = (r, mkSys n' (store s) (allWorkItems s) (workItems s)).
Proof. intros H. unfold svc. now rewrite H. Qed.

Lemma emits_svc {A} P (c : Svc A) :
  emits calls P c -> emits (@sysCalls W) P (svc c).
Proof.
  intros Hc s r s'. unfold svc. destruct (c (net s)) as [r0 n1] eqn:H.
  intros [= <- <-]. unfold sysCalls. simpl. eapply Hc. eassumption.
Qed.

Lemma getWorkItem_calls id n r n' :
  getWorkItem remote id n = (r, n') -> calls n' = calls n ++ [CGetWorkItem id].
Proof.
  unfold getWorkItem, bind, invoked. intros H.
  destruct (emits_retryAsync calls (fun _ => False)
              (request (httpGetWorkItem remote id))
              (emits_request _ _) _ _ _ H) as (d & E & F).
  apply Forall_False_nil in F. subst d. now rewrite List.app_nil_r in E.
Qed.

Lemma getWorkItem_answer id n item n' :
  getWorkItem remote id n = (inr item, n') ->
  exists w w', httpGetWorkItem remote id w = (inr item, w').
Proof.
  unfold getWorkItem, bind, invoked. intros H.
  apply retryLoop_inr in H. destruct H as [n0 H]. unfold request in H.
  destruct (httpGetWorkItem remote id (world n0)) as [r w'] eqn:Hw.
  injection H as -> _. now exists (world n0), w'.
Qed.

Lemma fetchWorkItems_run ids (s : Sys W) :
  fetchWorkItems remote ids s =
  (inr tt, mkSys (snd (fetchRun remote ids (net s))) (store s)
             (allWorkItems s ++ fst (fetchRun remote ids (net s)))
             (workItems s ++ fst (fetchRun remote ids (net s)))).
Proof.
  unfold fetchWorkItems. revert s.
  induction ids as [|id ids IH]; intros s; simpl.
  - rewrite !List.app_nil_r. now destruct s.
  - unfold bind at 1. unfold tryCatch, bind, svc.
    destruct (getWorkItem remote id (net s)) as [[e|item] n1]; simpl.
    + rewrite IH. reflexivity.
    + rewrite IH. simpl.
      destruct (fetchRun remote ids n1) as [items n2]. simpl.
      now rewrite <- !List.app_assoc.
Qed.

Lemma fetchRun_calls ids n :
  calls (snd (fetchRun remote ids n)) = calls n ++ map CGetWorkItem ids.
Proof.
  revert n. induction ids as [|id ids IH]; intros n; simpl.
  - now rewrite List.app_nil_r.
  - destruct (getWorkItem remote id n) as [[e|item] n1] eqn:H;
      apply getWorkItem_calls in H.
    + rewrite IH, H, <- List.app_assoc. reflexivity.
    + specialize (IH n1). destruct (fetchRun remote ids n1) as [items n2].
      simpl in *. rewrite IH, H, <- List.app_assoc. reflexivity.
Qed.

Lemma fetchRun_app pre post n :
  fetchRun remote (pre ++ post) n =
  (fst (fetchRun remote pre n) ++ fst (fetchRun remote post (snd (fetchRun remote pre n))),
   snd (fetchRun remote post (snd (fetchRun remote pre n)))).
Proof.
  revert n. induction pre as [|id pre IH]; intros n; simpl.
  - now destruct (fetchRun remote post n).
  - destruct (getWorkItem remote id n) as [[e|item] n1].
    + apply IH.
    + rewrite IH. destruct (fetchRun remote pre n1) as [items n2]. reflexivity.
Qed.

Lemma fetchRun_sources ids n item :
  In item (fst (fetchRun remote ids n)) ->
  exists id w w', In id ids /\ httpGetWorkItem remote id w = (inr item, w').
Proof.
  revert n. induction ids as [|id ids IH]; intros n; simpl; [intros []|].
  destruct (getWorkItem remote id n) as [[e|item0] n1] eqn:H.
  - intros Hin. destruct (IH _ Hin) as (id' & w & w' & Hid & Hw).
    exists id', w, w'. auto.
  - specialize (IH n1). destruct (fetchRun remote ids n1) as [items n2]. simpl in *.
    intros [<-|Hin].
    + destruct (getWorkItem_answer _ _ _ _ H) as (w & w' & Hw). exists id, w, w'. auto.
    + destruct (IH Hin) as (id' & w & w' & Hid & Hw). exists id', w, w'. auto.
Qed.

Lemma fetchRun_length ids n :
  (List.length (fst (fetchRun remote ids n)) <= List.length ids)%nat.
Proof.
  revert n. induction ids as [|id ids IH]; intros n; simpl; [lia|].
  destruct (getWorkItem remote id n) as [[e|item] n1].
  - specialize (IH n1). lia.
  - specialize (IH n1). destruct (fetchRun remote ids n1). simpl in *. lia.
Qed.

Lemma fetchRun_NoDup ids n :
  answersDistinct remote -> NoDup ids ->
  NoDup (map wi_id (fst (fetchRun remote ids n))).
Proof.
  intros Hdist. revert n. induction ids as [|id ids IH]; intros n Hnd; simpl.
  - constructor.
  - inversion Hnd as [|? ? Hnotin Hnd']; subst.
    destruct (getWorkItem remote id n) as [[e|item] n1] eqn:H; [now apply IH|].
    pose proof (IH n1 Hnd') as IH1.
    pose proof (fetchRun_sources ids n1) as Hsrc.
    destruct (fetchRun remote ids n1) as [items n2]. simpl in *.
    constructor; [|assumption].
    intros Hin. apply in_map_iff in Hin. destruct Hin as (item' & Heq & Hin').
    destruct (Hsrc _ Hin') as (id' & w & w' & Hid' & Hw').
    destruct (getWorkItem_answer _ _ _ _ H) as (w0 & w0' & Hw0).
    assert (id' = id) by (eapply Hdist; eassumption). subst id'. contradiction.
Qed.

End FetchFacts.

(* ------------------------------------------------------------------ *)
(** ** The set of identifiers *)

Lemma JsSet_has_false s x : JsSet.has s x = false -> ~ In x s.
Proof.
  unfold JsSet.has. intros H Hin.
  assert (existsb (String.eqb x) s = true) as E.
  { apply existsb_exists. exists x. split; [assumption | apply String.eqb_refl]. }
  congruence.
Qed.

Lemma JsSet_add_NoDup s x : NoDup s -> NoDup (JsSet.add s x).
Proof.
  intros H. unfold JsSet.add. destruct (JsSet.has s x) eqn:E; [assumption|].
  apply NoDup_app; [assumption | repeat constructor; auto |].
  intros y Hy [<-|[]]. now apply JsSet_has_false in E.
Qed.

Lemma JsSet_addAll_NoDup xs s : NoDup s -> NoDup (JsSet.addAll s xs).
Proof.
  unfold JsSet.addAll. revert s. induction xs as [|x xs IH]; intros s H; simpl.
  - assumption.
  - apply IH. now apply JsSet_add_NoDup.
Qed.

Section CollectFacts.

Context {W : Type}.
Variable remote : Remote W.

Lemma commitIds_NoDup commit ids : NoDup ids -> NoDup (commitIds commit ids).
Proof.
  intros H. unfold commitIds. apply JsSet_addAll_NoDup.
  assert (NoDup match commit_workItems commit with
                | Some (wi :: wis) => JsSet.addAll ids (map wir_id (wi :: wis))
                | _ => ids
                end) as H1.
  { destruct (commit_workItems commit) as [[|wi wis]|]; auto.
    now apply JsSet_addAll_NoDup. }
  destruct (mergedPrMatch (comment commit)); [now apply JsSet_add_NoDup | assumption].
Qed.

(** [getCommitWorkItems] catches what it throws. *)
Lemma getCommitWorkItems_returns id c n :
  exists ids n', getCommitWorkItems remote id c n = (inr ids, n').
Proof.
  unfold getCommitWorkItems, bind, invoked, tryCatch, ret.
  destruct (retryAsync _ _) as [[e|ids] n1]; eauto.
Qed.

Lemma getCommitWorkItems_calls id c n r n' :
  getCommitWorkItems remote id c n = (r, n') ->
  calls n' = calls n ++ [CGetCommitWorkItems id c].
Proof.
  unfold getCommitWorkItems, bind, invoked. intros H.
  assert (emits calls (fun _ => False)
            (tryCatch (retryAsync (request (httpGetCommitWorkItems remote id c)))
                      (fun _ => ret (S := Net W) []))) as Hq.
  { apply emits_tryCatch; [apply emits_retryAsync, emits_request|].
    intros e. apply emits_ret. }
  destruct (Hq _ _ _ H) as (d & E & F).
  apply Forall_False_nil in F. subst d. now rewrite List.app_nil_r in E.
Qed.

Lemma collectWorkItemIds_returns id commits ids n :
  NoDup ids ->
  exists ids' n',
    collectWorkItemIds remote id commits ids n = (inr ids', n')
    /\ NoDup ids'
    /\ calls n' = calls n ++ map (fun c => CGetCommitWorkItems id (commitId c)) commits.
Proof.
  revert ids n. induction commits as [|c commits IH]; intros ids n Hnd; simpl.
  - exists ids, n. rewrite List.app_nil_r. auto.
  - destruct (getCommitWorkItems_returns id (commitId c) n) as (apiIds & n1 & H1).
    rewrite (bind_inr _ _ _ _ _ H1).
    destruct (IH (JsSet.addAll (commitIds c ids) apiIds) n1) as (ids' & n' & H2 & Hnd' & Hc).
    { apply JsSet_addAll_NoDup. now apply commitIds_NoDup. }
    exists ids', n'. repeat split; try assumption.
    apply getCommitWorkItems_calls in H1. rewrite Hc, H1, <- List.app_assoc. reflexivity.
Qed.

End CollectFacts.

(* ------------------------------------------------------------------ *)
(** ** One repository, then the batch *)

Section PipelineFacts.

Context {W : Type}.
Variable remote : Remote W.
Variable outsideText : string -> BumpType -> string.

(** [release] throws what the creation of the release throws, and records
    a success with the work items harvested when the release is created. *)
Lemma release_run repo (s : Sys W) :
  release remote outsideText repo s =
  match creation remote outsideText repo (net s) with
  | (inl e, n1) => (inl e, mkSys n1 (store s) (allWorkItems s) (workItems s))
  | (inr _, n1) =>
      let (items, n2) := harvested remote outsideText repo n1 in
      (inr tt,
       mkSys n2
         (withResult (store s)
            (mkResult (repo_name repo) true (Some (newVersionOf outsideText repo))
               None (Some items)))
         (allWorkItems s ++ items) items)
  end.
Proof.
  destruct s as [n0 st all wk].
  unfold release, creation, harvested, harvest.
  cbv zeta.
  unfold bind, svc, tryCatch, newWorkItems, readWorkItems, addProcessingResult,
    modifyStore, ret.
  cbv beta iota zeta delta [net store allWorkItems workItems].
  destruct (getMainBranchCommit remote (repo_id repo) n0) as [[e|c] n1];
    [reflexivity|].
  cbv beta iota zeta delta [net store allWorkItems workItems].
  destruct (createBranch remote (repo_id repo) _ _ n1) as [[e|b] n2];
    [reflexivity|].
  cbv beta iota zeta delta [net store allWorkItems workItems].
  destruct (createTag remote (repo_id repo) _ _ _ n2) as [[e|[]] n3];
    [reflexivity|].
  cbv beta iota zeta delta [net store allWorkItems workItems].
  destruct (oldTagNameOf repo) as [old|].
  - destruct (getCommitsBetweenTags remote (repo_id repo) old _ n3)
      as [[e|commits] n4];
      [cbv beta iota zeta delta [net store allWorkItems workItems];
       now rewrite List.app_nil_r|].
    cbv beta iota zeta delta [net store allWorkItems workItems].
    destruct (collectWorkItemIds remote (repo_id repo) commits [] n4)
      as [[e|ids] n5];
      [cbv beta iota zeta delta [net store allWorkItems workItems];
       now rewrite List.app_nil_r|].
    rewrite fetchWorkItems_run.
    cbv beta iota zeta delta [net store allWorkItems workItems].
    destruct (fetchRun remote ids n5) as [items n6]. reflexivity.
  - now rewrite List.app_nil_r.
Qed.

Lemma processRepo_run repo (s : Sys W) :
  exists wk,
    processRepo remote outsideText repo s =
    (inr tt,
     mkSys (snd (outcome remote outsideText repo (net s)))
       (withResult (store s) (fst (outcome remote outsideText repo (net s))))
       (allWorkItems s ++ itemsOf (fst (outcome remote outsideText repo (net s)))) wk).
Proof.
  unfold processRepo, tryCatch, outcome.
  rewrite release_run.
  destruct (creation remote outsideText repo (net s)) as [[e|[]] n1].
  - exists (workItems s). unfold addProcessingResult, modifyStore.
    cbn [net store allWorkItems workItems fst snd itemsOf res_workItems].
    rewrite List.app_nil_r. reflexivity.
  - destruct (harvested remote outsideText repo n1) as [items n2].
    exists items. reflexivity.
Qed.

Lemma outcome_repository repo n :
  repository (fst (outcome remote outsideText repo n)) = repo_name repo.
Proof.
  unfold outcome.
  destruct (creation remote outsideText repo n) as [[e|[]] n1]; [reflexivity|].
  now destruct (harvested remote outsideText repo n1).
Qed.

Lemma forEach_processRepo_run repos (s : Sys W) :
  exists wk,
    forEach repos (processRepo remote outsideText) s =
    (inr tt,
     mkSys (snd (outcomes remote outsideText repos (net s)))
       (mkStore (isProcessing (store s))
          (processingResults (store s) ++ fst (outcomes remote outsideText repos (net s)))
          (consolidatedWorkItems (store s)))
       (allWorkItems s
        ++ List.concat (map itemsOf (fst (outcomes remote outsideText repos (net s))))) wk).
Proof.
  revert s. induction repos as [|repo repos IH]; intros s.
  - exists (workItems s). cbn [forEach outcomes fst snd map List.concat].
    rewrite !List.app_nil_r. now destruct s as [? [] ? ?].
  - destruct (processRepo_run repo s) as [wk1 H1].
    cbn [forEach]. rewrite (bind_inr _ _ _ _ _ H1).
    destruct (IH (mkSys (snd (outcome remote outsideText repo (net s)))
                    (withResult (store s) (fst (outcome remote outsideText repo (net s))))
                    (allWorkItems s
                     ++ itemsOf (fst (outcome remote outsideText repo (net s)))) wk1))
      as [wk2 H2].
    rewrite H2. exists wk2. cbn [outcomes net store allWorkItems].
    destruct (outcome remote outsideText repo (net s)) as [r n1].
    cbn [fst snd]. destruct (outcomes remote outsideText repos n1) as [rs n2].
    unfold withResult. cbn [fst snd map List.concat isProcessing processingResults
                              consolidatedWorkItems].
    now rewrite <- !List.app_assoc.
Qed.

Lemma outcomes_app pre post n :
  outcomes remote outsideText (pre ++ post) n =
  (fst (outcomes remote outsideText pre n)
   ++ fst (outcomes remote outsideText post (snd (outcomes remote outsideText pre n))),
   snd (outcomes remote outsideText post (snd (outcomes remote outsideText pre n)))).
Proof.
  revert n. induction pre as [|repo pre IH]; intros n; cbn [outcomes app fst snd].
  - now destruct (outcomes remote outsideText post n).
  - destruct (outcome remote outsideText repo n) as [r n1]. rewrite IH.
    destruct (outcomes remote outsideText pre n1) as [rs n2]. reflexivity.
Qed.

Lemma outcomes_repository repos n :
  map repository (fst (outcomes remote outsideText repos n)) = map repo_name repos.
Proof.
  revert n. induction repos as [|repo repos IH]; intros n; cbn [outcomes map];
    [reflexivity|].
  pose proof (outcome_repository repo n) as Hr.
  destruct (outcome remote outsideText repo n) as [r n1]. specialize (IH n1).
  destruct (outcomes remote outsideText repos n1) as [rs n2].
  cbn [fst map] in *. now rewrite Hr, IH.
Qed.

Lemma outcomes_length repos n :
  List.length (fst (outcomes remote outsideText repos n)) = List.length repos.
Proof.
  rewrite <- (length_map repository), outcomes_repository. apply length_map.
Qed.

(** [processReleases] always returns; it leaves in the store the results
    of the selected repositories, in order, and the work items of these
    results passed through the [Map]. *)
Lemma processReleases_run repositories (s : Sys W) :
  exists wk,
    processReleases remote outsideText repositories s =
    (inr tt,
     mkSys (snd (outcomes remote outsideText (selectedRepos repositories) (net s)))
       (mkStore false
          (fst (outcomes remote outsideText (selectedRepos repositories) (net s)))
          (uniqueWorkItems
             (List.concat (map itemsOf
                (fst (outcomes remote outsideText (selectedRepos repositories) (net s)))))))
       (List.concat (map itemsOf
          (fst (outcomes remote outsideText (selectedRepos repositories) (net s))))) wk).
Proof.
  unfold processReleases.
  unfold bind at 1. unfold resetProcessing, modifyStore at 1.
  unfold bind at 1. unfold setIsProcessing at 1, modifyStore at 1.
  unfold bind at 1. unfold newAllWorkItems.
  cbn [net store allWorkItems workItems].
  destruct (forEach_processRepo_run (selectedRepos repositories)
              (mkSys (net s) (mkStore true [] []) [] (workItems s))) as [wk H].
  rewrite (bind_inr _ _ _ _ _ H). exists wk. reflexivity.
Qed.

End PipelineFacts.

(* ------------------------------------------------------------------ *)
(** ** The [Map] that removes the duplicates *)

Section MapFacts.

Context {V : Type}.

Lemma get_set_same (m : list (N * V)) k v : JsMap.get (JsMap.set m k v) k = Some v.
Proof.
  induction m as [|[k' v'] m IH]; simpl.
  - now rewrite N.eqb_refl.
  - destruct (k' =? k)%N eqn:E; simpl; rewrite E; auto.
Qed.

Lemma get_set_other (m : list (N * V)) k v k' :
  k <> k' -> JsMap.get (JsMap.set m k v) k' = JsMap.get m k'.
Proof.
  intros Hne. induction m as [|[k0 v0] m IH]; simpl.
  - apply N.eqb_neq in Hne. now rewrite Hne.
  - destruct (k0 =? k)%N eqn:E; simpl.
    + apply N.eqb_eq in E. subst k0. apply N.eqb_neq in Hne. now rewrite Hne.
    + now rewrite IH.
Qed.

Lemma keys_set (m : list (N * V)) k v :
  map fst (JsMap.set m k v) =
  if existsb (N.eqb k) (map fst m) then map fst m else map fst m ++ [k].
Proof.
  induction m as [|[k' v'] m IH]; simpl; [reflexivity|].
  rewrite (N.eqb_sym k k').
  destruct (k' =? k)%N; simpl; [reflexivity|]. rewrite IH.
  now destruct (existsb (N.eqb k) (map fst m)).
Qed.

Lemma keys_set_NoDup (m : list (N * V)) k v :
  NoDup (map fst m) -> NoDup (map fst (JsMap.set m k v)).
Proof.
  intros H. rewrite keys_set.
  destruct (existsb (N.eqb k) (map fst m)) eqn:E; [assumption|].
  apply NoDup_app; [assumption | repeat constructor; auto |].
  intros y Hy [<-|[]].
  assert (existsb (N.eqb k) (map fst m) = true); [|congruence].
  apply existsb_exists. exists k. split; [assumption | apply N.eqb_refl].
Qed.

Lemma in_get (m : list (N * V)) k v :
  NoDup (map fst m) -> (In (k, v) m <-> JsMap.get m k = Some v).
Proof.
  induction m as [|[k' v'] m IH]; simpl; intros Hnd.
  - split; [intros [] | discriminate].
  - inversion Hnd as [|? ? Hnotin Hnd']; subst.
    destruct (k' =? k)%N eqn:E.
    + apply N.eqb_eq in E. subst k'. split.
      * intros [[= ->]|Hin]; [reflexivity|].
        exfalso. apply Hnotin. apply in_map_iff. now exists (k, v).
      * intros [= ->]. now left.
    + apply N.eqb_neq in E. rewrite <- (IH Hnd'). split.
      * intros [[= -> ->]|Hin]; [congruence | assumption].
      * intros Hin. now right.
Qed.

Lemma fold_put_NoDup entries (m : list (N * V)) :
  NoDup (map fst m) -> NoDup (map fst (fold_left JsMap.put entries m)).
Proof.
  revert m. induction entries as [|e es IH]; intros m H; simpl; [assumption|].
  apply IH. now apply keys_set_NoDup.
Qed.

Lemma fold_put_absent entries (m : list (N * V)) k :
  ~ In k (map fst entries) ->
  JsMap.get (fold_left JsMap.put entries m) k = JsMap.get m k.
Proof.
  revert m. induction entries as [|[k' v'] es IH]; intros m H; simpl; [reflexivity|].
  rewrite IH by (intros Hin; apply H; now right).
  unfold JsMap.put. cbn [fst snd].
  apply get_set_other. intros ->. apply H. now left.
Qed.

(** The value under a key is the value of the last entry with that key. *)
Lemma fold_put_last pre k v post (m : list (N * V)) :
  ~ In k (map fst post) ->
  JsMap.get (fold_left JsMap.put (pre ++ (k, v) :: post) m) k = Some v.
Proof.
  intros H. rewrite fold_left_app. simpl.
  rewrite fold_put_absent by assumption. apply (get_set_same _ k v).
Qed.

Lemma fold_put_get entries k v :
  JsMap.get (fold_left JsMap.put entries []) k = Some v ->
  exists pre post : list (N * V),
    entries = pre ++ (k, v) :: post /\ ~ In k (map fst post).
Proof.
  induction entries as [|[k' v'] es IH] using rev_ind; [discriminate|].
  rewrite fold_left_app. simpl. unfold JsMap.put at 1. simpl.
  destruct (N.eq_dec k' k) as [->|Hne].
  - rewrite get_set_same. intros [= ->]. exists es, []. auto.
  - rewrite get_set_other by assumption. intros H.
    destruct (IH H) as (pre & post & -> & Hpost).
    exists pre, (post ++ [(k', v')]). rewrite <- List.app_assoc. split; [reflexivity|].
    rewrite map_app, in_app_iff. simpl. intuition.
Qed.

End MapFacts.

Lemma ofEntries_fold {V} (entries : list (N * V)) :
  JsMap.ofEntries entries = fold_left JsMap.put entries [].
Proof. reflexivity. Qed.

Lemma fold_put_own_keys entries (m : list (N * WorkItem)) :
  Forall (fun e => fst e = wi_id (snd e)) m ->
  Forall (fun e => fst e = wi_id (snd e)) entries ->
  Forall (fun e => fst e = wi_id (snd e)) (fold_left JsMap.put entries m).
Proof.
  revert m. induction entries as [|e es IH]; intros m Hm He; simpl; [assumption|].
  inversion He as [|? ? He1 He2]; subst. apply IH; [|assumption].
  clear IH He He2. unfold JsMap.put. destruct e as [k v]. cbn [fst snd] in *.
  subst k.
  induction m as [|[k' v'] m IHm]; simpl.
  - repeat constructor.
  - inversion Hm as [|? ? H1 H2]; subst.
    destruct (k' =? wi_id v)%N eqn:E.
    + apply N.eqb_eq in E. constructor; [cbn [fst snd]; congruence | assumption].
    + constructor; auto.
Qed.

Lemma entriesOf_own_keys items :
  Forall (fun e => fst e = wi_id (snd e)) (entriesOf items).
Proof. induction items; simpl; constructor; auto. Qed.

Lemma keys_entriesOf items : map fst (entriesOf items) = map wi_id items.
Proof. unfold entriesOf. rewrite map_map. reflexivity. Qed.

Lemma uniqueWorkItems_ids items :
  map wi_id (uniqueWorkItems items) = map fst (JsMap.ofEntries (entriesOf items)).
Proof.
  unfold uniqueWorkItems, JsMap.values.
  pose proof (fold_put_own_keys (entriesOf items) [] (Forall_nil _)
                (entriesOf_own_keys items)) as H.
  rewrite <- ofEntries_fold in H.
  induction (JsMap.ofEntries (entriesOf items)) as [|[k v] m IH]; simpl; [reflexivity|].
  inversion H as [|? ? H1 H2]; subst. simpl in H1. now rewrite IH, H1.
Qed.

Lemma uniqueWorkItems_NoDup items : NoDup (map wi_id (uniqueWorkItems items)).
Proof.
  rewrite uniqueWorkItems_ids, ofEntries_fold. apply fold_put_NoDup. constructor.
Qed.

Lemma uniqueWorkItems_keepsLastSeen items :
  keepsLastSeen items (uniqueWorkItems items).
Proof.
  intros w. unfold uniqueWorkItems, JsMap.values.
  assert (Hnd : NoDup (map fst (JsMap.ofEntries (entriesOf items)))).
  { rewrite ofEntries_fold. apply fold_put_NoDup. constructor. }
  assert (Hown : Forall (fun e => fst e = wi_id (snd e)) (JsMap.ofEntries (entriesOf items))).
  { rewrite ofEntries_fold. apply fold_put_own_keys;
      [constructor | apply entriesOf_own_keys]. }
  split.
  - intros Hin. apply in_map_iff in Hin. destruct Hin as ([k v] & Hv & Hin).
    simpl in Hv. subst v.
    assert (k = wi_id w) as ->.
    { rewrite Forall_forall in Hown. apply (Hown _ Hin). }
    apply in_get in Hin; [|assumption].
    rewrite ofEntries_fold in Hin. apply fold_put_get in Hin.
    destruct Hin as (pre & post & Heq & Hpost).
    unfold entriesOf in Heq. apply map_eq_app in Heq.
    destruct Heq as (l1 & l2 & -> & <- & Heq).
    apply map_eq_cons in Heq. destruct Heq as (w' & l3 & -> & [= _ ->] & <-).
    exists l1, l3. split; [reflexivity|].
    fold (entriesOf l3) in Hpost. now rewrite keys_entriesOf in Hpost.
  - intros (pre & post & -> & Hpost).
    apply in_map_iff. exists (wi_id w, w). split; [reflexivity|].
    apply in_get; [assumption|].
    rewrite ofEntries_fold. unfold entriesOf. rewrite map_app. simpl.
    apply fold_put_last. fold (entriesOf post). now rewrite keys_entriesOf.
Qed.

(** Every identifier that occurs has a last occurrence. *)
Lemma last_occurrence (items : list WorkItem) i :
  In i (map wi_id items) ->
  exists pre w post,
    items = pre ++ w :: post /\ wi_id w = i /\ ~ In i (map wi_id post).
Proof.
  induction items as [|x items IH]; simpl; [intros []|].
  intros H.
  destruct (in_dec N.eq_dec i (map wi_id items)) as [Hin|Hnot].
  - destruct (IH Hin) as (pre & w & post & -> & Hw & Hpost).
    exists (x :: pre), w, post. auto.
  - destruct H as [Hx|Hin]; [|contradiction].
    exists [], x, items. auto.
Qed.

Lemma uniqueWorkItems_same_ids items i :
  In i (map wi_id (uniqueWorkItems items)) <-> In i (map wi_id items).
Proof.
  split.
  - intros H. apply in_map_iff in H. destruct H as (w & <- & Hw).
    apply uniqueWorkItems_keepsLastSeen in Hw. destruct Hw as (pre & post & -> & _).
    rewrite map_app, in_app_iff. simpl. auto.
  - intros H. destruct (last_occurrence _ _ H) as (pre & w & post & Heq & <- & Hpost).
    apply in_map. apply uniqueWorkItems_keepsLastSeen. now exists pre, post.
Qed.

(* ------------------------------------------------------------------ *)
(** ** The batch *)

Section BatchFacts.

Context {W : Type}.
Variable remote : Remote W.
Variable outsideText : string -> BumpType -> string.

Lemma creationFails_creation repo n msg :
  creationFails remote outsideText repo n msg ->
  exists n', creation remote outsideText repo n = (inl (JsError msg), n').
Proof.
  unfold creationFails, creation. cbv zeta.
  intros (c & n1 & Hmain & [(n2 & Hb)|(b & n2 & n3 & Hb & Ht)]).
  - exists n2. rewrite (bind_inr _ _ _ _ _ Hmain). now rewrite (bind_inl _ _ _ _ _ Hb).
  - exists n3. rewrite (bind_inr _ _ _ _ _ Hmain). now rewrite (bind_inr _ _ _ _ _ Hb).
Qed.

Lemma outcome_failure repo n msg :
  creationFails remote outsideText repo n msg ->
  fst (outcome remote outsideText repo n)
  = mkResult (repo_name repo) false None (Some msg) None.
Proof.
  intros H. destruct (creationFails_creation _ _ _ H) as [n' Hc].
  unfold outcome. now rewrite Hc.
Qed.

Lemma outcome_success repo n :
  creationSucceeds remote outsideText repo n ->
  exists items,
    fst (outcome remote outsideText repo n)
    = mkResult (repo_name repo) true (Some (newVersionOf outsideText repo)) None
        (Some items).
Proof.
  intros [n' Hc]. unfold outcome. rewrite Hc.
  destruct (harvested remote outsideText repo n') as [items n2]. now exists items.
Qed.

Lemma outcome_failure_items repo n :
  success (fst (outcome remote outsideText repo n)) = false ->
  itemsOf (fst (outcome remote outsideText repo n)) = [].
Proof.
  unfold outcome.
  destruct (creation remote outsideText repo n) as [[e|[]] n1]; [reflexivity|].
  destruct (harvested remote outsideText repo n1). discriminate.
Qed.

Lemma outcomes_failure_items repos n r :
  In r (fst (outcomes remote outsideText repos n)) ->
  success r = false -> itemsOf r = [].
Proof.
  revert n. induction repos as [|repo repos IH]; intros n; cbn [outcomes].
  - intros [].
  - pose proof (outcome_failure_items repo n) as H0.
    destruct (outcome remote outsideText repo n) as [r0 n1]. specialize (IH n1).
    destruct (outcomes remote outsideText repos n1) as [rs n2]. cbn [fst] in *.
    intros [<-|Hin]; auto.
Qed.

End BatchFacts.

(** C1 (as the code has it). [processReleases] always returns.  The work
    items it consolidates are those of the recorded results, taken in the
    order of processing; a failed repository contributes none.  The
    consolidated list holds every identifier of these work items exactly
    once, and the record kept for an identifier is the one that was resolved
    last, not first: setting a key of the [Map] again replaces its value. *)
Theorem processReleases_consolidated {W} (remote : Remote W)
    (outsideText : string -> BumpType -> string)
    (repositories : list Repository) (s : Sys W) :
  exists s',
    processReleases remote outsideText repositories s = (inr tt, s')
    /\ (forall r, In r (processingResults (store s')) ->
                  success r = false -> itemsOf r = [])
    /\ let all := List.concat (map itemsOf (processingResults (store s'))) in
       let kept := consolidatedWorkItems (store s') in
       kept = uniqueWorkItems all
       /\ NoDup (map wi_id kept)
       /\ (forall i, In i (map wi_id kept) <-> In i (map wi_id all))
       /\ keepsLastSeen all kept.
Proof.
  destruct (processReleases_run remote outsideText repositories s) as [wk H].
  eexists. split; [exact H|]. cbn [store processingResults consolidatedWorkItems].
  split; [apply outcomes_failure_items|].
  split; [reflexivity|].
  split; [apply uniqueWorkItems_NoDup|].
  split; [apply uniqueWorkItems_same_ids | apply uniqueWorkItems_keepsLastSeen].
Qed.

(** Two repositories resolve work item 100, edited in between: the
    consolidated list holds the snapshot of the second one. *)
Lemma processReleases_consolidated_witness :
  consolidatedWorkItems
    (store (snd (processReleases (scenarioRemote editedScenario) noOutsideText
                   twoRepos freshSys)))
  = [snapshot100 "Crash (reopened)"].
Proof.
  destruct (processReleases_consolidated (scenarioRemote editedScenario) noOutsideText
              twoRepos freshSys) as (s' & Hrun & _ & Hkept & _).
  rewrite Hrun. cbn [snd]. rewrite Hkept.
  vm_compute in Hrun. injection Hrun as <-. reflexivity.
Defined.

(** The same run refutes "first seen wins": the snapshot resolved first, for
    the first repository, is not in the consolidated list. *)
Lemma processReleases_first_seen_counterexample :
  let s' := snd (processReleases (scenarioRemote editedScenario) noOutsideText
                   twoRepos freshSys) in
  map itemsOf (processingResults (store s'))
    = [[snapshot100 "Crash"]; [snapshot100 "Crash (reopened)"]]
  /\ ~ keepsFirstSeen (List.concat (map itemsOf (processingResults (store s'))))
                      (consolidatedWorkItems (store s')).
Proof.
  split; [reflexivity|].
  intros H.
  specialize (H [] (snapshot100 "Crash") [snapshot100 "Crash (reopened)"] eq_refl).
  vm_compute in H.
  destruct H as [H|[]]; [tauto | discriminate H].
Qed.

(** The tag-based revision does what is asked of a batch: [processReleases]
    always returns and records exactly one result per
    selected repository, in the order of the repositories.  For the
    repository that stands after [pre] in the batch: it is processed in the
    state the repositories before it have left, whatever happened to them,
    and adds one result.  That result is a failure carrying the message of
    the error when the branch or the tag cannot be created, and a success
    with the new version when the three stages of the creation succeed. *)
Theorem processReleases_isolates_failures {W} (remote : Remote W)
    (outsideText : string -> BumpType -> string)
    (repositories : list Repository) (s : Sys W) :
  exists s',
    processReleases remote outsideText repositories s = (inr tt, s')
    /\ map repository (processingResults (store s'))
       = map repo_name (selectedRepos repositories)
    /\ forall pre repo post,
         selectedRepos repositories = pre ++ repo :: post ->
         exists s1 s2 r,
           forEach pre (processRepo remote outsideText) (started s) = (inr tt, s1)
           /\ processRepo remote outsideText repo s1 = (inr tt, s2)
           /\ processingResults (store s2) = processingResults (store s1) ++ [r]
           /\ nth_error (processingResults (store s')) (List.length pre) = Some r
           /\ (forall msg,
                 creationFails remote outsideText repo (net s1) msg ->
                 r = mkResult (repo_name repo) false None (Some msg) None)
           /\ (creationSucceeds remote outsideText repo (net s1) ->
               exists items,
                 r = mkResult (repo_name repo) true
                       (Some (newVersionOf outsideText repo)) None (Some items)).
Proof.
  destruct (processReleases_run remote outsideText repositories s) as [wk H].
  eexists. split; [exact H|]. cbn [store processingResults].
  split; [apply outcomes_repository|].
  intros pre repo post Hsel. rewrite Hsel.
  destruct (forEach_processRepo_run remote outsideText pre (started s)) as [wk1 H1].
  destruct (processRepo_run remote outsideText repo
              (mkSys (snd (outcomes remote outsideText pre (net (started s))))
                 (mkStore (isProcessing (store (started s)))
                    (processingResults (store (started s))
                     ++ fst (outcomes remote outsideText pre (net (started s))))
                    (consolidatedWorkItems (store (started s))))
                 (allWorkItems (started s)
                  ++ List.concat (map itemsOf
                       (fst (outcomes remote outsideText pre (net (started s))))))
                 wk1)) as [wk2 H2].
  cbn [net store allWorkItems started] in *.
  eexists. eexists.
  exists (fst (outcome remote outsideText repo (snd (outcomes remote outsideText pre (net s))))).
  split; [exact H1|]. split; [exact H2|].
  cbn [net store processingResults withResult].
  split; [reflexivity|].
  split.
  - rewrite outcomes_app. cbn [fst outcomes].
    destruct (outcome remote outsideText repo (snd (outcomes remote outsideText pre (net s))))
      as [r n1]. cbn [fst].
    destruct (outcomes remote outsideText post n1) as [rs n2]. cbn [fst].
    rewrite nth_error_app2 by (rewrite outcomes_length; lia).
    rewrite outcomes_length, Nat.sub_diag. reflexivity.
  - split; [intros msg; apply outcome_failure | apply outcome_success].
Qed.

(** A batch of three repositories in which the tag of the second one cannot
    be created: the second result is the failure with the message of the
    remote system, the first and the third are successes. *)
Lemma processReleases_isolates_failures_witness :
  map (fun r => (repository r, success r, error r))
    (processingResults
       (store (snd (processReleases (scenarioRemote refusedScenario) noOutsideText
                      threeRepos freshSys))))
  = [("A", true, None);
     ("B", false, Some "TF401173: tag already exists");
     ("C", true, None)]
  /\ nth_error
       (processingResults
          (store (snd (processReleases (scenarioRemote refusedScenario) noOutsideText
                         threeRepos freshSys)))) 1
     = Some (mkResult "B" false None (Some "TF401173: tag already exists") None).
Proof.
  split; [reflexivity|].
  destruct (processReleases_isolates_failures (scenarioRemote refusedScenario)
              noOutsideText threeRepos freshSys) as (s' & Hrun & _ & Hat).
  rewrite Hrun. cbn [snd].
  destruct (Hat [repoAt "A" "1.0"] (repoAt "B" "1.0") [repoAt "C" "1.0"] eq_refl)
    as (s1 & s2 & r & H1 & _ & _ & Hnth & Hfail & _).
  cbn [List.length] in Hnth. rewrite Hnth. f_equal.
  apply Hfail.
  vm_compute in H1. injection H1 as <-.
  unfold creationFails. cbv zeta.
  eexists. eexists. split; [cbv; reflexivity|].
  right. eexists. eexists. eexists. split; [cbv; reflexivity | cbv; reflexivity].
Defined.

(* ------------------------------------------------------------------ *)
(** ** Failures while fetching work items *)

Lemma fetchedIds_app a b : fetchedIds (a ++ b) = fetchedIds a ++ fetchedIds b.
Proof.
  unfold fetchedIds. induction a as [|c a IH]; simpl; [reflexivity|].
  destruct c; simpl; now rewrite ?IH.
Qed.

Lemma fetchedIds_map ids : fetchedIds (map CGetWorkItem ids) = ids.
Proof.
  unfold fetchedIds. induction ids as [|i ids IH]; simpl; [reflexivity|].
  now rewrite IH.
Qed.

Lemma fetchedIds_notFetch d : Forall notFetch d -> fetchedIds d = [].
Proof.
  induction 1 as [|c d Hc Hd IH]; [reflexivity|].
  destruct c; simpl in *; try assumption. contradiction.
Qed.

(** C9. The loop over the identifiers always returns, and every identifier is
    asked for, in order, whatever happened to the ones before it.  For an
    identifier that stands after [pre]: when fetching it throws, nothing is
    added to the work items and the loop goes on with [post] from the state
    the failed fetch has left; when it succeeds, the work item is added. *)
Theorem fetchWorkItems_isolates_failures {W} (remote : Remote W)
    (pre : list string) (id : string) (post : list string) (s : Sys W) :
  exists s1 s2 s3,
    fetchWorkItems remote pre s = (inr tt, s1)
    /\ fetchWorkItems remote [id] s1 = (inr tt, s2)
    /\ fetchWorkItems remote post s2 = (inr tt, s3)
    /\ fetchWorkItems remote (pre ++ id :: post) s = (inr tt, s3)
    /\ (forall e n', getWorkItem remote id (net s1) = (inl e, n') ->
          workItems s2 = workItems s1 /\ allWorkItems s2 = allWorkItems s1
          /\ net s2 = n')
    /\ (forall workItem n', getWorkItem remote id (net s1) = (inr workItem, n') ->
          workItems s2 = workItems s1 ++ [workItem]
          /\ allWorkItems s2 = allWorkItems s1 ++ [workItem]
          /\ net s2 = n')
    /\ fetchedIds (calls (net s3)) = fetchedIds (calls (net s)) ++ pre ++ id :: post.
Proof.
  eexists. eexists. eexists.
  split; [apply fetchWorkItems_run|].
  split; [apply fetchWorkItems_run|].
  split; [apply fetchWorkItems_run|].
  cbn [net store allWorkItems workItems].
  split; [|split; [|split]].
  - rewrite fetchWorkItems_run.
    change (id :: post) with ([id] ++ post).
    rewrite (fetchRun_app remote pre ([id] ++ post)), (fetchRun_app remote [id] post).
    cbn [fst snd]. now rewrite <- !List.app_assoc.
  - intros e n' H. cbn [fetchRun]. rewrite H. cbn [fst snd].
    now rewrite !List.app_nil_r.
  - intros workItem n' H. cbn [fetchRun]. rewrite H. cbn [fst snd]. auto.
  - rewrite !fetchRun_calls, !fetchedIds_app, !fetchedIds_map.
    cbn [app]. now rewrite <- !List.app_assoc.
Qed.

(** Fetching 1, 2 and 3 when 2 is unknown: 1 and 3 are resolved, three
    requests are made. *)
Lemma fetchWorkItems_isolates_failures_witness :
  workItems (snd (fetchWorkItems (scenarioRemote missingScenario) ["1"; "2"; "3"] freshSys))
    = [item 1; item 3]
  /\ fetchedIds (calls (net (snd (fetchWorkItems (scenarioRemote missingScenario)
                                   ["1"; "2"; "3"] freshSys))))
     = ["1"; "2"; "3"].
Proof.
  destruct (fetchWorkItems_isolates_failures (scenarioRemote missingScenario)
              ["1"] "2" ["3"] freshSys)
    as (s1 & s2 & s3 & H1 & H2 & H3 & Hall & Hfail & _ & Hcalls).
  cbn [app] in Hall, Hcalls. rewrite Hall. cbn [snd].
  split; [|exact Hcalls].
  vm_compute in H1. injection H1 as <-.
  destruct (Hfail (JsError "API Error: 404 - not found")
              (mkNet 4%nat [CGetWorkItem "1"; CGetWorkItem "2"]) eq_refl)
    as (Hw & _ & Hn).
  destruct s2 as [n2 st2 all2 wk2]. cbn [workItems net] in Hw, Hn. subst n2 wk2.
  vm_compute in H3. injection H3 as <-. reflexivity.
Defined.

(* ------------------------------------------------------------------ *)
(** ** What is fetched for one repository *)

Section HarvestFacts.

Context {W : Type}.
Variable remote : Remote W.
Variable outsideText : string -> BumpType -> string.

Lemma emits_creation P repo :
  P (CGetMainBranchCommit (repo_id repo)) ->
  (forall b src, P (CCreateBranch (repo_id repo) b src)) ->
  (forall t c m, P (CCreateTag (repo_id repo) t c m)) ->
  emits calls P (creation remote outsideText repo).
Proof.
  intros H1 H2 H3. unfold creation. cbv zeta.
  apply emits_bind; [now apply emits_getMainBranchCommit|]. intros c.
  apply emits_bind; [now apply emits_createBranch|]. intros _.
  now apply emits_createTag.
Qed.

Lemma fetchedIds_commitWorkItems id (commits : list GitCommit) :
  fetchedIds (map (fun c => CGetCommitWorkItems id (commitId c)) commits) = [].
Proof. induction commits as [|c commits IH]; [reflexivity | exact IH]. Qed.

(** The work items harvested are fetched for identifiers that are distinct,
    and only these are fetched. *)
Lemma harvest_fetches id old new n1 items n2 :
  harvest remote id old new n1 = (items, n2) ->
  exists ids nf delta,
    NoDup ids /\ calls n2 = calls n1 ++ delta /\ fetchedIds delta = ids
    /\ items = fst (fetchRun remote ids nf).
Proof.
  unfold harvest.
  destruct (getCommitsBetweenTags remote id old new n1) as [[e|commits] n'] eqn:Hg;
    destruct (emits_getCommitsBetweenTags remote notFetch id old new I I (fun _ => I)
                _ _ _ Hg) as (d1 & E1 & F1).
  - intros [= <- <-]. exists [], n', d1. repeat split; auto using NoDup_nil.
    now apply fetchedIds_notFetch.
  - destruct (collectWorkItemIds_returns remote id commits [] n' (NoDup_nil _))
      as (ids & n'' & Hc & Hnd & Hcalls).
    rewrite Hc. intros Hf.
    exists ids, n'',
      (d1 ++ map (fun c => CGetCommitWorkItems id (commitId c)) commits
          ++ map CGetWorkItem ids).
    pose proof (fetchRun_calls remote ids n'') as Hfc. rewrite Hf in *. cbn [fst snd] in *.
    repeat split; auto.
    + rewrite Hfc, Hcalls, E1, <- !List.app_assoc. reflexivity.
    + rewrite !fetchedIds_app, fetchedIds_commitWorkItems, fetchedIds_map.
      now rewrite (fetchedIds_notFetch _ F1).
Qed.

Lemma outcome_fetches repo n :
  exists newCalls,
    calls (snd (outcome remote outsideText repo n)) = calls n ++ newCalls
    /\ NoDup (fetchedIds newCalls)
    /\ exists nf, itemsOf (fst (outcome remote outsideText repo n))
                  = fst (fetchRun remote (fetchedIds newCalls) nf).
Proof.
  unfold outcome.
  destruct (creation remote outsideText repo n) as [[e|[]] n1] eqn:Hc;
    destruct (emits_creation notFetch repo I (fun _ _ => I) (fun _ _ _ => I) _ _ _ Hc)
      as (d0 & E0 & F0).
  - exists d0. cbn [fst snd itemsOf res_workItems].
    rewrite (fetchedIds_notFetch _ F0). repeat split; auto using NoDup_nil.
    now exists n.
  - unfold harvested. destruct (oldTagNameOf repo) as [old|].
    + destruct (harvest remote (repo_id repo) old (newVersionOf outsideText repo) n1)
        as [items n2] eqn:Hh.
      destruct (harvest_fetches _ _ _ _ _ _ Hh) as (ids & nf & d1 & Hnd & E1 & Hids & Hitems).
      exists (d0 ++ d1). cbn [fst snd itemsOf res_workItems].
      rewrite fetchedIds_app, (fetchedIds_notFetch _ F0), Hids. cbn [app].
      repeat split; auto.
      * rewrite E1, E0, <- List.app_assoc. reflexivity.
      * now exists nf.
    + exists d0. cbn [fst snd itemsOf res_workItems].
      rewrite (fetchedIds_notFetch _ F0). repeat split; auto using NoDup_nil.
      now exists n.
Qed.

End HarvestFacts.

(** C10 (as the code has it). Processing a repository always returns and
    records one result.  The identifiers for which work items are fetched
    while it runs are pairwise distinct: each text in the set is fetched
    once.  The work items of the result are what these fetches returned, in
    order, one at most for each.  Their identifiers are pairwise distinct
    when the remote system never answers two distinct identifier texts with
    records of one identifier. *)
Theorem processRepo_fetches_once {W} (remote : Remote W)
    (outsideText : string -> BumpType -> string) (repo : Repository) (s : Sys W) :
  exists s' r newCalls,
    processRepo remote outsideText repo s = (inr tt, s')
    /\ processingResults (store s') = processingResults (store s) ++ [r]
    /\ calls (net s') = calls (net s) ++ newCalls
    /\ NoDup (fetchedIds newCalls)
    /\ (exists nf, itemsOf r = fst (fetchRun remote (fetchedIds newCalls) nf))
    /\ (answersDistinct remote -> NoDup (map wi_id (itemsOf r))).
Proof.
  destruct (processRepo_run remote outsideText repo s) as [wk H].
  destruct (outcome_fetches remote outsideText repo (net s))
    as (newCalls & Hcalls & Hnd & nf & Hitems).
  eexists. exists (fst (outcome remote outsideText repo (net s))), newCalls.
  split; [exact H|]. cbn [net store processingResults withResult].
  repeat split; auto.
  - now exists nf.
  - intros Hdist. rewrite Hitems. now apply fetchRun_NoDup.
Qed.

Lemma byDecimalText_distinct : answersDistinct (scenarioRemote strictScenario).
Proof.
  intros id1 id2 w1 w2 item1 item2 w1' w2' H1 H2 Heq.
  cbn in H1, H2. unfold byDecimalText in H1, H2.
  destruct (digitsValue id1) as [n1|]; [|discriminate].
  destruct (digitsValue id2) as [n2|]; [|discriminate].
  destruct (String.eqb (decimal n1) id1) eqn:E1; [|discriminate].
  destruct (String.eqb (decimal n2) id2) eqn:E2; [|discriminate].
  injection H1 as <- _. injection H2 as <- _. cbn in Heq. subst n2.
  apply String.eqb_eq in E1, E2. congruence.
Qed.

(** A message that mentions [#100], [#0100] and [#7], with a remote system
    that knows work items under their decimal text only: three fetches, two
    work items. *)
Lemma processRepo_fetches_once_witness :
  let s' := snd (processRepo (scenarioRemote strictScenario) noOutsideText
                   (repoAt "A" "1.0") freshSys) in
  fetchedIds (calls (net s')) = ["100"; "0100"; "7"]
  /\ NoDup (map wi_id (workItems s')).
Proof.
  destruct (processRepo_fetches_once (scenarioRemote strictScenario) noOutsideText
              (repoAt "A" "1.0") freshSys)
    as (s' & r & newCalls & Hrun & Hres & Hcalls & _ & _ & Hdist).
  specialize (Hdist byDecimalText_distinct).
  vm_compute in Hrun. injection Hrun as <-.
  cbn [store processingResults app] in Hres. injection Hres as <-.
  split; [reflexivity | exact Hdist].
Defined.

(** The same message with a remote system that looks work items up by
    number: the result of the repository lists work item 100 twice, and the
    work item was fetched twice. *)
Lemma processRepo_duplicate_counterexample :
  let s' := snd (processReleases (scenarioRemote leadingZeroScenario) noOutsideText
                   [repoAt "A" "1.0"] freshSys) in
  map (fun r => map wi_id (itemsOf r)) (processingResults (store s'))
    = [[100%N; 100%N; 7%N]]
  /\ fetchedIds (calls (net s')) = ["100"; "0100"; "7"]
  /\ ~ NoDup [100%N; 100%N; 7%N].
Proof.
  split; [reflexivity|]. split; [reflexivity|].
  intros H. inversion H as [|? ? Hnotin _]. apply Hnotin. now left.
Qed.

(* ------------------------------------------------------------------ *)
(** ** The calls of a batch *)

Section CallFacts.

Context {W : Type}.
Variable remote : Remote W.
Variable outsideText : string -> BumpType -> string.

Lemma emits_fetchWorkItems ids :
  emits (@sysCalls W) releaseCall (fetchWorkItems remote ids).
Proof.
  unfold fetchWorkItems. apply emits_forEach. intros id.
  apply emits_tryCatch; [|intros e; apply emits_ret].
  apply emits_bind; [apply emits_svc, emits_getWorkItem; exact I|]. intros item.
  apply emits_bind; intros; now apply emits_same.
Qed.

Lemma emits_release repo :
  emits (@sysCalls W) releaseCall (release remote outsideText repo).
Proof.
  unfold release. cbv zeta.
  apply emits_bind; [apply emits_svc, emits_getMainBranchCommit; exact I|]. intros c.
  apply emits_bind; [apply emits_svc, emits_createBranch; exact I|]. intros _.
  apply emits_bind; [apply emits_svc, emits_createTag; exact I|]. intros _.
  apply emits_bind; [now apply emits_same|]. intros _.
  apply emits_bind.
  - destruct (oldTagNameOf repo) as [old|]; [|apply emits_ret].
    apply emits_tryCatch; [|intros e; apply emits_ret].
    apply emits_bind.
    { apply emits_svc, emits_getCommitsBetweenTags; try exact I. intros o. exact I. }
    intros commits. apply emits_bind.
    { apply emits_svc, emits_collectWorkItemIds. intros c0. exact I. }
    intros ids. apply emits_fetchWorkItems.
  - intros _. apply emits_bind; [now apply emits_same|]. intros items.
    now apply emits_same.
Qed.

Lemma emits_processReleases repositories :
  emits (@sysCalls W) releaseCall (processReleases remote outsideText repositories).
Proof.
  unfold processReleases.
  apply emits_bind; [now apply emits_same|]. intros _.
  apply emits_bind; [now apply emits_same|]. intros _.
  apply emits_bind; [now apply emits_same|]. intros _.
  apply emits_bind.
  - apply emits_forEach. intros repo. unfold processRepo.
    apply emits_tryCatch; [apply emits_release|]. intros e. now apply emits_same.
  - intros _. apply emits_bind; [now apply emits_same|]. intros items.
    apply emits_bind; [now apply emits_same|]. intros _. now apply emits_same.
Qed.

Lemma pullRequestsAsked_releaseCall d :
  Forall releaseCall d -> pullRequestsAsked d = [].
Proof.
  induction 1 as [|c d Hc Hd IH]; [reflexivity|].
  destruct c; simpl in *; try assumption; contradiction.
Qed.

(** Whatever the batch and the remote system, [processReleases] never
    invokes [getPullRequestWorkItems]. *)
Lemma processReleases_never_asks_pull_requests repositories (s : Sys W) :
  exists delta,
    calls (net (snd (processReleases remote outsideText repositories s)))
    = calls (net s) ++ delta
    /\ pullRequestsAsked delta = [].
Proof.
  destruct (processReleases remote outsideText repositories s) as [r s'] eqn:H.
  destruct (emits_processReleases repositories _ _ _ H) as (d & E & F).
  exists d. split; [exact E | now apply pullRequestsAsked_releaseCall].
Qed.

(** The number of a merged pull request goes into the set of work-item
    identifiers as it is. *)
Lemma commitIds_merged_pr commit ids pr :
  mergedPrMatch (comment commit) = Some pr -> In pr (commitIds commit ids).
Proof.
  intros Hpr. unfold commitIds. rewrite Hpr.
  assert (Hadd : forall s x, In x (JsSet.add s x)).
  { intros s0 x. unfold JsSet.add. destruct (JsSet.has s0 x) eqn:E.
    - unfold JsSet.has in E. apply existsb_exists in E.
      destruct E as (y & Hy & Heq). apply String.eqb_eq in Heq. now subst y.
    - apply in_or_app. right. now left. }
  assert (Hkeep : forall xs s x, In x s -> In x (JsSet.addAll s xs)).
  { unfold JsSet.addAll. induction xs as [|y xs IH]; intros s0 x Hx; simpl; [assumption|].
    apply IH. unfold JsSet.add. destruct (JsSet.has s0 y); [assumption|].
    apply in_or_app. now left. }
  apply Hkeep, Hadd.
Qed.

(** Without an old tag nothing is asked after the tag is created. *)
Lemma harvested_skipped repo n :
  oldTagNameOf repo = None -> harvested remote outsideText repo n = ([], n).
Proof. intros H. unfold harvested. now rewrite H. Qed.

Lemma invoked_first {A} c (k : Svc (W := W) A) n r n1 :
  emits calls (fun _ => True) k ->
  bind (invoked c) (fun _ => k) n = (r, n1) ->
  exists d, calls n1 = calls n ++ c :: d.
Proof.
  intros Hk. unfold bind, invoked. intros H.
  destruct (Hk _ _ _ H) as (d & E & _). exists d.
  rewrite E. cbn [calls]. now rewrite <- List.app_assoc.
Qed.

Lemma getCommitsBetweenTags_calls id old new n r n1 :
  getCommitsBetweenTags remote id old new n = (r, n1) ->
  exists d, calls n1 = calls n ++ CGetCommitsBetweenTags id old new
                         :: CGetRepositoryTags id :: d.
Proof.
  unfold getCommitsBetweenTags. unfold bind at 1. unfold invoked at 1.
  unfold bind at 1.
  destruct (getRepositoryTags remote id _) as [rt n2] eqn:Ht.
  unfold getRepositoryTags in Ht.
  apply invoked_first in Ht; [|apply emits_retryAsync, emits_request].
  destruct Ht as (d2 & E2). cbn [calls] in E2.
  destruct rt as [e|tags].
  - intros [= <- <-]. exists d2. rewrite E2, <- List.app_assoc. reflexivity.
  - intros H.
    match type of H with
    | ?c n2 = _ => assert (emits calls (fun _ => True) c) as Hem
    end.
    { destruct (find _ tags); [|apply emits_throw].
      destruct (find _ tags); [|apply emits_throw].
      apply emits_bind; [now apply emits_resolveTagCommitId|]. intros o.
      apply emits_bind; [now apply emits_resolveTagCommitId|]. intros o'.
      apply emits_retryAsync, emits_bind; [apply emits_request|].
      intros value. apply emits_ret. }
    destruct (Hem _ _ _ H) as (d3 & E3 & _).
    exists (d2 ++ d3). rewrite E3, E2, <- !List.app_assoc. reflexivity.
Qed.

(** With an old tag the range is asked for, whatever the tag is. *)
Lemma harvested_asks repo old n :
  oldTagNameOf repo = Some old ->
  exists rest,
    calls (snd (harvested remote outsideText repo n))
    = calls n ++ CGetCommitsBetweenTags (repo_id repo) old (newVersionOf outsideText repo)
                 :: CGetRepositoryTags (repo_id repo) :: rest.
Proof.
  intros H. unfold harvested. rewrite H. unfold harvest.
  destruct (getCommitsBetweenTags remote (repo_id repo) old
              (newVersionOf outsideText repo) n) as [r n1] eqn:Hg.
  apply getCommitsBetweenTags_calls in Hg. destruct Hg as [d Hd].
  destruct r as [e|commits]; cbn [snd]; [now exists d|].
  destruct (collectWorkItemIds_returns remote (repo_id repo) commits [] n1 (NoDup_nil _))
    as (ids & n2 & Hc & _ & Hcalls).
  rewrite Hc. rewrite fetchRun_calls, Hcalls, Hd.
  eexists. rewrite <- !List.app_assoc. cbn [app]. reflexivity.
Qed.

End CallFacts.

(* ------------------------------------------------------------------ *)
(** ** Pull requests *)

(** C2 (what the code does at the example of the specification). The commit
    "Merged PR 42: fixes AB#100 and #200" carries a link to 300, and pull
    request 42 is linked to work item 400, as [getPullRequestWorkItems] would
    report.  [processReleases] does not ask: it takes 42 itself for a
    work-item identifier, so that the work items fetched are 300, 42, 100 and
    200, and 400 is not among them. *)
Theorem processReleases_merged_pr_example :
  let s' := snd (processReleases (scenarioRemote mergedPrScenario) noOutsideText
                   [repoAt "A" "1.0"] freshSys) in
  fst (getPullRequestWorkItems (scenarioRemote mergedPrScenario) "A" "42" (mkNet 0%nat []))
    = inr ["400"]
  /\ fetchedIds (calls (net s')) = ["300"; "42"; "100"; "200"]
  /\ pullRequestsAsked (calls (net s')) = []
  /\ map wi_id (consolidatedWorkItems (store s')) = [300%N; 42%N; 100%N; 200%N].
Proof.
  cbv zeta. repeat split; vm_compute; reflexivity.
Qed.

(* ------------------------------------------------------------------ *)
(** ** Repositories without a version *)

Section SentinelFacts.

Context {W : Type}.
Variable remote : Remote W.
Variable outsideText : string -> BumpType -> string.

Lemma oldTagNameOf_none repo :
  currentVersion repo = None \/ currentVersion repo = Some EmptyString
  \/ currentVersion repo = Some NO_RELEASES ->
  oldTagNameOf repo = None.
Proof. unfold oldTagNameOf. intros [H|[H|H]]; rewrite H; reflexivity. Qed.

Lemma oldTagNameOf_error_loading repo :
  currentVersion repo = Some ERROR_LOADING ->
  oldTagNameOf repo = Some ERROR_LOADING.
Proof. unfold oldTagNameOf. intros ->. reflexivity. Qed.

(** A repository that has no version, or ['No releases'] for one: once the
    release is created nothing more is asked and the result is a success
    with no work item. *)
Lemma outcome_skips repo n n1 :
  currentVersion repo = None \/ currentVersion repo = Some EmptyString
  \/ currentVersion repo = Some NO_RELEASES ->
  creation remote outsideText repo n = (inr tt, n1) ->
  outcome remote outsideText repo n
  = (mkResult (repo_name repo) true (Some (newVersionOf outsideText repo)) None (Some []),
     n1).
Proof.
  intros Hv Hc. unfold outcome. rewrite Hc.
  now rewrite (harvested_skipped remote outsideText repo n1 (oldTagNameOf_none repo Hv)).
Qed.

(** A repository whose version is ['Error loading']: once the release is
    created, the commits between the tag [Error loading] and the new tag are
    asked for. *)
Lemma outcome_error_loading_asks repo n n1 :
  currentVersion repo = Some ERROR_LOADING ->
  creation remote outsideText repo n = (inr tt, n1) ->
  exists rest,
    calls (snd (outcome remote outsideText repo n))
    = calls n1 ++ CGetCommitsBetweenTags (repo_id repo) ERROR_LOADING
                    (newVersionOf outsideText repo)
                  :: CGetRepositoryTags (repo_id repo) :: rest.
Proof.
  intros Hv Hc. unfold outcome. rewrite Hc.
  destruct (harvested_asks remote outsideText repo ERROR_LOADING n1
              (oldTagNameOf_error_loading repo Hv)) as [rest Hrest].
  exists rest. destruct (harvested remote outsideText repo n1) as [items n2].
  exact Hrest.
Qed.

End SentinelFacts.

(** The two texts that [calculateNewVersion] takes for sentinels, side by
    side.  For a repository marked ['No releases'] the calls stop after the
    tag is created.  For a repository marked ['Error loading'], a text that
    the selector never stores, the range between the tags [Error loading]
    and [1.0] would be asked for and the tags listed; the result would be
    the success with no work item only because no such tag is found. *)
Theorem processReleases_error_loading_example :
  let run := fun repo =>
    snd (processReleases (scenarioRemote refusedScenario) noOutsideText [repo] freshSys) in
  calls (net (run noReleasesRepo))
    = [CGetMainBranchCommit "A";
       CCreateBranch "A" "refs/heads/release/1.0.x" "refs/heads/main";
       CCreateTag "A" "1.0" "c9" "Release 1.0"]
  /\ calls (net (run errorLoadingRepo))
    = [CGetMainBranchCommit "A";
       CCreateBranch "A" "refs/heads/release/1.0.x" "refs/heads/main";
       CCreateTag "A" "1.0" "c9" "Release 1.0";
       CGetCommitsBetweenTags "A" "Error loading" "1.0";
       CGetRepositoryTags "A"]
  /\ processingResults (store (run errorLoadingRepo))
    = [mkResult "A" true (Some "1.0") None (Some [])]
  /\ isSentinel (currentVersion errorLoadingRepo) = true.
Proof.
  cbv zeta. repeat split; vm_compute; reflexivity.
Qed.

(* ------------------------------------------------------------------ *)
(** ** The branch-based revision *)

(** In the branch-based revision a repository whose new branch is listed
    gets its result, and a repository whose new branch is not listed after
    it was created gets none, neither success nor failure. *)
Lemma branchBased_unlisted_branch_example :
  processingResults
    (store (snd (BranchBased.processReleases (listingRemote true) noOutsideText
                   [repoAt "A" "1.0"] freshSys)))
  = [mkResult "A" true (Some "1.1") None (Some [item 7])]
  /\ processingResults
       (store (snd (BranchBased.processReleases (listingRemote false) noOutsideText
                      [repoAt "A" "1.0"] freshSys)))
     = [].
Proof. split; vm_compute; reflexivity. Qed.

(* ------------------------------------------------------------------ *)
(** ** The attempts of [retryAsync] *)

Lemma retryLoop_done {St A} (fn : Eff St A) last s :
  retryLoop 0 last fn s = (inl (thrownAfter last), s).
Proof. destruct last as [[m|[]]|]; reflexivity. Qed.

Lemma retryLoop_bounded {St A} (fn : Eff St A) (count : St -> nat) :
  (forall s, count (snd (fn s)) = S (count s)) ->
  forall k last s r s', retryLoop k last fn s = (r, s') ->
    match r with
    | inr a =>
        (count s < count s' <= count s + k)%nat /\ exists s0, fn s0 = (inr a, s')
    | inl e =>
        count s' = (count s + k)%nat
        /\ ((k = 0%nat /\ e = thrownAfter last)
            \/ exists s0 e0, fn s0 = (inl e0, s') /\ e = thrownAfter (Some e0))
    end.
Proof.
  intros Hc k. induction k as [|k IH]; intros last s r s' H.
  - rewrite retryLoop_done in H. inversion H; subst. split; [lia | left; auto].
  - simpl in H. pose proof (Hc s) as Hs.
    destruct (fn s) as [[e1|a1] s1] eqn:E1; simpl in Hs.
    + specialize (IH (Some e1) s1 r s' H). destruct r as [e|a].
      * destruct IH as [Hn [[-> ->]|Hlast]].
        -- split; [lia|]. right. exists s, e1.
           rewrite retryLoop_done in H. inversion H; subst. auto.
        -- split; [lia | right; exact Hlast].
      * destruct IH as [Hn Hfn]. split; [lia | exact Hfn].
    + inversion H; subst. split; [lia | exists s; exact E1].
Qed.

(** X1: [retryAsync] makes at least one attempt and at most three.  What it
    returns is what the last attempt returned; it throws only after three
    attempts, and then what the third attempt threw, or the [Error] "Max
    retry attempts reached" when that was a falsy value. *)
Theorem retryAsync_bounded {St A} (fn : Eff St A) (count : St -> nat) :
  (forall s, count (snd (fn s)) = S (count s)) ->
  forall s r s', retryAsync fn s = (r, s') ->
    (count s < count s' <= count s + 3)%nat
    /\ match r with
       | inr a => exists s0, fn s0 = (inr a, s')
       | inl e =>
           count s' = (count s + 3)%nat
           /\ exists s0 e0, fn s0 = (inl e0, s') /\ e = thrownAfter (Some e0)
       end.
Proof.
  intros Hc s r s' H. unfold retryAsync, maxAttempts in H.
  pose proof (retryLoop_bounded fn count Hc _ _ _ _ _ H) as B.
  destruct r as [e|a].
  - destruct B as [Hn [[K _]|Hlast]]; [discriminate|]. split; [lia|]. split; assumption.
  - destruct B as [Hn Hfn]. split; assumption.
Qed.

Lemma retryAsync_bounded_witness :
  (0 < 3 <= 0 + 3)%nat /\ exists s0, flaky 2 s0 = (inr 2%nat, 3%nat).
Proof.
  apply (retryAsync_bounded (flaky 2) (fun sent => sent) (fun sent => eq_refl)
           0%nat (inr 2%nat) 3%nat).
  reflexivity.
Defined.

(* ------------------------------------------------------------------ *)
(** ** Missing refs *)

Section MissingRefs.

Context {W : Type}.
Variable remote : Remote W.
Variable outsideText : string -> BumpType -> string.

Lemma getMainBranchCommit_missing id (n : Net W) :
  (forall w, exists w', httpGetRefs remote id "heads/main" w = (inr [], w')) ->
  exists w3,
    getMainBranchCommit remote id n
    = (inl (JsError "Main branch not found"),
       mkNet w3 (calls n ++ [CGetMainBranchCommit id])).
Proof.
  intros H. unfold getMainBranchCommit, invoked, retryAsync, maxAttempts, bind, request.
  cbn [retryLoop world calls].
  destruct (H (world n)) as [w1 E1]. rewrite E1. cbn [world calls throw].
  destruct (H w1) as [w2 E2]. rewrite E2. cbn [world calls throw].
  destruct (H w2) as [w3 E3]. rewrite E3. cbn [world calls throw].
  exists w3. reflexivity.
Qed.

Lemma getRepositoryTags_first id (n : Net W) tags w1 :
  httpGetRefs remote id "tags" (world n) = (inr tags, w1) ->
  getRepositoryTags remote id n = (inr tags, mkNet w1 (calls n ++ [CGetRepositoryTags id])).
Proof.
  intros H. unfold getRepositoryTags, invoked, retryAsync, maxAttempts, bind, request.
  cbn [retryLoop world calls]. rewrite H. reflexivity.
Qed.

Lemma find_absent {A} (p : A -> bool) l :
  (forall x, In x l -> p x = false) -> find p l = None.
Proof.
  induction l as [|x l IH]; intros H; [reflexivity|].
  simpl. rewrite (H x (or_introl eq_refl)). apply IH. intros y Hy. apply H. now right.
Qed.

End MissingRefs.

(** X2: a repository that has no branch [main] is recorded as a failure with
    the message "Main branch not found", and neither the branch nor the tag
    of the release is asked for: the only method of the service invoked is
    [getMainBranchCommit]. *)
Theorem processRepo_no_main_branch {W} (remote : Remote W)
    (outsideText : string -> BumpType -> string) (repo : Repository) (s : Sys W) :
  (forall w, exists w', httpGetRefs remote (repo_id repo) "heads/main" w = (inr [], w')) ->
  exists s',
    processRepo remote outsideText repo s = (inr tt, s')
    /\ processingResults (store s')
       = processingResults (store s)
         ++ [mkResult (repo_name repo) false None (Some "Main branch not found") None]
    /\ sysCalls s' = sysCalls s ++ [CGetMainBranchCommit (repo_id repo)]
    /\ allWorkItems s' = allWorkItems s.
Proof.
  intros H. destruct (getMainBranchCommit_missing remote (repo_id repo) (net s) H) as [w3 E].
  destruct (processRepo_run remote outsideText repo s) as [wk R].
  assert (O : outcome remote outsideText repo (net s)
              = (mkResult (repo_name repo) false None (Some "Main branch not found") None,
                 mkNet w3 (calls (net s) ++ [CGetMainBranchCommit (repo_id repo)]))).
  { unfold outcome, creation, bind. rewrite E. reflexivity. }
  rewrite O in R. eexists. split; [exact R|].
  cbn. rewrite List.app_nil_r. repeat split.
Qed.

Lemma processRepo_no_main_branch_witness :
  exists s',
    processRepo bareRemote noOutsideText (repoAt "A" "1.0") freshSys = (inr tt, s')
    /\ processingResults (store s')
       = [] ++ [mkResult "A" false None (Some "Main branch not found") None]
    /\ sysCalls s' = [] ++ [CGetMainBranchCommit "A"]
    /\ allWorkItems s' = [].
Proof.
  apply (processRepo_no_main_branch bareRemote noOutsideText (repoAt "A" "1.0") freshSys).
  intros w. eexists. reflexivity.
Defined.

(** X3: when the tags of the repository are listed and one of the two tags
    is not among them, [getCommitsBetweenTags] throws "Tags not found: old or
    new" at once: no tag is dereferenced and no commit is requested. *)
Theorem getCommitsBetweenTags_missing_tag {W} (remote : Remote W)
    (repositoryId oldTag newTag : string) (n : Net W) (tags : list GitRef) (w1 : W) :
  httpGetRefs remote repositoryId "tags" (world n) = (inr tags, w1) ->
  (forall t, In t tags -> ref_name t <> ("refs/tags/" ++ oldTag)%string)
  \/ (forall t, In t tags -> ref_name t <> ("refs/tags/" ++ newTag)%string) ->
  getCommitsBetweenTags remote repositoryId oldTag newTag n
  = (inl (JsError ("Tags not found: " ++ oldTag ++ " or " ++ newTag)%string),
     mkNet w1 (calls n ++ [CGetCommitsBetweenTags repositoryId oldTag newTag;
                           CGetRepositoryTags repositoryId])).
Proof.
  intros Htags Habsent. unfold getCommitsBetweenTags.
  unfold bind at 1. unfold invoked at 1.
  erewrite bind_inr; [|apply getRepositoryTags_first; exact Htags].
  cbn [world calls]. rewrite <- List.app_assoc. cbn [app].
  destruct Habsent as [Ho|Hn].
  - rewrite (find_absent (fun t => String.eqb (ref_name t) ("refs/tags/" ++ oldTag)%string)).
    + reflexivity.
    + intros t Ht. apply String.eqb_neq. now apply Ho.
  - rewrite (find_absent (fun t => String.eqb (ref_name t) ("refs/tags/" ++ newTag)%string)).
    + destruct (find _ tags); reflexivity.
    + intros t Ht. apply String.eqb_neq. now apply Hn.
Qed.

Lemma getCommitsBetweenTags_missing_tag_witness :
  getCommitsBetweenTags (scenarioRemote refusedScenario) "A" "0.9" "1.1" (mkNet 0%nat [])
  = (inl (JsError "Tags not found: 0.9 or 1.1"),
     mkNet 0%nat [CGetCommitsBetweenTags "A" "0.9" "1.1"; CGetRepositoryTags "A"]).
Proof.
  apply (getCommitsBetweenTags_missing_tag (scenarioRemote refusedScenario)
           "A" "0.9" "1.1" (mkNet 0%nat []) tags_1_0_1_1 0%nat).
  - reflexivity.
  - left. intros t [<-|[<-|[]]]; discriminate.
Defined.

(** X4: a failure of [getCommitsBetweenTags] does not fail the repository:
    once the branch and the tag exist, the repository is recorded as a
    success with its new version and no work item, and nothing is added to
    the work items of the batch. *)
Theorem processRepo_range_failure {W} (remote : Remote W)
    (outsideText : string -> BumpType -> string) (repo : Repository) (s : Sys W)
    (old : string) (n1 n2 : Net W) (e : Thrown) :
  creation remote outsideText repo (net s) = (inr tt, n1) ->
  oldTagNameOf repo = Some old ->
  getCommitsBetweenTags remote (repo_id repo) old (newVersionOf outsideText repo) n1
  = (inl e, n2) ->
  exists s',
    processRepo remote outsideText repo s = (inr tt, s')
    /\ processingResults (store s')
       = processingResults (store s)
         ++ [mkResult (repo_name repo) true (Some (newVersionOf outsideText repo)) None
               (Some [])]
    /\ net s' = n2
    /\ allWorkItems s' = allWorkItems s.
Proof.
  intros Hc Hold Hr.
  destruct (processRepo_run remote outsideText repo s) as [wk R].
  assert (O : outcome remote outsideText repo (net s)
              = (mkResult (repo_name repo) true (Some (newVersionOf outsideText repo)) None
                   (Some []), n2)).
  { unfold outcome. rewrite Hc. unfold harvested. rewrite Hold.
    unfold harvest. rewrite Hr. reflexivity. }
  rewrite O in R. eexists. split; [exact R|].
  cbn. rewrite List.app_nil_r. repeat split.
Qed.

Lemma processRepo_range_failure_witness :
  exists s',
    processRepo (scenarioRemote missingScenario) noOutsideText (repoAt "A" "1.0") freshSys
    = (inr tt, s')
    /\ processingResults (store s') = [] ++ [mkResult "A" true (Some "1.1") None (Some [])]
    /\ net s' = mkNet 0%nat
                  [CGetMainBranchCommit "A";
                   CCreateBranch "A" "refs/heads/release/1.1.x" "refs/heads/main";
                   CCreateTag "A" "1.1" "c9" "Release 1.1";
                   CGetCommitsBetweenTags "A" "1.0" "1.1";
                   CGetRepositoryTags "A"]
    /\ allWorkItems s' = [].
Proof.
  apply (processRepo_range_failure (scenarioRemote missingScenario) noOutsideText
           (repoAt "A" "1.0") freshSys "1.0"
           (mkNet 0%nat
              [CGetMainBranchCommit "A";
               CCreateBranch "A" "refs/heads/release/1.1.x" "refs/heads/main";
               CCreateTag "A" "1.1" "c9" "Release 1.1"])
           _ (JsError "Tags not found: 1.0 or 1.1")).
  - vm_compute. reflexivity.
  - reflexivity.
  - vm_compute. reflexivity.
Defined.

(* ------------------------------------------------------------------ *)
(** ** The names of release branches *)

Lemma startsWith_app p s : Js.startsWith false p (p ++ s) = true.
Proof.
  induction p as [|c p IH]; [reflexivity|].
  simpl. unfold Js.eqChar. now rewrite Ascii.eqb_refl.
Qed.

Lemma spanDigits_stop d c r :
  Js.everyDigit d = true -> Js.isDigit c = false ->
  Js.spanDigits (d ++ String c r) = (d, String c r).
Proof.
  intros Hd Hc. induction d as [|x d IH]; simpl.
  - now rewrite Hc.
  - simpl in Hd. apply andb_prop in Hd. destruct Hd as [Hx Hd].
    rewrite Hx, (IH Hd). reflexivity.
Qed.

Lemma truthy_nonempty s : s <> EmptyString -> Js.truthy s = true.
Proof. destruct s; [congruence | reflexivity]. Qed.

Lemma releaseVersionAt_name major minor rest :
  Js.everyDigit major = true -> major <> EmptyString ->
  Js.everyDigit minor = true -> minor <> EmptyString ->
  releaseVersionAt ("refs/heads/release/" ++ major ++ "." ++ minor ++ ".x" ++ rest)
  = Some (major ++ "." ++ minor)%string.
Proof.
  intros HM HMne Hm Hmne. unfold releaseVersionAt.
  rewrite startsWith_app.
  change (Js.drop 19 ("refs/heads/release/" ++ major ++ "." ++ minor ++ ".x" ++ rest))
    with (major ++ String "." (minor ++ String "." (String "x" rest)))%string.
  rewrite (spanDigits_stop major "." _ HM eq_refl).
  rewrite (spanDigits_stop minor "." _ Hm eq_refl).
  rewrite (truthy_nonempty _ HMne), (truthy_nonempty _ Hmne).
  reflexivity.
Qed.

Lemma releaseVersionMatch_name major minor rest :
  Js.everyDigit major = true -> major <> EmptyString ->
  Js.everyDigit minor = true -> minor <> EmptyString ->
  releaseVersionMatch ("refs/heads/release/" ++ major ++ "." ++ minor ++ ".x" ++ rest)
  = Some (major ++ "." ++ minor)%string.
Proof.
  intros HM HMne Hm Hmne.
  destruct ("refs/heads/release/" ++ major ++ "." ++ minor ++ ".x" ++ rest)%string
    eqn:E; cbn [releaseVersionMatch]; rewrite <- E;
    now rewrite releaseVersionAt_name.
Qed.

(** X5: the pattern of [getLatestReleaseVersion] is not anchored at its end:
    a branch named [refs/heads/release/], a run of digits, a dot, a run of
    digits and [.x] is read as that version whatever follows the [.x], and
    it passes the filter on the prefix. *)
Theorem releaseVersionMatch_branch_name (major minor rest : string) :
  Js.everyDigit major = true -> major <> EmptyString ->
  Js.everyDigit minor = true -> minor <> EmptyString ->
  let name := ("refs/heads/release/" ++ major ++ "." ++ minor ++ ".x" ++ rest)%string in
  releaseVersionMatch name = Some (major ++ "." ++ minor)%string
  /\ Js.startsWith false "refs/heads/release/" name = true.
Proof.
  intros HM HMne Hm Hmne name. split.
  - now apply releaseVersionMatch_name.
  - apply startsWith_app.
Qed.

Lemma releaseVersionMatch_branch_name_witness :
  releaseVersionMatch "refs/heads/release/01.2.x-hotfix" = Some "01.2"
  /\ Js.startsWith false "refs/heads/release/" "refs/heads/release/01.2.x-hotfix" = true.
Proof.
  apply (releaseVersionMatch_branch_name "01" "2" "-hotfix").
  - reflexivity.
  - discriminate.
  - reflexivity.
  - discriminate.
Defined.

(* ------------------------------------------------------------------ *)
(** ** What a commit message yields *)

Lemma literalDigitsAt_digits ignoreCase literal s d len :
  literalDigitsAt ignoreCase literal s = Some (d, len) ->
  Js.everyDigit d = true /\ d <> EmptyString.
Proof.
  unfold literalDigitsAt. destruct (Js.startsWith ignoreCase literal s); [|discriminate].
  pose proof (spanDigits_everyDigit (Js.drop (String.length literal) s)) as Hd.
  destruct (Js.spanDigits (Js.drop (String.length literal) s)) as [digits r].
  cbn [fst] in Hd. destruct digits as [|c digits]; [discriminate|].
  cbn [Js.truthy]. intros H. injection H as <- _. split; [exact Hd | discriminate].
Qed.

Lemma mergedPrMatch_digits s pr :
  mergedPrMatch s = Some pr -> Js.everyDigit pr = true /\ pr <> EmptyString.
Proof.
  induction s as [|c s IH]; cbn [mergedPrMatch].
  - destruct (literalDigitsAt true "Merged PR " EmptyString) as [[d len]|] eqn:E;
      [|discriminate].
    intros H. injection H as <-. exact (literalDigitsAt_digits _ _ _ _ _ E).
  - destruct (literalDigitsAt true "Merged PR " (String c s)) as [[d len]|] eqn:E;
      [|exact IH].
    intros H. injection H as <-. exact (literalDigitsAt_digits _ _ _ _ _ E).
Qed.

Lemma workItemRefAt_digits s g1 g2 len id :
  workItemRefAt s = Some (g1, g2, len) -> orGroup g1 g2 = Some id ->
  Js.everyDigit id = true /\ id <> EmptyString.
Proof.
  unfold workItemRefAt.
  destruct (literalDigitsAt true "#" s) as [[d l]|] eqn:E1.
  - intros H. injection H as <- <- _. apply literalDigitsAt_digits in E1.
    unfold orGroup. destruct (Js.truthy d); [|discriminate].
    intros K. injection K as <-. exact E1.
  - destruct (literalDigitsAt true "AB#" s) as [[d l]|] eqn:E2; [|discriminate].
    intros H. injection H as <- <- _. apply literalDigitsAt_digits in E2.
    cbn [orGroup]. intros K. injection K as <-. exact E2.
Qed.

Lemma workItemRefsFrom_digits s skip id :
  In id (workItemRefsFrom skip s) -> Js.everyDigit id = true /\ id <> EmptyString.
Proof.
  revert skip. induction s as [|c s IH]; intros skip; cbn [workItemRefsFrom].
  - intros [].
  - destruct skip as [|k]; [|apply IH].
    destruct (workItemRefAt (String c s)) as [[[g1 g2] len]|] eqn:E; [|apply IH].
    destruct (orGroup g1 g2) as [x|] eqn:G; [|apply IH].
    intros [<-|H]; [exact (workItemRefAt_digits _ _ _ _ _ E G) | exact (IH _ H)].
Qed.

(** X6: whatever the two patterns take from a commit message - the number
    after "Merged PR" and every reference [#n] or [AB#n] - is a run of
    decimal digits that is not empty. *)
Theorem workItemRefs_digits (message id : string) :
  mergedPrMatch message = Some id \/ In id (workItemRefs message) ->
  Js.everyDigit id = true /\ id <> EmptyString.
Proof.
  intros [H|H]; [exact (mergedPrMatch_digits _ _ H) | exact (workItemRefsFrom_digits _ _ _ H)].
Qed.

Lemma workItemRefs_digits_witness :
  Js.everyDigit "0100" = true /\ "0100" <> EmptyString.
Proof.
  apply (workItemRefs_digits "merged pr 42: see ab#0100, #7x and # 8" "0100").
  right. vm_compute. left. reflexivity.
Defined.

(* ------------------------------------------------------------------ *)
(** ** Where the identifiers of a range come from *)

Lemma JsSet_has_true s x : JsSet.has s x = true -> In x s.
Proof.
  unfold JsSet.has. intros H. apply existsb_exists in H.
  destruct H as [y [Hy E]]. apply String.eqb_eq in E. now subst.
Qed.

Lemma JsSet_add_in s y x : In x (JsSet.add s y) <-> In x s \/ x = y.
Proof.
  unfold JsSet.add. destruct (JsSet.has s y) eqn:E.
  - split; [auto|]. intros [H| ->]; [exact H | now apply JsSet_has_true].
  - rewrite in_app_iff. simpl. intuition.
Qed.

Lemma JsSet_addAll_in xs s x : In x (JsSet.addAll s xs) <-> In x s \/ In x xs.
Proof.
  unfold JsSet.addAll. revert s. induction xs as [|y xs IH]; intros s; simpl.
  - intuition.
  - rewrite IH, JsSet_add_in. intuition.
Qed.

Lemma JsSet_add_extends s y : exists more, JsSet.add s y = s ++ more.
Proof.
  unfold JsSet.add. destruct (JsSet.has s y).
  - exists []. now rewrite List.app_nil_r.
  - now exists [y].
Qed.

Lemma JsSet_addAll_extends xs s : exists more, JsSet.addAll s xs = s ++ more.
Proof.
  unfold JsSet.addAll. revert s. induction xs as [|y xs IH]; intros s; simpl.
  - exists []. now rewrite List.app_nil_r.
  - destruct (JsSet_add_extends s y) as [m1 E1]. destruct (IH (JsSet.add s y)) as [m2 E2].
    exists (m1 ++ m2). now rewrite E2, E1, List.app_assoc.
Qed.

Lemma JsSet_addAll_app s xs ys :
  JsSet.addAll s (xs ++ ys) = JsSet.addAll (JsSet.addAll s xs) ys.
Proof. unfold JsSet.addAll. apply fold_left_app. Qed.

(** The three additions of the loop body are additions of [mentionedIds]. *)
Lemma commitIds_mentioned commit ids :
  commitIds commit ids = JsSet.addAll ids (mentionedIds commit).
Proof.
  unfold commitIds, mentionedIds. rewrite !JsSet_addAll_app. f_equal.
  destruct (commit_workItems commit) as [[|wi wis]|];
    destruct (mergedPrMatch (comment commit)); reflexivity.
Qed.

Section CollectSources.

Context {W : Type}.
Variable remote : Remote W.

Lemma getCommitWorkItems_answer id c (n : Net W) l n' :
  getCommitWorkItems remote id c n = (inr l, n') ->
  l = [] \/ exists w w', httpGetCommitWorkItems remote id c w = (inr l, w').
Proof.
  unfold getCommitWorkItems, bind, invoked, tryCatch.
  destruct (retryAsync _ _) as [[e|l0] n0] eqn:E.
  - unfold ret. intros H. injection H as <- _. now left.
  - intros H. injection H as <- _. right.
    apply retryLoop_inr in E. destruct E as [s0 E]. unfold request in E.
    destruct (httpGetCommitWorkItems remote id c (world s0)) as [r w'] eqn:Ew.
    injection E as -> _. now exists (world s0), w'.
Qed.

End CollectSources.

(** X7: the set of identifiers built over the commits of a range loses
    nothing and invents nothing.  The identifiers it started from come
    first, in their order; every identifier a commit names - a link, the
    number of a merged pull request, a reference of the message - is in the
    set; and every identifier of the set was there at the start, is named by
    a commit, or was answered by the remote system for a commit. *)
Theorem collectWorkItemIds_complete {W} (remote : Remote W)
    (repositoryId : string) (commits : list GitCommit) (workItemIds : list string)
    (n : Net W) (out : list string) (n' : Net W) :
  collectWorkItemIds remote repositoryId commits workItemIds n = (inr out, n') ->
  (exists more, out = workItemIds ++ more)
  /\ (forall c x, In c commits -> In x (mentionedIds c) -> In x out)
  /\ (forall x, In x out ->
        In x workItemIds
        \/ (exists c, In c commits /\ In x (mentionedIds c))
        \/ (exists c w l w', In c commits
              /\ httpGetCommitWorkItems remote repositoryId (commitId c) w = (inr l, w')
              /\ In x l)).
Proof.
  revert workItemIds n. induction commits as [|c commits IH]; intros ids n H.
  - cbn in H. injection H as <- _. split; [|split].
    + exists []. now rewrite List.app_nil_r.
    + intros c x [].
    + intros x Hx. now left.
  - cbn [collectWorkItemIds] in H. unfold bind in H.
    destruct (getCommitWorkItems remote repositoryId (commitId c) n) as [[e|l] n1] eqn:E;
      [discriminate H|].
    apply IH in H. destruct H as [[more Hm] [Hin Hout]].
    rewrite commitIds_mentioned in *.
    split; [|split].
    + destruct (JsSet_addAll_extends (mentionedIds c) ids) as [m1 E1].
      destruct (JsSet_addAll_extends l (JsSet.addAll ids (mentionedIds c))) as [m2 E2].
      exists (m1 ++ m2 ++ more). rewrite Hm, E2, E1, <- !List.app_assoc. reflexivity.
    + intros c0 x [<-|Hc] Hx; [|exact (Hin c0 x Hc Hx)].
      rewrite Hm. apply in_or_app. left.
      apply JsSet_addAll_in. left. apply JsSet_addAll_in. now right.
    + intros x Hx. apply Hout in Hx. destruct Hx as [Hx|[Hx|Hx]].
      * apply JsSet_addAll_in in Hx. destruct Hx as [Hx|Hx].
        -- apply JsSet_addAll_in in Hx. destruct Hx as [Hx|Hx]; [now left|].
           right. left. exists c. split; [now left | exact Hx].
        -- right. right. apply getCommitWorkItems_answer in E.
           destruct E as [->|[w [w' Ew]]]; [destruct Hx|].
           exists c, w, l, w'. repeat split; [now left | exact Ew | exact Hx].
      * destruct Hx as [c0 [Hc Hx]]. right. left. exists c0. split; [now right | exact Hx].
      * destruct Hx as [c0 [w [l0 [w' [Hc [Ew Hx]]]]]]. right. right.
        exists c0, w, l0, w'. repeat split; [now right | exact Ew | exact Hx].
Qed.

Lemma collectWorkItemIds_complete_witness :
  (exists more, ["300"; "42"; "100"; "200"; "7"] = [] ++ more)
  /\ (forall c x,
        In c [mkGitCommit "c9" "Merged PR 42: fixes AB#100 and #200"
                (Some [mkWorkItemReference "300" "https://dev.azure.com/_workitems/300"])] ->
        In x (mentionedIds c) -> In x ["300"; "42"; "100"; "200"; "7"])
  /\ (forall x, In x ["300"; "42"; "100"; "200"; "7"] ->
        In x []
        \/ (exists c,
              In c [mkGitCommit "c9" "Merged PR 42: fixes AB#100 and #200"
                      (Some [mkWorkItemReference "300" "https://dev.azure.com/_workitems/300"])]
              /\ In x (mentionedIds c))
        \/ (exists c w l w',
              In c [mkGitCommit "c9" "Merged PR 42: fixes AB#100 and #200"
                      (Some [mkWorkItemReference "300" "https://dev.azure.com/_workitems/300"])]
              /\ httpGetCommitWorkItems (listingRemote true) "A" (commitId c) w = (inr l, w')
              /\ In x l)).
Proof.
  apply (collectWorkItemIds_complete (listingRemote true) "A"
           [mkGitCommit "c9" "Merged PR 42: fixes AB#100 and #200"
              (Some [mkWorkItemReference "300" "https://dev.azure.com/_workitems/300"])]
           [] (mkNet 0%nat []) ["300"; "42"; "100"; "200"; "7"]
           (mkNet 0%nat [CGetCommitWorkItems "A" "c9"])).
  vm_compute. reflexivity.
Defined.

(* ------------------------------------------------------------------ *)
(** ** Work items that are already distinct *)

Lemma set_fresh {V} (m : list (N * V)) k v :
  ~ In k (map fst m) -> JsMap.set m k v = m ++ [(k, v)].
Proof.
  induction m as [|[k' v'] m IH]; intros H; [reflexivity|].
  cbn [JsMap.set]. destruct (N.eqb_spec k' k) as [->|Hne].
  - exfalso. apply H. now left.
  - cbn [app]. f_equal. apply IH. intros K. apply H. now right.
Qed.

Lemma fold_put_fresh {V} (entries m : list (N * V)) :
  NoDup (map fst (m ++ entries)) -> fold_left JsMap.put entries m = m ++ entries.
Proof.
  revert m. induction entries as [|[k v] entries IH]; intros m H.
  - now rewrite List.app_nil_r.
  - cbn [fold_left]. unfold JsMap.put at 2. cbn [fst snd].
    assert (Hk : ~ In k (map fst m)).
    { rewrite map_app in H. cbn [map fst] in H. apply NoDup_remove_2 in H.
      intros K. apply H. apply in_or_app. now left. }
    rewrite (set_fresh m k v Hk). rewrite IH.
    + now rewrite <- List.app_assoc.
    + now rewrite <- List.app_assoc.
Qed.

Lemma uniqueWorkItems_fresh items :
  NoDup (map wi_id items) -> uniqueWorkItems items = items.
Proof.
  intros H. unfold uniqueWorkItems, JsMap.ofEntries.
  rewrite fold_put_fresh.
  - cbn [app]. unfold JsMap.values, entriesOf. rewrite map_map. cbn [snd]. apply map_id.
  - cbn [app]. now rewrite keys_entriesOf.
Qed.

(** X8: work items whose identifiers are all different pass through the
    consolidation unchanged, in the same order; so the consolidation of a
    consolidated list changes nothing. *)
Theorem uniqueWorkItems_distinct (items : list WorkItem) :
  NoDup (map wi_id items) ->
  uniqueWorkItems items = items
  /\ uniqueWorkItems (uniqueWorkItems items) = uniqueWorkItems items.
Proof.
  intros H. split; [now apply uniqueWorkItems_fresh|].
  apply uniqueWorkItems_fresh, uniqueWorkItems_NoDup.
Qed.

Lemma uniqueWorkItems_distinct_witness :
  uniqueWorkItems [item 7; item 3; item 5] = [item 7; item 3; item 5]
  /\ uniqueWorkItems (uniqueWorkItems [item 7; item 3; item 5])
     = uniqueWorkItems [item 7; item 3; item 5].
Proof.
  apply (uniqueWorkItems_distinct [item 7; item 3; item 5]).
  repeat constructor; cbn; intuition discriminate.
Defined.

(* ------------------------------------------------------------------ *)
(** ** What a batch keeps of the store it finds *)

(** X9: a batch starts from a store that was reset: the results and the
    consolidated work items it leaves, and the flag [isProcessing], which is
    false at its end, do not depend on what the store and the two arrays
    held before, only on the remote system and the repositories. *)
Theorem processReleases_forgets_store {W} (remote : Remote W)
    (outsideText : string -> BumpType -> string)
    (repositories : list Repository) (s1 s2 : Sys W) :
  net s1 = net s2 ->
  store (snd (processReleases remote outsideText repositories s1))
  = store (snd (processReleases remote outsideText repositories s2))
  /\ isProcessing (store (snd (processReleases remote outsideText repositories s1))) = false
  /\ allWorkItems (snd (processReleases remote outsideText repositories s1))
     = allWorkItems (snd (processReleases remote outsideText repositories s2)).
Proof.
  intros H.
  destruct (processReleases_run remote outsideText repositories s1) as [wk1 R1].
  destruct (processReleases_run remote outsideText repositories s2) as [wk2 R2].
  rewrite R1, R2, H. cbn. repeat split.
Qed.

Lemma processReleases_forgets_store_witness :
  store (snd (processReleases (scenarioRemote refusedScenario) noOutsideText threeRepos
                (mkSys (mkNet 0%nat []) (mkStore true [mkResult "Z" false None None None]
                                           [item 1]) [item 1] [item 2])))
  = store (snd (processReleases (scenarioRemote refusedScenario) noOutsideText threeRepos
                  freshSys))
  /\ isProcessing
       (store (snd (processReleases (scenarioRemote refusedScenario) noOutsideText threeRepos
                      (mkSys (mkNet 0%nat []) (mkStore true [mkResult "Z" false None None None]
                                                 [item 1]) [item 1] [item 2]))))
     = false
  /\ allWorkItems
       (snd (processReleases (scenarioRemote refusedScenario) noOutsideText threeRepos
               (mkSys (mkNet 0%nat []) (mkStore true [mkResult "Z" false None None None]
                                          [item 1]) [item 1] [item 2])))
     = allWorkItems
         (snd (processReleases (scenarioRemote refusedScenario) noOutsideText threeRepos
                 freshSys)).
Proof.
  apply (processReleases_forgets_store (scenarioRemote refusedScenario) noOutsideText
           threeRepos
           (mkSys (mkNet 0%nat []) (mkStore true [mkResult "Z" false None None None]
                                      [item 1]) [item 1] [item 2])
           freshSys).
  reflexivity.
Defined.

(* ------------------------------------------------------------------ *)
(** ** The new version and the versions before it *)

Lemma Number_exact s n : Number s = Exact n -> (n <= MAX_SAFE_INTEGER)%N.
Proof.
  unfold Number. destruct (digitsValue s) as [k|]; [|discriminate].
  destruct (N.leb_spec k MAX_SAFE_INTEGER) as [H|H]; [|discriminate].
  intros E. injection E as <-. exact H.
Qed.

Lemma versionOf_bounds v major minor :
  versionOf v = Some (major, minor) ->
  (major <= MAX_SAFE_INTEGER)%N /\ (minor <= MAX_SAFE_INTEGER)%N.
Proof.
  unfold versionOf.
  destruct (Js.split "." v) as [|a [|b rest]]; cbn [map]; try discriminate.
  - destruct (Number a); discriminate.
  - destruct (Number a) as [x|] eqn:Ea; [|discriminate].
    destruct (Number b) as [y|] eqn:Eb; [|discriminate].
    intros H. injection H as <- <-. split; eapply Number_exact; eassumption.
Qed.

Lemma calculateNewVersion_real outsideText cur major minor bump :
  versionOf cur = Some (major, minor) ->
  calculateNewVersion outsideText (Some cur) bump
  = match bump with
    | Major => versionText (major + 1) 0
    | Minor => versionText major (minor + 1)
    end.
Proof.
  intros Hv. unfold calculateNewVersion.
  rewrite (versionOf_not_sentinel _ _ Hv).
  unfold versionOf in Hv.
  destruct (map Number (Js.split "." cur)) as [|[x|] [|[y|] rest]];
    try discriminate Hv.
  injection Hv as -> ->. destruct bump; reflexivity.
Qed.

Lemma calculateNewVersion_above (outsideText : string -> BumpType -> string)
    (cur : string) (major minor : N) (bump : BumpType) :
  versionOf cur = Some (major, minor) ->
  (major < MAX_SAFE_INTEGER)%N -> (minor < MAX_SAFE_INTEGER)%N ->
  exists p,
    versionOf (calculateNewVersion outsideText (Some cur) bump) = Some p
    /\ versionLe (major, minor) p /\ p <> (major, minor).
Proof.
  intros Hv HM Hm. rewrite (calculateNewVersion_real _ _ _ _ bump Hv).
  destruct (versionOf_bounds _ _ _ Hv) as [BM Bm].
  assert (Bz : (0 <= MAX_SAFE_INTEGER)%N) by (apply N.le_0_l).
  destruct bump.
  - exists ((major + 1)%N, 0%N).
    split; [apply versionOf_versionText; [lia | exact Bz]|].
    split; [left; cbn; lia | intros K; injection K; lia].
  - exists (major, (minor + 1)%N).
    split; [apply versionOf_versionText; [exact BM | lia]|].
    split; [right; cbn; lia | intros K; injection K; lia].
Qed.

(** The comparator puts a version that is strictly above another before it. *)
Lemma compareVersionsDesc_above outsideCompare a b pa pb :
  versionOf a = Some pa -> versionOf b = Some pb ->
  versionLe pb pa -> pa <> pb ->
  (compareVersionsDesc outsideCompare a b < 0)%Z.
Proof.
  destruct pa as [aM am], pb as [bM bm]. intros Ha Hb Hle Hne.
  rewrite (compareVersionsDesc_exact outsideCompare _ _ _ _ _ _ Ha Hb).
  unfold versionLe in Hle. cbn [fst snd] in Hle.
  destruct (Z.eqb_spec (Z.of_N bM - Z.of_N aM) 0) as [E|E].
  - destruct Hle as [Hlt|[Heq Hle]]; [lia|].
    assert (am <> bm) by (intros ->; apply Hne; f_equal; lia). lia.
  - destruct Hle as [Hlt|[Heq Hle]]; lia.
Qed.

(** X10: a bump of a real version gives a version that reads back as a pair
    strictly above the current one, and that the comparator of
    [getLatestReleaseVersion] sorts before the current one. *)
Theorem calculateNewVersion_newer (outsideText : string -> BumpType -> string)
    (outsideCompare : string -> string -> Z)
    (cur : string) (major minor : N) (bump : BumpType) :
  versionOf cur = Some (major, minor) ->
  (major < MAX_SAFE_INTEGER)%N -> (minor < MAX_SAFE_INTEGER)%N ->
  exists p,
    versionOf (calculateNewVersion outsideText (Some cur) bump) = Some p
    /\ versionLe (major, minor) p /\ p <> (major, minor)
    /\ (compareVersionsDesc outsideCompare
          (calculateNewVersion outsideText (Some cur) bump) cur < 0)%Z.
Proof.
  intros Hv HM Hm.
  destruct (calculateNewVersion_above outsideText cur major minor bump Hv HM Hm)
    as [p [Hp [Hle Hne]]].
  exists p. repeat split; try assumption.
  exact (compareVersionsDesc_above outsideCompare _ _ _ _ Hp Hv Hle Hne).
Qed.

Lemma calculateNewVersion_newer_witness :
  exists p,
    versionOf (calculateNewVersion noOutsideText (Some "1.9") Minor) = Some p
    /\ versionLe (1%N, 9%N) p /\ p <> (1%N, 9%N)
    /\ (compareVersionsDesc (fun _ _ => 0%Z)
          (calculateNewVersion noOutsideText (Some "1.9") Minor) "1.9" < 0)%Z.
Proof.
  apply (calculateNewVersion_newer noOutsideText (fun _ _ => 0%Z) "1.9" 1 9 Minor).
  - reflexivity.
  - reflexivity.
  - reflexivity.
Defined.

(* ------------------------------------------------------------------ *)
(** ** The latest version after a release *)








(* ------------------------------------------------------------------ *)
(** ** The export *)

Section ExportFacts.

Context {W : Type}.
Variable httpPatchWorkItem : N -> string -> Eff W unit.

Lemma retryLoop_deskRequest {A} (op : Eff W A) k last (d : Desk W) r d' :
  retryLoop k last (deskRequest op) d = (r, d') -> desk_events d' = desk_events d.
Proof.
  revert last d. induction k as [|k IH]; intros last d H.
  - rewrite retryLoop_done in H. now injection H as _ <-.
  - cbn [retryLoop] in H. unfold deskRequest at 1 in H.
    destruct (op (desk_world d)) as [[e|a] w].
    + apply IH in H. exact H.
    + now injection H as _ <-.
Qed.

Lemma updateWorkItem_events workItemId build (d : Desk W) r d' :
  updateWorkItem httpPatchWorkItem workItemId build d = (r, d') ->
  desk_events d' = desk_events d ++ [EUpdateWorkItem workItemId build].
Proof.
  unfold updateWorkItem, bind, recorded. intros H.
  apply retryLoop_deskRequest in H. exact H.
Qed.

Lemma updates_events build items (d : Desk W) :
  exists d',
    forEach items (fun item =>
      tryCatch (updateWorkItem httpPatchWorkItem (wi_id item) build) (fun _ => ret tt)) d
    = (inr tt, d')
    /\ desk_events d'
       = desk_events d ++ map (fun item => EUpdateWorkItem (wi_id item) build) items.
Proof.
  revert d. induction items as [|item items IH]; intros d.
  - exists d. split; [reflexivity | now rewrite List.app_nil_r].
  - cbn [forEach map]. unfold bind at 1. unfold tryCatch at 1.
    destruct (updateWorkItem httpPatchWorkItem (wi_id item) build d) as [[e|[]] d1] eqn:E;
      apply updateWorkItem_events in E; cbn [ret];
      destruct (IH d1) as [d' [R Hev]]; exists d'; (split; [exact R|]);
      rewrite Hev, E, <- List.app_assoc; reflexivity.
Qed.

End ExportFacts.

(** X12: with no consolidated work item [handleExport] does nothing at all.
    Otherwise it asks for the update of every consolidated work item, once
    and in order, with one and the same integration build, whether or not
    the updates before failed - a failed update is not passed on - and then
    exports one release note per work item under that build. *)
Theorem handleExport_events {W} (httpPatchWorkItem : N -> string -> Eff W unit)
    (repositories : list Repository) (st : AppStore) (d : Desk W) :
  exists d',
    handleExport httpPatchWorkItem repositories st d = (inr tt, d')
    /\ match consolidatedWorkItems st with
       | [] => d' = d
       | items =>
           let build := integrationBuild repositories (processingResults st) in
           desk_events d'
           = desk_events d
             ++ map (fun item => EUpdateWorkItem (wi_id item) build) items
             ++ [EExportToCSV (map releaseNoteOf items) build]
       end.
Proof.
  unfold handleExport. destruct (consolidatedWorkItems st) as [|item items] eqn:E.
  - exists d. split; reflexivity.
  - destruct (updates_events httpPatchWorkItem
                (integrationBuild repositories (processingResults st)) (item :: items) d)
      as [d1 [R Hev]].
    eexists. unfold bind. rewrite R. unfold exportToCSV, recorded. split; [reflexivity|].
    cbn [desk_events]. rewrite Hev, <- List.app_assoc. reflexivity.
Qed.

Lemma find_first {A} (p : A -> bool) pre x post :
  (forall y, In y pre -> p y = false) -> p x = true ->
  find p (pre ++ x :: post) = Some x.
Proof.
  intros Hpre Hx. induction pre as [|y pre IH]; cbn [app find].
  - now rewrite Hx.
  - rewrite (Hpre y (or_introl eq_refl)). apply IH. intros z Hz. apply Hpre. now right.
Qed.

(** X13: the integration build after a batch, for the first selected
    repository named [CareConnect.Pharmacy].  When its release was created,
    the build is its new version (the fallback below, were that text
    empty).  When its branch or its tag could not be created, the build
    falls back on [mainVersion]: the current version of the first
    repository of that name among all the repositories, selected or not,
    or ["1.0"] when that one has none or an empty one.  This is the version
    the processed repository had before the batch only when it is itself
    the first of its name. *)
Theorem integrationBuild_after_batch {W} (remote : Remote W)
    (outsideText : string -> BumpType -> string)
    (repositories : list Repository) (s s1 : Sys W)
    (pre : list Repository) (repo : Repository) (post : list Repository) :
  selectedRepos repositories = pre ++ repo :: post ->
  (forall x, In x pre -> repo_name x <> MAIN_REPOSITORY) ->
  repo_name repo = MAIN_REPOSITORY ->
  forEach pre (processRepo remote outsideText) (started s) = (inr tt, s1) ->
  integrationBuild repositories
    (processingResults (store (snd (processReleases remote outsideText repositories s))))
  = match creation remote outsideText repo (net s1) with
    | (inr _, _) => orText (Some (newVersionOf outsideText repo)) (mainVersion repositories)
    | (inl _, _) => mainVersion repositories
    end
  /\ (find (fun r => String.eqb (repo_name r) MAIN_REPOSITORY) repositories = Some repo ->
      mainVersion repositories = orText (currentVersion repo) "1.0").
Proof.
  intros Hsel Hpre Hrepo Hs1.
  split; [|intros Hfirst; unfold mainVersion; now rewrite Hfirst].
  destruct (processReleases_run remote outsideText repositories s) as [wk R].
  rewrite R. cbn [snd store processingResults]. rewrite Hsel, outcomes_app. cbn [fst].
  destruct (forEach_processRepo_run remote outsideText pre (started s)) as [wk1 R1].
  rewrite R1 in Hs1. injection Hs1 as <-. cbn [net started].
  set (n1 := snd (outcomes remote outsideText pre (net s))).
  cbn [outcomes].
  destruct (outcome remote outsideText repo n1) as [r n2] eqn:O.
  destruct (outcomes remote outsideText post n2) as [rs n3]. cbn [fst].
  unfold integrationBuild. rewrite (find_first _ _ r).
  - unfold outcome in O. destruct (creation remote outsideText repo n1) as [[e|[]] n1'].
    + injection O as <- _. reflexivity.
    + destruct (harvested remote outsideText repo n1') as [items n2'].
      injection O as <- _. reflexivity.
  - intros y Hy. apply String.eqb_neq.
    assert (Hn : In (repository y) (map repo_name pre)).
    { rewrite <- (outcomes_repository remote outsideText pre (net s)). now apply in_map. }
    apply in_map_iff in Hn. destruct Hn as [x [Ex Hx]]. rewrite <- Ex. now apply Hpre.
  - apply String.eqb_eq.
    pose proof (outcome_repository remote outsideText repo n1) as Hr.
    rewrite O in Hr. cbn [fst] in Hr. now rewrite Hr.
Qed.

Lemma integrationBuild_after_batch_witness :
  integrationBuild pharmacyRepos
    (processingResults
       (store (snd (processReleases (scenarioRemote refusedScenario) noOutsideText
                      pharmacyRepos freshSys))))
  = "2.4".
Proof.
  refine (eq_trans
            (proj1
               (integrationBuild_after_batch (scenarioRemote refusedScenario) noOutsideText
                  pharmacyRepos freshSys
                  (snd (forEach [repoAt "A" "1.0"]
                          (processRepo (scenarioRemote refusedScenario) noOutsideText)
                          (started freshSys)))
                  [repoAt "A" "1.0"]
                  (mkRepository "B" "CareConnect.Pharmacy" (Some "2.4") true (Some Major))
                  [] _ _ _ _)) _).
  - reflexivity.
  - intros x [<-|[]]. discriminate.
  - reflexivity.
  - vm_compute. reflexivity.
  - vm_compute. reflexivity.
Defined.

(* ------------------------------------------------------------------ *)
(** ** The versions the selector loads *)

Lemma sortInsert_in {A} (cmp : A -> A -> Z) x l y :
  In y (sortInsert cmp x l) <-> y = x \/ In y l.
Proof.
  induction l as [|z l IH]; cbn [sortInsert].
  - simpl. intuition.
  - destruct (0 <? cmp x z)%Z; simpl; [rewrite IH|]; intuition.
Qed.

Lemma sort_in {A} (cmp : A -> A -> Z) l y : In y (sort cmp l) <-> In y l.
Proof.
  unfold sort. induction l as [|x l IH]; cbn [fold_right]; [reflexivity|].
  rewrite sortInsert_in, IH. simpl. intuition.
Qed.

Lemma hd_error_in {A} (l : list A) x : hd_error l = Some x -> In x l.
Proof. destruct l; [discriminate|]. intros [= ->]. now left. Qed.

Section SelectorFacts.

Context {W : Type}.
Variable remote : Remote W.
Variable outsideCompare : string -> string -> Z.

Lemma getRepositoryRefs_calls id (n : Net W) r n' :
  getRepositoryRefs remote id n = (r, n') -> calls n' = calls n ++ [CGetRepositoryRefs id].
Proof.
  unfold getRepositoryRefs, bind, invoked. intros H.
  destruct (emits_retryAsync calls (fun _ => False)
              (request (httpGetRefs remote id "heads/release"))
              (emits_request _ _) _ _ _ H) as (d & E & F).
  apply Forall_False_nil in F. subst d. now rewrite List.app_nil_r in E.
Qed.

(** [getLatestReleaseVersion] returns, after one invocation of
    [getRepositoryRefs]; a version it answers was read by the pattern. *)
Lemma getLatestReleaseVersion_answer id (n : Net W) :
  exists result n',
    getLatestReleaseVersion remote outsideCompare id n = (inr result, n')
    /\ calls n' = calls n ++ [CGetRepositoryRefs id]
    /\ forall v, result = Some v -> exists name, releaseVersionMatch name = Some v.
Proof.
  unfold getLatestReleaseVersion, tryCatch, bind.
  destruct (getRepositoryRefs remote id n) as [[e|refs] n1] eqn:E;
    apply getRepositoryRefs_calls in E.
  - exists None, n1. repeat split; [exact E | discriminate].
  - destruct (releaseBranches refs) as [|v0 vs] eqn:Hvs.
    + exists None, n1. repeat split; [exact E | discriminate].
    + eexists _, n1. split; [reflexivity|]. split; [exact E|].
      intros v Hv. apply hd_error_in, sort_in in Hv. rewrite <- Hvs in Hv.
      apply in_releaseBranches in Hv. destruct Hv as [r [_ [_ Hm]]].
      now exists (ref_name r).
Qed.

Lemma shape_not_error_loading major minor :
  Js.everyDigit major = true ->
  (major ++ String "." minor)%string <> ERROR_LOADING.
Proof.
  intros Hd. destruct major as [|c major]; [discriminate|].
  cbn [Js.everyDigit] in Hd. apply andb_prop in Hd. destruct Hd as [Hc _].
  intros K. injection K as -> _. discriminate Hc.
Qed.

Lemma loadVersions_run repoList repos (n : Net W) :
  Forall asLoaded repos ->
  exists repos' n',
    loadVersions remote outsideCompare repoList repos n = (inr repos', n')
    /\ map repo_name repos' = map repo_name repos ++ repoList
    /\ Forall asLoaded repos'
    /\ calls n' = calls n ++ map CGetRepositoryRefs repoList.
Proof.
  revert repos n. induction repoList as [|repoName rest IH]; intros repos n Hall.
  - exists repos, n. cbn. rewrite !List.app_nil_r. auto.
  - cbn [loadVersions]. unfold bind at 1. unfold tryCatch at 1. unfold bind at 1.
    destruct (getLatestReleaseVersion_answer repoName n) as [result [n1 [R [Hc Hshape]]]].
    rewrite R. cbn [ret].
    destruct (IH (repos ++ [mkRepository repoName repoName
                              (Some (orText result NO_RELEASES)) false None]) n1)
      as [repos' [n' [R' [Hn [Hall' Hc']]]]].
    + apply Forall_app. split; [exact Hall|]. constructor; [|constructor].
      unfold asLoaded. cbn [repo_id repo_name selected bumpType currentVersion].
      repeat split.
      * destruct result as [v|]; [|discriminate].
        destruct (Hshape v eq_refl) as [name Hm].
        apply releaseVersionMatch_shape in Hm. destruct Hm as (a & b & -> & Ha & Hb).
        cbn [orText]. destruct (a ++ String "." b)%string eqn:Ev; [discriminate|].
        cbn [Js.truthy]. rewrite <- Ev. intros K. injection K as K.
        now apply (shape_not_error_loading a b Ha).
      * destruct result as [v|]; [|now left].
        destruct (Hshape v eq_refl) as [name Hm].
        apply releaseVersionMatch_shape in Hm. destruct Hm as (a & b & -> & Ha & Hb).
        right. exists a, b. cbn [orText].
        destruct (a ++ String "." b)%string eqn:Ev.
        { destruct a; discriminate Ev. }
        cbn [Js.truthy]. auto.
    + exists repos', n'. split; [exact R'|]. split; [|split; [exact Hall'|]].
      * rewrite Hn, map_app, <- List.app_assoc. reflexivity.
      * rewrite Hc', Hc, <- List.app_assoc. reflexivity.
Qed.

End SelectorFacts.

(** X14: [loadRepositoryVersions] always hands repositories to the store,
    never an error: one repository for each name, in order, or the single
    repository [TestPipelines] when no name is configured, each unselected
    and without a bump type, after one listing of the refs for each.  The
    current version of each is ['No releases'] or a version read from a
    branch name; it is never ['Error loading'], since
    [getLatestReleaseVersion] catches what it throws. *)
Theorem loadRepositoryVersions_loaded {W} (remote : Remote W)
    (outsideCompare : string -> string -> Z)
    (selectedRepositoryNames : list string) (n : Net W) :
  exists repos n',
    loadRepositoryVersions remote outsideCompare selectedRepositoryNames n
    = (inr (Loaded repos), n')
    /\ map repo_name repos
       = match selectedRepositoryNames with
         | [] => [DEFAULT_REPOSITORY]
         | _ => selectedRepositoryNames
         end
    /\ calls n' = calls n ++ map CGetRepositoryRefs (map repo_name repos)
    /\ Forall (fun r =>
         repo_id r = repo_name r /\ selected r = false /\ bumpType r = None
         /\ currentVersion r <> Some ERROR_LOADING
         /\ (currentVersion r = Some NO_RELEASES
             \/ exists major minor,
                  currentVersion r = Some (major ++ String "." minor)%string
                  /\ Js.everyDigit major = true /\ Js.everyDigit minor = true)) repos.
Proof.
  unfold loadRepositoryVersions, tryCatch, bind.
  set (repoList := match selectedRepositoryNames with
                   | [] => [DEFAULT_REPOSITORY]
                   | _ :: _ => selectedRepositoryNames
                   end).
  destruct (loadVersions_run remote outsideCompare repoList [] n (Forall_nil _))
    as [repos [n' [R [Hn [Hall Hc]]]]].
  rewrite R. exists repos, n'. cbn [app] in Hn.
  split; [reflexivity|]. split; [|split].
  - rewrite Hn. unfold repoList. destruct selectedRepositoryNames; reflexivity.
  - now rewrite Hn.
  - exact Hall.
Qed.

(* ------------------------------------------------------------------ *)
(** ** The handlers of the selector *)

Lemma updateRepository_fold (change : Repository -> Repository) updates
    (others stored : list Repository) :
  (forall r, mergeRepository r updates = change r) ->
  (forall r, repo_name (change r) = repo_name r) ->
  (forall r, change (change r) = change r) ->
  fold_left (fun stored repo => updateRepository (repo_name repo) updates stored)
    others stored
  = map (fun r => if namedAmong others r then change r else r) stored.
Proof.
  intros Hmerge Hname Hidem. revert stored.
  induction others as [|x others IH]; intros stored; cbn [fold_left].
  - cbn [namedAmong existsb]. now rewrite map_id.
  - rewrite IH. unfold updateRepository. rewrite map_map. apply map_ext. intros r.
    cbn [namedAmong existsb]. rewrite Hmerge.
    destruct (String.eqb (repo_name r) (repo_name x)) eqn:E; cbn [orb].
    + fold (namedAmong others (change r)).
      destruct (namedAmong others (change r)); [apply Hidem | reflexivity].
    + reflexivity.
Qed.

Lemma namedAmong_self others r : In r others -> namedAmong others r = true.
Proof.
  intros H. unfold namedAmong. apply existsb_exists. exists r.
  split; [exact H | apply String.eqb_refl].
Qed.

Lemma selectedRepos_withBumpType bump (test : Repository -> bool) l :
  selectedRepos (map (fun r => if test r then withBumpType bump r else r) l)
  = map (fun r => if test r then withBumpType bump r else r) (selectedRepos l).
Proof.
  unfold selectedRepos. induction l as [|r l IH]; [reflexivity|].
  cbn [map filter].
  assert (E : selected (if test r then withBumpType bump r else r) = selected r)
    by (destruct (test r); reflexivity).
  rewrite E. destruct (selected r); cbn [map]; now rewrite IH.
Qed.

(** X15: [handleBulkMajor] and [handleBulkMinor] give the bump type to every
    repository that bears the name of a selected one - the selected
    repositories, and an unselected one that shares its name with one of
    them - and change nothing else.  After them the batch can be processed
    exactly when a repository is selected. *)
Theorem handleBulk_sets_selected (bump : BumpType) (repositories : list Repository) :
  handleBulk bump repositories
  = map (fun r => if namedAmong (selectedRepos repositories) r
                  then withBumpType bump r else r) repositories
  /\ (forall r, In r (selectedRepos (handleBulk bump repositories)) ->
                bumpType r = Some bump)
  /\ canProcess (handleBulk bump repositories)
     = negb (Nat.eqb (List.length (selectedRepos repositories)) 0).
Proof.
  assert (E : handleBulk bump repositories
              = map (fun r => if namedAmong (selectedRepos repositories) r
                              then withBumpType bump r else r) repositories).
  { unfold handleBulk. apply updateRepository_fold; reflexivity. }
  split; [exact E|].
  assert (Hsel : forall r, In r (selectedRepos (handleBulk bump repositories)) ->
                           bumpType r = Some bump).
  { intros r Hr. rewrite E, selectedRepos_withBumpType in Hr.
    apply in_map_iff in Hr. destruct Hr as [r0 [<- Hr0]].
    now rewrite (namedAmong_self _ _ Hr0). }
  split; [exact Hsel|].
  unfold canProcess.
  replace (forallb _ (selectedRepos (handleBulk bump repositories))) with true.
  - rewrite andb_true_r, E, selectedRepos_withBumpType, length_map. reflexivity.
  - symmetry. apply forallb_forall. intros r Hr. now rewrite (Hsel r Hr).
Qed.

(** X16: [handleSelectAll] leaves every repository selected, or every
    repository unselected, with its version and its bump type as they were;
    when there is a repository, the flag it sets says whether all of them
    are selected. *)
Theorem handleSelectAll_all (selectAll : bool) (repositories : list Repository) :
  snd (handleSelectAll selectAll repositories)
  = map (withSelected (negb selectAll)) repositories
  /\ (repositories <> [] ->
      fst (handleSelectAll selectAll repositories)
      = forallb selected (snd (handleSelectAll selectAll repositories))).
Proof.
  assert (E : snd (handleSelectAll selectAll repositories)
              = map (withSelected (negb selectAll)) repositories).
  { unfold handleSelectAll. cbn [snd].
    rewrite (updateRepository_fold (withSelected (negb selectAll))) by reflexivity.
    apply map_ext_in. intros r Hr. now rewrite (namedAmong_self _ _ Hr). }
  split; [exact E|]. intros Hne. rewrite E. cbn [handleSelectAll fst].
  destruct repositories as [|r l]; [congruence|].
  destruct selectAll; cbn [negb map forallb withSelected selected andb].
  - reflexivity.
  - symmetry. apply forallb_forall. intros x Hx.
    apply in_map_iff in Hx. now destruct Hx as [x0 [<- _]].
Qed.

(** X17: [handleRepoToggle] gives every repository of that name the opposite
    of the selection of the first of them and leaves the others as they
    are; the flag it sets says whether every repository of the store is
    selected after it.  A name that no repository bears changes nothing. *)
Theorem handleRepoToggle_flag (repoName : string) (selectAll : bool)
    (repositories : list Repository) :
  match find (fun r => String.eqb (repo_name r) repoName) repositories with
  | Some repo =>
      snd (handleRepoToggle repoName selectAll repositories)
      = map (fun r => if String.eqb (repo_name r) repoName
                      then withSelected (negb (selected repo)) r else r) repositories
      /\ fst (handleRepoToggle repoName selectAll repositories)
         = forallb selected (snd (handleRepoToggle repoName selectAll repositories))
  | None => handleRepoToggle repoName selectAll repositories = (selectAll, repositories)
  end.
Proof.
  unfold handleRepoToggle.
  destruct (find (fun r => String.eqb (repo_name r) repoName) repositories) as [repo|];
    [|reflexivity].
  cbn [fst snd]. split; [reflexivity|].
  unfold updateRepository. induction repositories as [|r l IH]; [reflexivity|].
  cbn [map forallb]. rewrite IH.
  destruct (String.eqb (repo_name r) repoName); reflexivity.
Qed.

(* ------------------------------------------------------------------ *)
(** ** Stripping tags *)

Lemma hasGt_removeTagsFrom inside s :
  hasGt (removeTagsFrom inside s) = true -> hasGt s = true.
Proof.
  revert inside. induction s as [|c s IH]; intros inside; cbn [removeTagsFrom hasGt].
  - destruct inside; auto.
  - destruct inside.
    + destruct (Ascii.eqb c ">"); [reflexivity|]. cbn [orb]. apply IH.
    + destruct (Ascii.eqb c "<" && hasGt s) eqn:E.
      * intros H. apply IH in H. rewrite H. apply orb_true_r.
      * cbn [hasGt]. destruct (Ascii.eqb c ">"); [reflexivity|]. cbn [orb]. apply IH.
Qed.

Lemma tagFree_removeTagsFrom inside s : tagFree (removeTagsFrom inside s) = true.
Proof.
  revert inside. induction s as [|c s IH]; intros inside; cbn [removeTagsFrom].
  - destruct inside; reflexivity.
  - destruct inside.
    + destruct (Ascii.eqb c ">"); apply IH.
    + destruct (Ascii.eqb c "<" && hasGt s) eqn:E; [apply IH|].
      cbn [tagFree]. rewrite IH, andb_true_r.
      destruct (Ascii.eqb c "<"); [|reflexivity]. cbn [andb] in E |- *.
      destruct (hasGt (removeTagsFrom false s)) eqn:G; [|reflexivity].
      apply hasGt_removeTagsFrom in G. congruence.
Qed.

Lemma removeTags_fixed s : tagFree s = true -> removeTags s = s.
Proof.
  unfold removeTags. induction s as [|c s IH]; [reflexivity|].
  cbn [tagFree removeTagsFrom]. intros H. apply andb_prop in H. destruct H as [H1 H2].
  apply negb_true_iff in H1. rewrite H1, (IH H2). reflexivity.
Qed.

Lemma removeTags_idempotent s : removeTags (removeTags s) = removeTags s.
Proof. apply removeTags_fixed, tagFree_removeTagsFrom. Qed.

Lemma stripLoop_one_pass k html :
  html <> EmptyString -> stripLoop (3 + k) html EmptyString = Some (removeTags html).
Proof.
  intros Hne. cbn [Nat.add stripLoop].
  destruct (String.eqb_spec html EmptyString) as [E|_]; [congruence|].
  destruct (String.eqb_spec (removeTags html) html) as [E|_]; [reflexivity|].
  rewrite removeTags_idempotent, String.eqb_refl. reflexivity.
Qed.

(** X18: the loop of [stripHtmlTags] always ends, at the third test of its
    condition at the latest: one replacement leaves nothing for a second
    one to remove.  The result is the text after one replacement of the
    pattern, with the entities decoded and the white space at both ends
    removed; the empty text gives the empty text. *)
Theorem stripHtmlTags_one_pass (html : string) :
  stripHtmlTags html
  = Some (if Js.truthy html then trim (decodeEntities (removeTags html)) else EmptyString)
  /\ removeTags (removeTags html) = removeTags html.
Proof.
  split; [|apply removeTags_idempotent].
  unfold stripHtmlTags. destruct html as [|c html]; [reflexivity|].
  cbn [Js.truthy negb String.length].
  replace (S (String.length html) + 2)%nat with (3 + String.length html)%nat by lia.
  rewrite stripLoop_one_pass by discriminate. reflexivity.
Qed.

Lemma length_removeTagsFrom inside s :
  (String.length (removeTagsFrom inside s) <= String.length s)%nat.
Proof.
  revert inside. induction s as [|c s IH]; intros inside; cbn [removeTagsFrom].
  - destruct inside; apply Nat.le_refl.
  - pose proof (IH true) as IHt. pose proof (IH false) as IHf.
    destruct inside.
    + destruct (Ascii.eqb c ">"); cbn [String.length]; lia.
    + destruct (Ascii.eqb c "<" && hasGt s); cbn [String.length]; lia.
Qed.

(** X19: what one replacement leaves holds no [<] that a [>] follows, so the
    pattern matches nowhere in it; it is no longer than the text; and a text
    in which the pattern matches nowhere is left as it is. *)
Theorem removeTags_tagFree (s : string) :
  tagFree (removeTags s) = true
  /\ (String.length (removeTags s) <= String.length s)%nat
  /\ (tagFree s = true -> removeTags s = s).
Proof.
  split; [apply tagFree_removeTagsFrom|].
  split; [apply length_removeTagsFrom | apply removeTags_fixed].
Qed.

Lemma append_empty_r (s : string) : (s ++ EmptyString)%string = s.
Proof. induction s as [|c s IH]; [reflexivity|]. cbn [append]. now rewrite IH. Qed.

Lemma stripHtmlTags_run html :
  html <> EmptyString ->
  stripHtmlTags html = Some (trim (decodeEntities (removeTags html))).
Proof.
  intros Hne. unfold stripHtmlTags. destruct html as [|c html]; [congruence|].
  cbn [Js.truthy negb String.length].
  replace (S (String.length html) + 2)%nat with (3 + String.length html)%nat by lia.
  rewrite stripLoop_one_pass by discriminate. reflexivity.
Qed.

Lemma tagFree_plain_app t r :
  plainText t = true -> tagFree r = true -> tagFree (t ++ r) = true.
Proof.
  intros Ht Hr. induction t as [|c t IH]; [exact Hr|].
  cbn [plainText] in Ht. apply andb_prop in Ht. destruct Ht as [Hc Ht].
  apply negb_true_iff, orb_false_elim in Hc. destruct Hc as [Hc _].
  apply orb_false_elim in Hc. destruct Hc as [Hlt _].
  cbn [append tagFree]. rewrite Hlt, (IH Ht). reflexivity.
Qed.

Lemma replaceAll_plain_app pat by_ t r :
  plainText t = true ->
  replaceAllFrom 0 (String "&" pat) by_ (t ++ r)
  = (t ++ replaceAllFrom 0 (String "&" pat) by_ r)%string.
Proof.
  intros Ht. induction t as [|c t IH]; [reflexivity|].
  cbn [plainText] in Ht. apply andb_prop in Ht. destruct Ht as [Hc Ht].
  apply negb_true_iff, orb_false_elim in Hc. destruct Hc as [_ Hamp].
  cbn [append replaceAllFrom Js.startsWith]. unfold Js.eqChar.
  rewrite Ascii.eqb_sym, Hamp. cbn [andb]. now rewrite (IH Ht).
Qed.

(** X20: the entities are decoded after the tags are removed, and what they
    decode to is not looked at again: a tag written with [&lt;] and [&gt;]
    comes out as a tag. *)
Theorem stripHtmlTags_decodes_tags (t : string) :
  plainText t = true ->
  stripHtmlTags ("&lt;" ++ t ++ "&gt;") = Some (trim ("<" ++ t ++ ">")).
Proof.
  intros Ht. rewrite stripHtmlTags_run by discriminate.
  rewrite removeTags_fixed by (cbn; now apply tagFree_plain_app).
  do 2 f_equal. unfold decodeEntities, replaceAll.
  repeat (cbn [append replaceAllFrom Js.startsWith Js.eqChar Ascii.eqb Bool.eqb andb
                 String.length Nat.sub doubleQuote];
          rewrite ?(replaceAll_plain_app _ _ t _ Ht)).
  reflexivity.
Qed.

Lemma stripHtmlTags_decodes_tags_witness :
  stripHtmlTags "&lt;script src=x&gt;" = Some "<script src=x>".
Proof.
  apply (stripHtmlTags_decodes_tags "script src=x"). reflexivity.
Defined.

(** X21: [&amp;] is decoded last, so that the text it decodes to is not
    taken for an entity: [&amp;lt;] gives [&lt;], not [<]. *)
Theorem stripHtmlTags_amp_last (t : string) :
  plainText t = true ->
  stripHtmlTags ("&amp;" ++ t) = Some (trim ("&" ++ t)).
Proof.
  intros Ht. rewrite stripHtmlTags_run by discriminate.
  rewrite removeTags_fixed
    by (cbn; rewrite <- (append_empty_r t); now apply tagFree_plain_app).
  do 2 f_equal. unfold decodeEntities, replaceAll.
  rewrite <- (append_empty_r t).
  repeat (cbn [append replaceAllFrom Js.startsWith Js.eqChar Ascii.eqb Bool.eqb andb
                 String.length Nat.sub doubleQuote];
          rewrite ?(replaceAll_plain_app _ _ t _ Ht)).
  reflexivity.
Qed.

Lemma stripHtmlTags_amp_last_witness :
  stripHtmlTags "&amp;lt;b" = Some "&lt;b".
Proof.
  apply (stripHtmlTags_amp_last "lt;b"). reflexivity.
Defined.

(* ------------------------------------------------------------------ *)
(** ** The CSV of work items *)

Lemma parseInt10_empty : parseInt10 EmptyString = None.
Proof. reflexivity. Qed.

Lemma rowErrors_nil index row : rowErrors index row = [] <-> rowComplete row = true.
Proof.
  unfold rowErrors, rowComplete.
  destruct (getFieldValue row "Id") as [|c id] eqn:Eid.
  - rewrite parseInt10_empty. cbn [Js.truthy].
    destruct (Js.truthy (getFieldValue row "Prefix")); cbn; split; discriminate.
  - cbn [Js.truthy].
    destruct (Js.truthy (getFieldValue row "Prefix"));
      destruct (parseInt10 (String c id));
      destruct (Js.truthy (getFieldValue row "Content"));
      cbn; split; (reflexivity || discriminate).
Qed.

Lemma rowsErrors_nil index data :
  rowsErrors index data = [] <-> Forall (fun row => rowComplete row = true) data.
Proof.
  revert index. induction data as [|row data IH]; intros index; cbn [rowsErrors].
  - split; [constructor | reflexivity].
  - split.
    + intros H. apply app_eq_nil in H. destruct H as [H1 H2].
      constructor; [now apply (rowErrors_nil index) | now apply (IH (S index))].
    + intros H. inversion H as [|? ? H1 H2]; subst.
      apply (rowErrors_nil index) in H1. apply (IH (S index)) in H2.
      now rewrite H1, H2.
Qed.

Lemma length_zero {A} (l : list A) : Nat.eqb (List.length l) 0 = true <-> l = [].
Proof. destruct l; cbn; split; (reflexivity || discriminate). Qed.

Lemma filter_nil_forallb {A} (p : A -> bool) l :
  filter (fun x => negb (p x)) l = [] <-> forallb p l = true.
Proof.
  induction l as [|x l IH]; cbn [filter forallb]; [tauto|].
  destruct (p x); cbn [negb andb]; [exact IH | split; discriminate].
Qed.

Lemma trim_empty_length s :
  (negb (Js.truthy s) || Nat.eqb (String.length (trim s)) 0) = false
  <-> trim s <> EmptyString.
Proof.
  destruct s as [|c s]; cbn [Js.truthy negb orb].
  - split; [discriminate | intros H; now elim H].
  - destruct (trim (String c s)); cbn; split; (congruence || discriminate).
Qed.

Lemma itemOfRow_complete row :
  rowComplete row = true -> exists workItem, itemOfRow row = Some workItem.
Proof.
  unfold rowComplete, itemOfRow. intros H.
  apply andb_prop in H. destruct H as [H Ht]. apply andb_prop in H. destruct H as [Hp Hi].
  destruct (parseInt10 (getFieldValue row "Id")); [|discriminate].
  rewrite Hp, Ht. eexists. reflexivity.
Qed.

Lemma filterMap_all {A B} (f : A -> option B) l :
  Forall (fun x => exists y, f x = Some y) l ->
  map f l = map Some (filterMap f l).
Proof.
  induction 1 as [|x l [y Hy] _ IH]; [reflexivity|].
  cbn [map filterMap]. rewrite Hy. cbn [map]. now rewrite IH.
Qed.

Section CsvFacts.

Variable papaParse : string -> PapaResult.

(** The rows of a file that is valid. *)
Lemma validateCsvFormat_rows csvContent :
  isValid (validateCsvFormat papaParse csvContent) = true ->
  pp_data (papaParse csvContent) <> []
  /\ Forall (fun row => rowComplete row = true) (pp_data (papaParse csvContent)).
Proof.
  unfold validateCsvFormat.
  destruct (negb (Js.truthy csvContent) || Nat.eqb (String.length (trim csvContent)) 0);
    [discriminate|].
  cbn [isValid]. rewrite length_zero. intros H.
  apply app_eq_nil in H. destruct H as [_ H].
  apply app_eq_nil in H. destruct H as [_ H].
  apply app_eq_nil in H. destruct H as [H3 H4].
  split; [destruct (pp_data (papaParse csvContent)); discriminate|].
  now apply rowsErrors_nil in H4.
Qed.

End CsvFacts.

(** X22: a file is valid exactly when its text is not blank, the library
    reports no error, the four required columns are among the headers
    whatever their case, there is a row, and every row has a type, an
    identifier that reads as a number and a title.  No warning - an unknown
    type, a missing [Description] column - makes a file invalid, and the
    value of [Url] may be empty. *)
Theorem validateCsvFormat_valid_iff (papaParse : string -> PapaResult)
    (csvContent : string) :
  isValid (validateCsvFormat papaParse csvContent) = true <->
  trim csvContent <> EmptyString
  /\ pp_errors (papaParse csvContent) = []
  /\ columnsPresent match pp_fields (papaParse csvContent) with
                    | Some fields => fields
                    | None => []
                    end = true
  /\ pp_data (papaParse csvContent) <> []
  /\ Forall (fun row => rowComplete row = true) (pp_data (papaParse csvContent)).
Proof.
  unfold validateCsvFormat.
  destruct (negb (Js.truthy csvContent) || Nat.eqb (String.length (trim csvContent)) 0)
    eqn:E.
  - cbn [isValid]. split; [discriminate|]. intros [H _].
    apply trim_empty_length in H. congruence.
  - apply trim_empty_length in E. cbn [isValid]. rewrite length_zero.
    set (headers := match pp_fields (papaParse csvContent) with
                    | Some fields => fields
                    | None => []
                    end).
    unfold columnsPresent. rewrite <- filter_nil_forallb.
    split.
    + intros H. apply app_eq_nil in H. destruct H as [H1 H].
      apply app_eq_nil in H. destruct H as [H2 H].
      apply app_eq_nil in H. destruct H as [H3 H4].
      split; [exact E|]. split; [now apply map_eq_nil in H1|].
      split; [destruct (filter _ REQUIRED_COLUMNS); [reflexivity | discriminate]|].
      split; [destruct (pp_data (papaParse csvContent)); [discriminate | discriminate]|].
      now apply rowsErrors_nil in H4.
    + intros (_ & H1 & H2 & H3 & H4). rewrite H1, H2.
      apply rowsErrors_nil with (index := 0%nat) in H4. rewrite H4.
      destruct (pp_data (papaParse csvContent)); [congruence | reflexivity].
Qed.

(** X23: a valid file loses no row: [parseCsvToWorkItems] succeeds with no
    error, the warnings of the validation, and one work item for every row
    of the file, in the order of the rows; there is at least one. *)
Theorem parseCsvToWorkItems_valid (papaParse : string -> PapaResult)
    (csvContent : string) :
  isValid (validateCsvFormat papaParse csvContent) = true ->
  parse_success (parseCsvToWorkItems papaParse csvContent) = true
  /\ parse_errors (parseCsvToWorkItems papaParse csvContent) = []
  /\ parse_warnings (parseCsvToWorkItems papaParse csvContent)
     = val_warnings (validateCsvFormat papaParse csvContent)
  /\ map Some (parse_workItems (parseCsvToWorkItems papaParse csvContent))
     = map itemOfRow (pp_data (papaParse csvContent))
  /\ parse_workItems (parseCsvToWorkItems papaParse csvContent) <> [].
Proof.
  intros Hv. unfold parseCsvToWorkItems. rewrite Hv. cbn.
  apply validateCsvFormat_rows in Hv. destruct Hv as [Hne Hrows].
  assert (Hall : Forall (fun row => exists y, itemOfRow row = Some y)
                   (pp_data (papaParse csvContent))).
  { eapply Forall_impl; [|exact Hrows]. intros row. apply itemOfRow_complete. }
  repeat split.
  - symmetry. now apply filterMap_all.
  - intros K. apply filterMap_all in Hall. rewrite K in Hall.
    destruct (pp_data (papaParse csvContent)); [congruence | discriminate].
Qed.

Lemma parseCsvToWorkItems_valid_witness :
  parse_success (parseCsvToWorkItems (fun _ => twoRows false) "csv") = true
  /\ parse_errors (parseCsvToWorkItems (fun _ => twoRows false) "csv") = []
  /\ parse_warnings (parseCsvToWorkItems (fun _ => twoRows false) "csv")
     = val_warnings (validateCsvFormat (fun _ => twoRows false) "csv")
  /\ map Some (parse_workItems (parseCsvToWorkItems (fun _ => twoRows false) "csv"))
     = map itemOfRow (pp_data (twoRows false))
  /\ parse_workItems (parseCsvToWorkItems (fun _ => twoRows false) "csv") <> [].
Proof.
  apply (parseCsvToWorkItems_valid (fun _ => twoRows false) "csv").
  vm_compute. reflexivity.
Defined.

(** X24: a file that is not valid gives no work item at all, even when some
    of its rows are complete: the result is a failure with the errors of
    the validation, of which there is at least one. *)
Theorem parseCsvToWorkItems_invalid (papaParse : string -> PapaResult)
    (csvContent : string) :
  isValid (validateCsvFormat papaParse csvContent) = false ->
  parseCsvToWorkItems papaParse csvContent
  = mkParse false [] (val_errors (validateCsvFormat papaParse csvContent))
      (val_warnings (validateCsvFormat papaParse csvContent))
  /\ val_errors (validateCsvFormat papaParse csvContent) <> [].
Proof.
  intros Hv. split.
  - unfold parseCsvToWorkItems. now rewrite Hv.
  - revert Hv. unfold validateCsvFormat.
    destruct (negb (Js.truthy csvContent) || Nat.eqb (String.length (trim csvContent)) 0).
    + discriminate.
    + cbn [isValid val_errors]. intros Hv K. rewrite K in Hv. discriminate.
Qed.

Lemma parseCsvToWorkItems_invalid_witness :
  parseCsvToWorkItems (fun _ => twoRows true) "csv"
  = mkParse false [] (val_errors (validateCsvFormat (fun _ => twoRows true) "csv"))
      (val_warnings (validateCsvFormat (fun _ => twoRows true) "csv"))
  /\ val_errors (validateCsvFormat (fun _ => twoRows true) "csv") <> [].
Proof.
  apply (parseCsvToWorkItems_invalid (fun _ => twoRows true) "csv").
  vm_compute. reflexivity.
Defined.

(* ------------------------------------------------------------------ *)
(** ** The branch-based revision, in general *)

(** X25: in the branch-based revision, a repository whose new branch was
    created but is not among the refs listed afterwards gets no result,
    neither a success nor a failure; no tag is created and the store is
    left as it was. *)
Theorem branchBased_unlisted_branch {W} (remote : Remote W)
    (outsideText : string -> BumpType -> string) (repo : Repository) (s : Sys W)
    (created : option GitRef) (n1 : Net W) (refs : list GitRef) (n2 : Net W) :
  createBranch remote (repo_id repo)
    ("refs/heads/release/" ++ newVersionOf outsideText repo ++ ".x") "refs/heads/main"
    (net s) = (inr created, n1) ->
  getRepositoryRefs remote (repo_id repo) n1 = (inr refs, n2) ->
  (forall r, In r refs ->
     ref_name r <> ("refs/heads/release/" ++ newVersionOf outsideText repo ++ ".x")%string) ->
  BranchBased.processRepo remote outsideText repo s
  = (inr tt, mkSys n2 (store s) (allWorkItems s) (workItems s)).
Proof.
  intros Hb Hr Habsent.
  unfold BranchBased.processRepo, BranchBased.release, tryCatch.
  unfold bind at 1. rewrite (svc_run _ _ _ _ Hb).
  unfold bind at 1. erewrite svc_run by (cbn [net]; exact Hr).
  cbn [net store allWorkItems workItems].
  rewrite find_absent; [reflexivity|].
  intros r Hin. apply String.eqb_neq. now apply Habsent.
Qed.

Lemma branchBased_unlisted_branch_witness :
  BranchBased.processRepo (listingRemote false) noOutsideText (repoAt "A" "1.0") freshSys
  = (inr tt,
     mkSys (mkNet 0%nat [CCreateBranch "A" "refs/heads/release/1.1.x" "refs/heads/main";
                         CGetRepositoryRefs "A"])
       (mkStore false [] []) [] []).
Proof.
  apply (branchBased_unlisted_branch (listingRemote false) noOutsideText (repoAt "A" "1.0")
           freshSys (Some (mkGitRef "refs/heads/release/1.1.x" "c9"))
           (mkNet 0%nat [CCreateBranch "A" "refs/heads/release/1.1.x" "refs/heads/main"])
           []
           (mkNet 0%nat [CCreateBranch "A" "refs/heads/release/1.1.x" "refs/heads/main";
                         CGetRepositoryRefs "A"])).
  - vm_compute. reflexivity.
  - vm_compute. reflexivity.
  - intros r [].
Defined.

(* ------------------------------------------------------------------ *)
(** ** The selection of the settings menu *)

Lemma NoDup_snoc {A} (l : list A) x : NoDup l -> ~ In x l -> NoDup (l ++ [x]).
Proof.
  intros Hl Hx. induction Hl as [|y l Hy Hl IH]; cbn [app].
  - constructor; [intros [] | constructor].
  - constructor.
    + intros K. apply in_app_or in K. destruct K as [K|[K|[]]]; [now apply Hy|].
      subst. apply Hx. now left.
    + apply IH. intros K. apply Hx. now right.
Qed.

Lemma existsb_eqb_in x (l : list string) : existsb (String.eqb x) l = true <-> In x l.
Proof.
  rewrite existsb_exists. split.
  - intros [y [Hy E]]. apply String.eqb_eq in E. now subst.
  - intros H. exists x. split; [exact H | apply String.eqb_refl].
Qed.

(** X26: toggling a name of the project in a selection without duplicates
    made of names of the project adds the name when it was absent and
    removes it when it was present, keeps the rest, and leaves a selection
    of the same kind; the flag [selectAll] it sets is then true exactly when
    every repository of the project is selected. *)
Theorem settings_toggle_flag (allRepositories : list (string * string))
    (repoName : string) (prev : list string) :
  NoDup (map snd allRepositories) -> NoDup prev ->
  incl prev (map snd allRepositories) -> In repoName (map snd allRepositories) ->
  let flag := fst (SettingsMenu.handleRepoToggle allRepositories repoName prev) in
  let selection := snd (SettingsMenu.handleRepoToggle allRepositories repoName prev) in
  NoDup selection
  /\ incl selection (map snd allRepositories)
  /\ (forall x, In x selection <->
                (x <> repoName /\ In x prev) \/ (x = repoName /\ ~ In x prev))
  /\ (flag = true <-> forall name, In name (map snd allRepositories) -> In name selection).
Proof.
  intros Hall Hprev Hincl Hname. cbv zeta. unfold SettingsMenu.handleRepoToggle.
  cbn [fst snd].
  set (selection := if existsb (String.eqb repoName) prev
                    then filter (fun name => negb (String.eqb name repoName)) prev
                    else prev ++ [repoName]).
  assert (Hmem : forall x, In x selection <->
                   (x <> repoName /\ In x prev) \/ (x = repoName /\ ~ In x prev)).
  { intros x. unfold selection.
    destruct (existsb (String.eqb repoName) prev) eqn:E.
    - apply existsb_eqb_in in E. rewrite filter_In, negb_true_iff, String.eqb_neq.
      split; [intros [H1 H2]; now left|].
      intros [[H1 H2]|[-> H2]]; [now split | contradiction].
    - assert (Hn : ~ In repoName prev).
      { intros K. apply existsb_eqb_in in K. congruence. }
      rewrite in_app_iff. cbn [In]. split.
      + intros [H|[<-|[]]]; [left; split; [intros ->; contradiction | exact H]
                            | right; now split].
      + intros [[H1 H2]|[-> H2]]; [now left | right; now left]. }
  assert (Hnd : NoDup selection).
  { unfold selection. destruct (existsb (String.eqb repoName) prev) eqn:E.
    - now apply NoDup_filter.
    - apply NoDup_snoc; [exact Hprev|]. intros K. apply existsb_eqb_in in K. congruence. }
  assert (Hsub : incl selection (map snd allRepositories)).
  { intros x Hx. apply Hmem in Hx. destruct Hx as [[_ Hx]|[-> _]];
      [now apply Hincl | exact Hname]. }
  split; [exact Hnd|]. split; [exact Hsub|]. split; [exact Hmem|].
  rewrite Nat.eqb_eq, <- (length_map snd allRepositories). split.
  - intros Hlen. apply (NoDup_length_incl Hnd); [lia | exact Hsub].
  - intros Hevery. apply Nat.le_antisymm.
    + now apply NoDup_incl_length.
    + now apply NoDup_incl_length.
Qed.

Lemma settings_toggle_flag_witness :
  let flag := fst (SettingsMenu.handleRepoToggle [("1", "A"); ("2", "B")] "B" ["A"]) in
  let selection := snd (SettingsMenu.handleRepoToggle [("1", "A"); ("2", "B")] "B" ["A"]) in
  NoDup selection
  /\ incl selection (map snd [("1", "A"); ("2", "B")])
  /\ (forall x, In x selection <-> (x <> "B" /\ In x ["A"]) \/ (x = "B" /\ ~ In x ["A"]))
  /\ (flag = true <-> forall name, In name (map snd [("1", "A"); ("2", "B")]) ->
                                   In name selection).
Proof.
  apply (settings_toggle_flag [("1", "A"); ("2", "B")] "B" ["A"]).
  - repeat constructor; cbn; intuition discriminate.
  - repeat constructor; cbn; intuition discriminate.
  - intros x [<-|[]]. cbn. now left.
  - cbn. right. now left.
Defined.

(* ------------------------------------------------------------------ *)
(** ** Requests that fail *)

Section FailingRequests.

Context {W : Type}.
Variable remote : Remote W.
Variable outsideCompare : string -> string -> Z.

(** A request wrapped in [retryAsync] and in a [try] that answers the empty
    array: it returns, with the empty array or with an answer of the remote
    system, and the record of calls is left as it was. *)
Lemma guarded_request (op : Eff W (list string)) (n : Net W) :
  exists ids n',
    tryCatch (retryAsync (request op)) (fun _ => ret []) n = (inr ids, n')
    /\ calls n' = calls n
    /\ (ids = [] \/ exists w w', op w = (inr ids, w')).
Proof.
  unfold tryCatch.
  destruct (retryAsync (request op) n) as [[e|ids] n1] eqn:E.
  - exists [], n1. split; [reflexivity|]. split; [|now left].
    destruct (emits_retryAsync calls (fun _ => False) (request op)
                (emits_request _ _) _ _ _ E) as (d & Ed & F).
    apply Forall_False_nil in F. subst d. now rewrite List.app_nil_r in Ed.
  - exists ids, n1. split; [reflexivity|]. split.
    + destruct (emits_retryAsync calls (fun _ => False) (request op)
                  (emits_request _ _) _ _ _ E) as (d & Ed & F).
      apply Forall_False_nil in F. subst d. now rewrite List.app_nil_r in Ed.
    + right. apply retryLoop_inr in E. destruct E as [s0 E]. unfold request in E.
      destruct (op (world s0)) as [r w'] eqn:Ew. injection E as -> _.
      now exists (world s0), w'.
Qed.

Lemma getRepositoryRefs_unreachable id (n : Net W) :
  (forall w, exists e w', httpGetRefs remote id "heads/release" w = (inl e, w')) ->
  exists e n', getRepositoryRefs remote id n = (inl e, n').
Proof.
  intros H. destruct (getRepositoryRefs remote id n) as [[e|refs] n1] eqn:E.
  - now exists e, n1.
  - exfalso. unfold getRepositoryRefs, bind, invoked in E.
    apply retryLoop_inr in E. destruct E as [s0 E]. unfold request in E.
    destruct (H (world s0)) as [e [w' Hw]]. rewrite Hw in E. discriminate.
Qed.

Lemma loadVersions_unreachable repoList repos (n : Net W) :
  (forall name w, In name repoList ->
     exists e w', httpGetRefs remote name "heads/release" w = (inl e, w')) ->
  exists n',
    loadVersions remote outsideCompare repoList repos n
    = (inr (repos ++ map (fun name => mkRepository name name (Some NO_RELEASES) false None)
                       repoList), n').
Proof.
  revert repos n. induction repoList as [|name rest IH]; intros repos n H.
  - exists n. cbn. now rewrite List.app_nil_r.
  - cbn [loadVersions map]. unfold bind at 1. unfold tryCatch at 1. unfold bind at 1.
    unfold getLatestReleaseVersion, tryCatch. unfold bind at 1.
    destruct (getRepositoryRefs_unreachable name n) as [e [n1 E]].
    { intros w. apply H. now left. }
    rewrite E. cbn [ret orText].
    destruct (IH (repos ++ [mkRepository name name (Some NO_RELEASES) false None]) n1)
      as [n' R].
    { intros x w Hx. apply H. now right. }
    exists n'. rewrite R, <- List.app_assoc. reflexivity.
Qed.

End FailingRequests.

(** X27: [getCommitWorkItems] and [getPullRequestWorkItems] never throw and
    are recorded once: each answers the empty array, which is what it gives
    when its request failed three times, or what the remote system answered
    to the request. *)
Theorem workItemLinks_never_throw {W} (remote : Remote W)
    (repositoryId target : string) (n : Net W) :
  (exists ids n',
     getCommitWorkItems remote repositoryId target n = (inr ids, n')
     /\ calls n' = calls n ++ [CGetCommitWorkItems repositoryId target]
     /\ (ids = []
         \/ exists w w',
              httpGetCommitWorkItems remote repositoryId target w = (inr ids, w')))
  /\ (exists ids n',
        getPullRequestWorkItems remote repositoryId target n = (inr ids, n')
        /\ calls n' = calls n ++ [CGetPullRequestWorkItems repositoryId target]
        /\ (ids = []
            \/ exists w w',
                 httpGetPullRequestWorkItems remote repositoryId target w = (inr ids, w'))).
Proof.
  split.
  - unfold getCommitWorkItems, bind, invoked.
    destruct (guarded_request (httpGetCommitWorkItems remote repositoryId target)
                (mkNet (world n) (calls n ++ [CGetCommitWorkItems repositoryId target])))
      as [ids [n' [R [Hc Ha]]]].
    exists ids, n'. split; [exact R|]. split; [exact Hc | exact Ha].
  - unfold getPullRequestWorkItems, bind, invoked.
    destruct (guarded_request (httpGetPullRequestWorkItems remote repositoryId target)
                (mkNet (world n) (calls n ++ [CGetPullRequestWorkItems repositoryId target])))
      as [ids [n' [R [Hc Ha]]]].
    exists ids, n'. split; [exact R|]. split; [exact Hc | exact Ha].
Qed.

(** X28: a repository whose refs cannot be listed is shown like a repository
    that was never released: [getLatestReleaseVersion] answers [null] for it
    after the three attempts, and the selector stores ['No releases'] as its
    current version. *)
Theorem loadRepositoryVersions_unreachable {W} (remote : Remote W)
    (outsideCompare : string -> string -> Z)
    (selectedRepositoryNames : list string) (n : Net W) :
  (forall name w, In name selectedRepositoryNames ->
     exists e w', httpGetRefs remote name "heads/release" w = (inl e, w')) ->
  selectedRepositoryNames <> [] ->
  exists n',
    loadRepositoryVersions remote outsideCompare selectedRepositoryNames n
    = (inr (Loaded (map (fun name => mkRepository name name (Some NO_RELEASES) false None)
                      selectedRepositoryNames)), n').
Proof.
  intros H Hne. unfold loadRepositoryVersions, tryCatch, bind.
  destruct selectedRepositoryNames as [|name rest]; [congruence|].
  destruct (loadVersions_unreachable remote outsideCompare (name :: rest) [] n H)
    as [n' R].
  rewrite R. exists n'. reflexivity.
Qed.

Lemma loadRepositoryVersions_unreachable_witness :
  exists n',
    loadRepositoryVersions offlineRemote (fun _ _ => 0%Z) ["A"; "B"] (mkNet 0%nat [])
    = (inr (Loaded (map (fun name => mkRepository name name (Some NO_RELEASES) false None)
                      ["A"; "B"])), n').
Proof.
  apply (loadRepositoryVersions_unreachable offlineRemote (fun _ _ => 0%Z) ["A"; "B"]
           (mkNet 0%nat [])).
  - intros name w _. eexists. eexists. reflexivity.
  - discriminate.
Defined.

(* ------------------------------------------------------------------ *)
(** ** What a release asks of the service *)

Lemma emits_forEach_in {S A} (log : S -> list Call) (P : Call -> Prop)
    (xs : list A) (body : A -> Eff S unit) :
  (forall x, In x xs -> emits log P (body x)) -> emits log P (forEach xs body).
Proof.
  induction xs as [|x xs IH]; intros Hbody; cbn [forEach].
  - apply emits_ret.
  - apply emits_bind; [apply Hbody; now left|]. intros _.
    apply IH. intros y Hy. apply Hbody. now right.
Qed.

Section ReleaseCalls.

Context {W : Type}.
Variable remote : Remote W.
Variable outsideText : string -> BumpType -> string.

Lemma invoked_only {A} c (k : Svc (W := W) A) n r n' :
  emits calls (fun _ => False) k ->
  bind (invoked c) (fun _ => k) n = (r, n') -> calls n' = calls n ++ [c].
Proof.
  intros Hk. unfold bind, invoked. intros H.
  destruct (Hk _ _ _ H) as (d & E & F).
  apply Forall_False_nil in F. subst d. now rewrite List.app_nil_r in E.
Qed.

Lemma getMainBranchCommit_calls id (n : Net W) r n' :
  getMainBranchCommit remote id n = (r, n') ->
  calls n' = calls n ++ [CGetMainBranchCommit id].
Proof.
  unfold getMainBranchCommit. apply invoked_only.
  apply emits_retryAsync, emits_bind; [apply emits_request|].
  intros [|x value]; [apply emits_throw | apply emits_ret].
Qed.

Lemma getMainBranchCommit_answer id (n : Net W) commit n' :
  getMainBranchCommit remote id n = (inr commit, n') ->
  exists w r rest w',
    httpGetRefs remote id "heads/main" w = (inr (r :: rest), w')
    /\ commit = ref_objectId r.
Proof.
  unfold getMainBranchCommit, bind at 1, invoked. intros H.
  apply retryLoop_inr in H. destruct H as [s0 H].
  unfold bind, request in H.
  destruct (httpGetRefs remote id "heads/main" (world s0)) as [[e|[|r rest]] w'] eqn:E;
    try discriminate H.
  injection H as <- _. now exists (world s0), r, rest, w'.
Qed.

Lemma createBranch_calls id branchName sourceBranch (n : Net W) r n' :
  createBranch remote id branchName sourceBranch n = (r, n') ->
  calls n' = calls n ++ [CCreateBranch id branchName sourceBranch].
Proof.
  unfold createBranch. apply invoked_only.
  apply emits_bind; [apply emits_request|].
  intros [|x refs]; [apply emits_throw|].
  apply emits_retryAsync, emits_bind; [apply emits_request|]. intros value. apply emits_ret.
Qed.

Lemma createTag_calls id tagName commit message (n : Net W) r n' :
  createTag remote id tagName commit message n = (r, n') ->
  calls n' = calls n ++ [CCreateTag id tagName commit message].
Proof.
  unfold createTag. apply invoked_only. apply emits_retryAsync, emits_request.
Qed.

(** What the three stages invoke when they succeed. *)
Lemma creation_calls repo (n n1 : Net W) :
  creation remote outsideText repo n = (inr tt, n1) ->
  exists commit,
    calls n1
    = calls n
      ++ [CGetMainBranchCommit (repo_id repo);
          CCreateBranch (repo_id repo)
            ("refs/heads/release/" ++ newVersionOf outsideText repo ++ ".x")
            "refs/heads/main";
          CCreateTag (repo_id repo) (newVersionOf outsideText repo) commit
            ("Release " ++ newVersionOf outsideText repo)]
    /\ exists w r rest w',
         httpGetRefs remote (repo_id repo) "heads/main" w = (inr (r :: rest), w')
         /\ commit = ref_objectId r.
Proof.
  unfold creation. cbv zeta. unfold bind.
  destruct (getMainBranchCommit remote (repo_id repo) n) as [[e|commit] na] eqn:E1;
    [discriminate|].
  destruct (createBranch remote (repo_id repo) _ "refs/heads/main" na) as [[e|b] nb] eqn:E2;
    [discriminate|].
  destruct (createTag remote (repo_id repo) _ commit _ nb) as [[e|[]] nc] eqn:E3;
    [discriminate|].
  intros [= <-]. exists commit. split.
  - rewrite (createTag_calls _ _ _ _ _ _ _ E3), (createBranch_calls _ _ _ _ _ _ E2),
      (getMainBranchCommit_calls _ _ _ _ E1), <- !List.app_assoc. reflexivity.
  - exact (getMainBranchCommit_answer _ _ _ _ E1).
Qed.

(** The calls after the tag create nothing. *)
Lemma harvested_notCreate repo (n1 : Net W) :
  exists rest,
    calls (snd (harvested remote outsideText repo n1)) = calls n1 ++ rest
    /\ Forall notCreate rest.
Proof.
  unfold harvested. destruct (oldTagNameOf repo) as [old|].
  - unfold harvest.
    destruct (getCommitsBetweenTags remote (repo_id repo) old
                (newVersionOf outsideText repo) n1) as [[e|commits] n2] eqn:Hg;
      destruct (emits_getCommitsBetweenTags remote notCreate (repo_id repo) old
                  (newVersionOf outsideText repo) I I (fun _ => I) _ _ _ Hg)
        as (d1 & E1 & F1).
    + exists d1. split; assumption.
    + destruct (collectWorkItemIds_returns remote (repo_id repo) commits [] n2
                  (NoDup_nil _)) as (ids & n3 & Hc & _ & Hcalls).
      rewrite Hc.
      pose proof (fetchRun_calls remote ids n3) as Hf.
      destruct (fetchRun remote ids n3) as [items n4]. cbn [snd] in *.
      exists (d1 ++ map (fun c => CGetCommitWorkItems (repo_id repo) (commitId c)) commits
                 ++ map CGetWorkItem ids).
      split.
      * rewrite Hf, Hcalls, E1, <- !List.app_assoc. reflexivity.
      * apply Forall_app. split; [exact F1|]. apply Forall_app.
        split; apply Forall_forall; intros c Hc0; apply in_map_iff in Hc0;
          destruct Hc0 as [x [<- _]]; exact I.
  - exists []. split; [now rewrite List.app_nil_r | constructor].
Qed.

Lemma emits_processRepo_about (P : Call -> Prop) repo :
  (forall c, callRepository c = Some (repo_id repo) \/ callRepository c = None -> P c) ->
  emits (@sysCalls W) P (processRepo remote outsideText repo).
Proof.
  intros H.
  assert (Hid : forall c, callRepository c = Some (repo_id repo) -> P c)
    by (intros c Hc; apply H; now left).
  unfold processRepo. apply emits_tryCatch; [|intros e; now apply emits_same].
  unfold release. cbv zeta.
  apply emits_bind; [apply emits_svc, emits_getMainBranchCommit; now apply Hid|]. intros c.
  apply emits_bind; [apply emits_svc, emits_createBranch; now apply Hid|]. intros _.
  apply emits_bind; [apply emits_svc, emits_createTag; now apply Hid|]. intros _.
  apply emits_bind; [now apply emits_same|]. intros _.
  apply emits_bind.
  - destruct (oldTagNameOf repo) as [old|]; [|apply emits_ret].
    apply emits_tryCatch; [|intros e; apply emits_ret].
    apply emits_bind.
    { apply emits_svc, emits_getCommitsBetweenTags; try (now apply Hid).
      intros o. now apply Hid. }
    intros commits. apply emits_bind.
    { apply emits_svc, emits_collectWorkItemIds. intros c0. now apply Hid. }
    intros ids. unfold fetchWorkItems. apply emits_forEach. intros id.
    apply emits_tryCatch; [|intros e; apply emits_ret].
    apply emits_bind; [apply emits_svc, emits_getWorkItem; apply H; now right|].
    intros item. apply emits_bind; intros; now apply emits_same.
  - intros _. apply emits_bind; [now apply emits_same|]. intros items.
    now apply emits_same.
Qed.

End ReleaseCalls.

(** X29: a repository recorded as a success was released by exactly three
    creating calls, in this order: [getMainBranchCommit], [createBranch] of
    [refs/heads/release/<new version>.x] from [refs/heads/main], and
    [createTag] of the new version with the message "Release <new
    version>" on the commit of the first ref that a listing of [heads/main]
    answered.  What follows creates neither a branch nor a tag. *)
Theorem processRepo_success_calls {W} (remote : Remote W)
    (outsideText : string -> BumpType -> string) (repo : Repository)
    (s s' : Sys W) (r : ReleaseProcessingResult) :
  processRepo remote outsideText repo s = (inr tt, s') ->
  processingResults (store s') = processingResults (store s) ++ [r] ->
  success r = true ->
  exists commit rest,
    sysCalls s'
    = sysCalls s
      ++ [CGetMainBranchCommit (repo_id repo);
          CCreateBranch (repo_id repo)
            ("refs/heads/release/" ++ newVersionOf outsideText repo ++ ".x")
            "refs/heads/main";
          CCreateTag (repo_id repo) (newVersionOf outsideText repo) commit
            ("Release " ++ newVersionOf outsideText repo)]
      ++ rest
    /\ Forall notCreate rest
    /\ exists w r0 others w',
         httpGetRefs remote (repo_id repo) "heads/main" w = (inr (r0 :: others), w')
         /\ commit = ref_objectId r0.
Proof.
  intros Hrun Hres Hok.
  destruct (processRepo_run remote outsideText repo s) as [wk R].
  rewrite R in Hrun. injection Hrun as <-.
  cbn [store withResult processingResults] in Hres.
  apply app_inv_head in Hres. injection Hres as <-.
  unfold sysCalls. cbn [net].
  unfold outcome in *.
  destruct (creation remote outsideText repo (net s)) as [[e|[]] n1] eqn:Ec;
    [discriminate Hok|].
  destruct (creation_calls remote outsideText repo _ _ Ec) as [commit [Hc Hsrc]].
  destruct (harvested_notCreate remote outsideText repo n1) as [rest [Hh Hrest]].
  destruct (harvested remote outsideText repo n1) as [items n2]. cbn [snd] in *.
  exists commit, rest. split; [|split; [exact Hrest | exact Hsrc]].
  rewrite Hh, Hc, <- !List.app_assoc. reflexivity.
Qed.

Lemma processRepo_success_calls_witness :
  exists commit rest,
    sysCalls (snd (processRepo (scenarioRemote mergedPrScenario) noOutsideText
                     (repoAt "A" "1.0") freshSys))
    = sysCalls freshSys
      ++ [CGetMainBranchCommit "A";
          CCreateBranch "A" "refs/heads/release/1.1.x" "refs/heads/main";
          CCreateTag "A" "1.1" commit "Release 1.1"]
      ++ rest
    /\ Forall notCreate rest
    /\ exists w r0 others w',
         httpGetRefs (scenarioRemote mergedPrScenario) "A" "heads/main" w
         = (inr (r0 :: others), w')
         /\ commit = ref_objectId r0.
Proof.
  apply (processRepo_success_calls (scenarioRemote mergedPrScenario) noOutsideText
           (repoAt "A" "1.0") freshSys
           (snd (processRepo (scenarioRemote mergedPrScenario) noOutsideText
                   (repoAt "A" "1.0") freshSys))
           (mkResult "A" true (Some "1.1") None
              (Some [item 300; item 42; item 100; item 200]))).
  - vm_compute. reflexivity.
  - vm_compute. reflexivity.
  - reflexivity.
Defined.

(** X30: a batch asks the service about selected repositories only: every
    call it adds to the record is a request for a work item or bears the
    identifier of a selected repository. *)
Theorem processReleases_only_selected {W} (remote : Remote W)
    (outsideText : string -> BumpType -> string)
    (repositories : list Repository) (s : Sys W) :
  exists delta,
    sysCalls (snd (processReleases remote outsideText repositories s))
    = sysCalls s ++ delta
    /\ Forall (fun c => forall r, callRepository c = Some r ->
                                  In r (map repo_id (selectedRepos repositories))) delta.
Proof.
  set (P := fun c => forall r, callRepository c = Some r ->
                               In r (map repo_id (selectedRepos repositories))).
  assert (E : emits (@sysCalls W) P (processReleases remote outsideText repositories)).
  { unfold processReleases.
    apply emits_bind; [now apply emits_same|]. intros _.
    apply emits_bind; [now apply emits_same|]. intros _.
    apply emits_bind; [now apply emits_same|]. intros _.
    apply emits_bind.
    - apply emits_forEach_in. intros repo Hrepo.
      apply emits_processRepo_about. intros c [Hc|Hc] r Hr.
      + rewrite Hc in Hr. injection Hr as <-. now apply in_map.
      + rewrite Hc in Hr. discriminate.
    - intros _. apply emits_bind; [now apply emits_same|]. intros items.
      apply emits_bind; [now apply emits_same|]. intros _. now apply emits_same. }
  destruct (processReleases remote outsideText repositories s) as [r s'] eqn:R.
  exact (E _ _ _ R).
Qed.

(* ------------------------------------------------------------------ *)
(** ** The range that [getCommitsBetweenTags] returns *)

Lemma retryLoop_ret_map {St A B} (c : Eff St A) (f : A -> B) k last s :
  retryLoop k last (bind c (fun v => ret (f v))) s
  = match retryLoop k last c s with
    | (inr v, s') => (inr (f v), s')
    | (inl e, s') => (inl e, s')
    end.
Proof.
  revert last s. induction k as [|k IH]; intros last s.
  - now rewrite !retryLoop_done.
  - cbn [retryLoop]. unfold bind at 1. unfold ret at 1.
    destruct (c s) as [[e|v] s1]; [apply IH | reflexivity].
Qed.

(** C3. [getCommitsBetweenTags] returns the commits that come before the
    commit of the old tag.  When the tags are listed with both tags among
    them, the old tag is dereferenced to [oldCommitId] and the new one to
    [newCommitId], and the commits listed from [newCommitId] are [fetched],
    newest first, the method returns.  If [oldCommitId] stands in [fetched]
    after the commits [newer], it returns exactly [newer], the old commit
    excluded; if no commit of [fetched] is the old one, it returns the
    whole of [fetched]. *)
Theorem getCommitsBetweenTags_range {W} (remote : Remote W)
    (repositoryId oldTag newTag : string) (n n1 n2 n3 n4 : Net W)
    (tags : list GitRef) (oldTagRef newTagRef : GitRef)
    (oldCommitId newCommitId : string) (fetched : list GitCommit) :
  getRepositoryTags remote repositoryId
    (mkNet (world n) (calls n ++ [CGetCommitsBetweenTags repositoryId oldTag newTag]))
  = (inr tags, n1) ->
  find (fun t => String.eqb (ref_name t) ("refs/tags/" ++ oldTag)%string) tags
  = Some oldTagRef ->
  find (fun t => String.eqb (ref_name t) ("refs/tags/" ++ newTag)%string) tags
  = Some newTagRef ->
  resolveTagCommitId remote repositoryId oldTagRef oldTag n1 = (inr oldCommitId, n2) ->
  resolveTagCommitId remote repositoryId newTagRef newTag n2 = (inr newCommitId, n3) ->
  retryAsync (request (httpGetCommits remote repositoryId newCommitId)) n3
  = (inr fetched, n4) ->
  exists commits,
    getCommitsBetweenTags remote repositoryId oldTag newTag n = (inr commits, n4)
    /\ (forall newer c older,
          fetched = newer ++ c :: older ->
          commitId c = oldCommitId ->
          (forall x, In x newer -> commitId x <> oldCommitId) ->
          commits = newer)
    /\ ((forall x, In x fetched -> commitId x <> oldCommitId) -> commits = fetched).
Proof.
  intros Htags Hold Hnew Ho Hn Hf.
  exists (commitsBefore oldCommitId fetched). split.
  - unfold getCommitsBetweenTags. unfold bind at 1. unfold invoked at 1.
    unfold bind at 1. rewrite Htags, Hold, Hnew.
    unfold bind at 1. rewrite Ho. unfold bind at 1. rewrite Hn.
    unfold retryAsync in *. rewrite retryLoop_ret_map, Hf. reflexivity.
  - split.
    + intros newer c older -> Hc Hnewer. unfold commitsBefore.
      rewrite (findIndex_first _ newer c older).
      * rewrite firstn_app, firstn_all, Nat.sub_diag. cbn [firstn].
        now rewrite List.app_nil_r.
      * intros x Hx. apply String.eqb_neq. now apply Hnewer.
      * now apply String.eqb_eq.
    + intros Habsent. unfold commitsBefore. rewrite findIndex_absent; [reflexivity|].
      intros x Hx. apply String.eqb_neq. now apply Habsent.
Qed.

Lemma getCommitsBetweenTags_range_witness :
  exists commits,
    getCommitsBetweenTags (scenarioRemote rangeScenario) "A" "1.0" "1.1" (mkNet 0%nat [])
    = (inr commits,
       mkNet 0%nat [CGetCommitsBetweenTags "A" "1.0" "1.1"; CGetRepositoryTags "A";
                    CGetTagObject "A" "c2"; CGetTagObject "A" "c9"])
    /\ (forall newer c older,
          sc_history rangeScenario = newer ++ c :: older ->
          commitId c = "c2" ->
          (forall x, In x newer -> commitId x <> "c2") ->
          commits = newer)
    /\ ((forall x, In x (sc_history rangeScenario) -> commitId x <> "c2") ->
        commits = sc_history rangeScenario).
Proof.
  apply (getCommitsBetweenTags_range (scenarioRemote rangeScenario) "A" "1.0" "1.1"
           (mkNet 0%nat [])
           (mkNet 0%nat [CGetCommitsBetweenTags "A" "1.0" "1.1"; CGetRepositoryTags "A"])
           (mkNet 0%nat [CGetCommitsBetweenTags "A" "1.0" "1.1"; CGetRepositoryTags "A";
                         CGetTagObject "A" "c2"])
           (mkNet 0%nat [CGetCommitsBetweenTags "A" "1.0" "1.1"; CGetRepositoryTags "A";
                         CGetTagObject "A" "c2"; CGetTagObject "A" "c9"])
           (mkNet 0%nat [CGetCommitsBetweenTags "A" "1.0" "1.1"; CGetRepositoryTags "A";
                         CGetTagObject "A" "c2"; CGetTagObject "A" "c9"])
           tags_1_0_1_1 (mkGitRef "refs/tags/1.0" "c2") (mkGitRef "refs/tags/1.1" "c9")
           "c2" "c9" (sc_history rangeScenario)).
  - vm_compute. reflexivity.
  - reflexivity.
  - reflexivity.
  - vm_compute. reflexivity.
  - vm_compute. reflexivity.
  - vm_compute. reflexivity.
Defined.

(* ------------------------------------------------------------------ *)
(** ** Versions beyond the safe integers *)

(** Beyond that bound the bump is not the one of C4 as the specification
    states it.  The current version 9007199254740992.0 reads as the pair
    (2^53, 0).  A major bump adds 1 to the double 2^53, which gives 2^53
    again, so the new version is the text of the current one and not that
    of (2^53 + 1, 0). *)
Lemma calculateNewVersion_rounding_counterexample :
  integerVersionOf "9007199254740992.0" = Some (9007199254740992%N, 0%N)
  /\ calculateNewVersion (roundedText noOutsideText) (Some "9007199254740992.0") Major
     = "9007199254740992.0"
  /\ calculateNewVersion (roundedText noOutsideText) (Some "9007199254740992.0") Major
     <> versionText (9007199254740992 + 1) 0.
Proof.
  split; [vm_compute; reflexivity|]. split; [vm_compute; reflexivity|].
  vm_compute. discriminate.
Qed.

(** Beyond that bound the answer need not be the maximum that C8 asks for
    as the specification states it.  Of the release branches
    9007199254740992.1 and 9007199254740993.0 the second has the greater
    major version, but both majors convert to the double 2^53, the
    comparator falls back on the minor versions, and
    [getLatestReleaseVersion] answers the first. *)
Lemma getLatestReleaseVersion_rounding_counterexample :
  releaseBranches hugeRefs = ["9007199254740992.1"; "9007199254740993.0"]
  /\ fst (getLatestReleaseVersion hugeRemote (roundedCompare (fun _ _ => 0%Z)) "repo"
            (mkNet tt []))
     = inr (Some "9007199254740992.1")
  /\ integerVersionOf "9007199254740992.1" = Some (9007199254740992%N, 1%N)
  /\ integerVersionOf "9007199254740993.0" = Some (9007199254740993%N, 0%N)
  /\ ~ versionLe (9007199254740993%N, 0%N) (9007199254740992%N, 1%N).
Proof.
  split; [vm_compute; reflexivity|]. split; [vm_compute; reflexivity|].
  split; [vm_compute; reflexivity|]. split; [vm_compute; reflexivity|].
  unfold versionLe. cbn [fst snd]. lia.
Qed.

(* ------------------------------------------------------------------ *)
(** ** One result for each repository: the two revisions *)

(** C5 (where the code departs from it).  Two repositories are selected and
    the remote system accepts the creation of their branches but does not
    list the new branches afterwards.  The branch-based revision of
    [processReleases] creates both branches and records no result at all,
    neither a success nor a failure; the tag-based revision records one
    result for each repository, in order. *)
Theorem branchBased_missing_result_example :
  let batch := [repoAt "A" "1.0"; repoAt "B" "1.0"] in
  let old := snd (BranchBased.processReleases (listingRemote false) noOutsideText batch
                    freshSys) in
  let new := snd (processReleases (listingRemote false) noOutsideText batch freshSys) in
  processingResults (store old) = []
  /\ calls (net old)
     = [CCreateBranch "A" "refs/heads/release/1.1.x" "refs/heads/main";
        CGetRepositoryRefs "A";
        CCreateBranch "B" "refs/heads/release/1.1.x" "refs/heads/main";
        CGetRepositoryRefs "B"]
  /\ map (fun r => (repository r, success r)) (processingResults (store new))
     = [("A", true); ("B", true)].
Proof.
  cbv zeta. repeat split; vm_compute; reflexivity.
Qed.

(* ------------------------------------------------------------------ *)
(** ** Sentinels, as the selector stores them *)

Lemma shape_not_sentinel major minor :
  Js.everyDigit major = true ->
  isSentinel (Some (major ++ String "." minor)%string) = false.
Proof.
  intros Hd. unfold isSentinel.
  destruct major as [|c major]; [reflexivity|].
  cbn [Js.everyDigit] in Hd. apply andb_prop in Hd. destruct Hd as [Hc _].
  cbn [append Js.truthy negb orb].
  destruct (String.eqb_spec (String c (major ++ String "." minor)) NO_RELEASES) as [K|_].
  { injection K as -> _. discriminate Hc. }
  destruct (String.eqb_spec (String c (major ++ String "." minor)) ERROR_LOADING) as [K|_].
  { injection K as -> _. discriminate Hc. }
  reflexivity.
Qed.

Lemma loadRepositoryVersions_asLoaded {W} (remote : Remote W)
    (outsideCompare : string -> string -> Z) names (n n' : Net W) repos :
  loadRepositoryVersions remote outsideCompare names n = (inr (Loaded repos), n') ->
  Forall asLoaded repos.
Proof.
  unfold loadRepositoryVersions, tryCatch, bind.
  set (repoList := match names with
                   | [] => [DEFAULT_REPOSITORY]
                   | _ :: _ => names
                   end).
  destruct (loadVersions_run remote outsideCompare repoList [] n (Forall_nil _))
    as [repos' [n1 [R [_ [Hall _]]]]].
  rewrite R. unfold ret. intros H. injection H as <- _. exact Hall.
Qed.

(** The handlers of the selector update the store with [selected] or
    [bumpType] only: the current versions stay those that were loaded. *)
Lemma updateRepository_keeps_versions name updates repositories :
  upd_currentVersion updates = None ->
  map currentVersion (updateRepository name updates repositories)
  = map currentVersion repositories.
Proof.
  intros H. unfold updateRepository. rewrite map_map. apply map_ext. intros r.
  destruct (String.eqb (repo_name r) name); [|reflexivity].
  unfold mergeRepository. cbn [currentVersion]. now rewrite H.
Qed.

(** C6. A repository of the batch bears the current version that
    [loadRepositoryVersions] stored for it; the handlers change only its
    selection and its bump type.  When that version is a sentinel, it is
    ['No releases'], which stands for a repository without a release and
    for one whose version could not be looked up alike.  Once the branch
    and the tag are created, the repository is recorded as a success with
    its new version and no work item, and nothing more is asked of the
    service: the state of the service is the one the creation of the tag
    left, so no tag is listed, no commit and no work item requested. *)
Theorem processRepo_sentinel_skips {W} (remote : Remote W)
    (outsideCompare : string -> string -> Z)
    (outsideText : string -> BumpType -> string)
    (selectedRepositoryNames : list string) (n0 n0' : Net W)
    (repos : list Repository) (loaded repo : Repository) (s : Sys W) (n1 : Net W) :
  loadRepositoryVersions remote outsideCompare selectedRepositoryNames n0
  = (inr (Loaded repos), n0') ->
  In loaded repos ->
  currentVersion repo = currentVersion loaded ->
  isSentinel (currentVersion repo) = true ->
  creation remote outsideText repo (net s) = (inr tt, n1) ->
  currentVersion repo = Some NO_RELEASES
  /\ exists s',
       processRepo remote outsideText repo s = (inr tt, s')
       /\ processingResults (store s')
          = processingResults (store s)
            ++ [mkResult (repo_name repo) true (Some (newVersionOf outsideText repo)) None
                  (Some [])]
       /\ net s' = n1
       /\ allWorkItems s' = allWorkItems s.
Proof.
  intros Hload Hin Hcv Hsent Hc.
  assert (Hv : currentVersion repo = Some NO_RELEASES).
  { pose proof (loadRepositoryVersions_asLoaded _ _ _ _ _ _ Hload) as Hall.
    rewrite Forall_forall in Hall. destruct (Hall loaded Hin) as (_ & _ & _ & _ & Hshape).
    rewrite Hcv in *. destruct Hshape as [H|[major [minor [H [Hd _]]]]]; [exact H|].
    rewrite H in Hsent. rewrite (shape_not_sentinel major minor Hd) in Hsent.
    discriminate. }
  split; [exact Hv|].
  destruct (processRepo_run remote outsideText repo s) as [wk R].
  rewrite (outcome_skips remote outsideText repo (net s) n1) in R;
    [|right; right; exact Hv | exact Hc].
  eexists. split; [exact R|]. cbn. rewrite List.app_nil_r. repeat split.
Qed.

Lemma processRepo_sentinel_skips_witness :
  currentVersion noReleasesRepo = Some NO_RELEASES
  /\ exists s',
       processRepo (scenarioRemote refusedScenario) noOutsideText noReleasesRepo freshSys
       = (inr tt, s')
       /\ processingResults (store s')
          = [] ++ [mkResult "A" true (Some "1.0") None (Some [])]
       /\ net s' = mkNet 0%nat
                     [CGetMainBranchCommit "A";
                      CCreateBranch "A" "refs/heads/release/1.0.x" "refs/heads/main";
                      CCreateTag "A" "1.0" "c9" "Release 1.0"]
       /\ allWorkItems s' = [].
Proof.
  apply (processRepo_sentinel_skips (scenarioRemote refusedScenario) (fun _ _ => 0%Z)
           noOutsideText ["A"] (mkNet 0%nat []) (mkNet 0%nat [CGetRepositoryRefs "A"])
           [mkRepository "A" "A" (Some NO_RELEASES) false None]
           (mkRepository "A" "A" (Some NO_RELEASES) false None)
           noReleasesRepo freshSys).
  - vm_compute. reflexivity.
  - now left.
  - reflexivity.
  - reflexivity.
  - vm_compute. reflexivity.
Defined.

(** With an unselected repository of the same name standing first, the
    fallback is the version of that one: here the release of the selected
    [CareConnect.Pharmacy], at 2.4, fails, and the build is 9.9. *)
Lemma integrationBuild_namesake_example :
  let repositories :=
    mkRepository "X" "CareConnect.Pharmacy" (Some "9.9") false None :: pharmacyRepos in
  integrationBuild repositories
    (processingResults
       (store (snd (processReleases (scenarioRemote refusedScenario) noOutsideText
                      repositories freshSys))))
  = "9.9".
Proof. vm_compute. reflexivity. Qed.
